(** * Claw machine: motion and game-state engine

    A shallow embedding of [claw-react/src/components/ClawMachine.jsx].

    JavaScript objects have identity and are mutated in place, and the
    [moveWith] arrays alias them, so every positioned object lives in a
    store ([heap]) and is referred to by its address.  Timer handles are
    the positive integers that [setInterval] hands out, so a handle is
    always truthy.

    JavaScript numbers are binary64 doubles.  The store holds whole numbers
    ([Z]): on whole numbers of magnitude up to 2^53 the sums, differences
    and comparisons of the component are exact, so the store describes the
    runs in which every coordinate is whole.  Where a whole number can leave
    that range (the turn count, which a message sets), the operation is
    modelled with its rounding ([roundDouble]).  What a tick does on
    fractional coordinates, as the toys have them, is described on the
    kernel's binary64 floats in [Doubles]. *)

From Stdlib Require Import ZArith List Lia Bool.
From Stdlib Require Import PrimFloat FloatOps.
From stdpp Require Import gmap strings list.

Local Open Scope Z_scope.

(** ** Data model *)

(** The attribute a move drives: ['x'], ['y'] or ['h']. *)
Inductive MoveKey := KeyX | KeyY | KeyH.

(** The functions handed over as [next].  The component passes the named
    function [stopHoriBtnAndActivateVertBtn] and, on mount, the two nested
    closures of the initial animation ([InitRail] starts the rail's move,
    [InitDone] ends the animation; both capture the joint's rest height
    [g.machineTopHeight - MACHINE_BUFFER.y]).  [Observer n] stands for a
    closure that changes nothing of the game by itself when called (a
    caller's probe, or one that only arms a [setTimeout]); it is seen
    through the trace of invocations. *)
Inductive Callback :=
| StopHoriBtnAndActivateVertBtn
| InitRail (restY : Z)
| InitDone (restY : Z)
| Observer (n : nat).

#[global] Instance Callback_eq_dec : EqDecision Callback.
Proof. solve_decision. Defined.

Record Point := { pt_x : Z; pt_y : Z }.

(** [transformOrigin] is either a point or a CSS keyword. *)
Inductive Origin :=
| OriginAt (p : Point)
| OriginNamed (s : string).

(** [obj.default]: the rest pose. *)
Record Pose := { d_x : Z; d_y : Z; d_w : Z; d_h : Z }.

(** The object literal of [createWorldObject] and [createToy].  [o_toyType],
    [o_index] and [o_clawPos] are set on toys only and read on toys only;
    [o_classes] is [el.classList]. *)
Record WorldObject := {
  o_x : Z; o_y : Z; o_z : Z; o_w : Z; o_h : Z;
  o_angle : Z;
  o_transformOrigin : Origin;
  o_interval : option positive;
  o_default : Pose;
  o_moveWith : list (option positive);
  o_toyType : string;
  o_index : Z;
  o_clawPos : option Point;
  o_classes : list string;
}.

(** What the closure given to [setInterval] captures. *)
Record Timer := {
  t_obj : positive;
  t_key : MoveKey;
  t_target : Z;
  t_next : option Callback;
  t_period : Z;
}.

(** A button element: the [active] class and [dataset.locked]. *)
Record Button := { b_active : bool; b_locked : bool }.

(** A message posted to the parent window: its [type], and the [toyId] a
    TOY_COLLECTED message carries. *)
Inductive ParentMessage :=
| TURN_COMPLETE
| TOY_COLLECTED (toyId : string).

#[global] Instance ParentMessage_eq_dec : EqDecision ParentMessage.
Proof. solve_decision. Defined.

(** [gameRef.current], together with what the component reaches through
    its other refs and the browser: the table of live interval timers, the
    handle the next [setInterval] returns, the two buttons, the collection
    box and arrow, the requests sent, and the trace of [next()] calls
    (newest first). *)
Record Game := {
  heap : gmap positive WorldObject;
  timers : gmap positive Timer;
  nextTimer : positive;
  intervals : gset positive;
  toyEls : list positive;
  targetToy : option positive;
  collectedNumber : Z;
  turnUsed : bool;
  remainingTurns : Z;
  maxArmLength : Z;
  machineWidth : Z;
  machineHeight : Z;
  horiBtn : Button;
  vertBtn : Button;
  collectionArrow : bool;
  collectionBox : list string;
  requests : list string;
  posted : list ParentMessage;
  calls : list Callback;
}.

(** [g.objects]: the three machine parts are created first, in this order. *)
Definition armJoint : positive := 1%positive.
Definition vertRail : positive := 2%positive.
Definition arm : positive := 3%positive.

Definition MACHINE_BUFFER : Point := {| pt_x := 36; pt_y := 16 |}.

(** ** Whole numbers as doubles *)

(** The double nearest to the whole number [z], ties going to the even
    mantissa.  A whole number of magnitude up to 2^53 is a double; a larger
    one keeps its 53 leading bits.  (Overflow, from 2^1024 on, is not
    modelled.) *)
Definition roundDouble (z : Z) : Z :=
  let a := Z.abs z in
  let e := Z.log2 a - 52 in
  if e <=? 0 then z
  else
    let q := a / 2 ^ e in
    let r := a mod 2 ^ e in
    let half := 2 ^ (e - 1) in
    let q' := if (half <? r) || ((r =? half) && Z.odd q) then q + 1 else q in
    Z.sgn z * (q' * 2 ^ e).

(** [a - b] on whole-number doubles: the exact difference, rounded. *)
Definition subDouble (a b : Z) : Z := roundDouble (a - b).

(** ** Field updates *)

Definition set_x (v : Z) (o : WorldObject) : WorldObject :=
  {| o_x := v; o_y := o_y o; o_z := o_z o; o_w := o_w o; o_h := o_h o;
     o_angle := o_angle o; o_transformOrigin := o_transformOrigin o;
     o_interval := o_interval o; o_default := o_default o;
     o_moveWith := o_moveWith o; o_toyType := o_toyType o;
     o_index := o_index o; o_clawPos := o_clawPos o; o_classes := o_classes o |}.

Definition set_y (v : Z) (o : WorldObject) : WorldObject :=
  {| o_x := o_x o; o_y := v; o_z := o_z o; o_w := o_w o; o_h := o_h o;
     o_angle := o_angle o; o_transformOrigin := o_transformOrigin o;
     o_interval := o_interval o; o_default := o_default o;
     o_moveWith := o_moveWith o; o_toyType := o_toyType o;
     o_index := o_index o; o_clawPos := o_clawPos o; o_classes := o_classes o |}.

Definition set_z (v : Z) (o : WorldObject) : WorldObject :=
  {| o_x := o_x o; o_y := o_y o; o_z := v; o_w := o_w o; o_h := o_h o;
     o_angle := o_angle o; o_transformOrigin := o_transformOrigin o;
     o_interval := o_interval o; o_default := o_default o;
     o_moveWith := o_moveWith o; o_toyType := o_toyType o;
     o_index := o_index o; o_clawPos := o_clawPos o; o_classes := o_classes o |}.

Definition set_h (v : Z) (o : WorldObject) : WorldObject :=
  {| o_x := o_x o; o_y := o_y o; o_z := o_z o; o_w := o_w o; o_h := v;
     o_angle := o_angle o; o_transformOrigin := o_transformOrigin o;
     o_interval := o_interval o; o_default := o_default o;
     o_moveWith := o_moveWith o; o_toyType := o_toyType o;
     o_index := o_index o; o_clawPos := o_clawPos o; o_classes := o_classes o |}.

Definition set_angle (v : Z) (o : WorldObject) : WorldObject :=
  {| o_x := o_x o; o_y := o_y o; o_z := o_z o; o_w := o_w o; o_h := o_h o;
     o_angle := v; o_transformOrigin := o_transformOrigin o;
     o_interval := o_interval o; o_default := o_default o;
     o_moveWith := o_moveWith o; o_toyType := o_toyType o;
     o_index := o_index o; o_clawPos := o_clawPos o; o_classes := o_classes o |}.

Definition set_transformOrigin (v : Origin) (o : WorldObject) : WorldObject :=
  {| o_x := o_x o; o_y := o_y o; o_z := o_z o; o_w := o_w o; o_h := o_h o;
     o_angle := o_angle o; o_transformOrigin := v;
     o_interval := o_interval o; o_default := o_default o;
     o_moveWith := o_moveWith o; o_toyType := o_toyType o;
     o_index := o_index o; o_clawPos := o_clawPos o; o_classes := o_classes o |}.

Definition set_interval (v : option positive) (o : WorldObject) : WorldObject :=
  {| o_x := o_x o; o_y := o_y o; o_z := o_z o; o_w := o_w o; o_h := o_h o;
     o_angle := o_angle o; o_transformOrigin := o_transformOrigin o;
     o_interval := v; o_default := o_default o;
     o_moveWith := o_moveWith o; o_toyType := o_toyType o;
     o_index := o_index o; o_clawPos := o_clawPos o; o_classes := o_classes o |}.

Definition set_moveWith (v : list (option positive)) (o : WorldObject) : WorldObject :=
  {| o_x := o_x o; o_y := o_y o; o_z := o_z o; o_w := o_w o; o_h := o_h o;
     o_angle := o_angle o; o_transformOrigin := o_transformOrigin o;
     o_interval := o_interval o; o_default := o_default o;
     o_moveWith := v; o_toyType := o_toyType o;
     o_index := o_index o; o_clawPos := o_clawPos o; o_classes := o_classes o |}.

Definition set_clawPos (v : option Point) (o : WorldObject) : WorldObject :=
  {| o_x := o_x o; o_y := o_y o; o_z := o_z o; o_w := o_w o; o_h := o_h o;
     o_angle := o_angle o; o_transformOrigin := o_transformOrigin o;
     o_interval := o_interval o; o_default := o_default o;
     o_moveWith := o_moveWith o; o_toyType := o_toyType o;
     o_index := o_index o; o_clawPos := v; o_classes := o_classes o |}.

Definition set_classes (v : list string) (o : WorldObject) : WorldObject :=
  {| o_x := o_x o; o_y := o_y o; o_z := o_z o; o_w := o_w o; o_h := o_h o;
     o_angle := o_angle o; o_transformOrigin := o_transformOrigin o;
     o_interval := o_interval o; o_default := o_default o;
     o_moveWith := o_moveWith o; o_toyType := o_toyType o;
     o_index := o_index o; o_clawPos := o_clawPos o; o_classes := v |}.

Definition set_default (v : Pose) (o : WorldObject) : WorldObject :=
  {| o_x := o_x o; o_y := o_y o; o_z := o_z o; o_w := o_w o; o_h := o_h o;
     o_angle := o_angle o; o_transformOrigin := o_transformOrigin o;
     o_interval := o_interval o; o_default := v;
     o_moveWith := o_moveWith o; o_toyType := o_toyType o;
     o_index := o_index o; o_clawPos := o_clawPos o; o_classes := o_classes o |}.

Definition set_heap (v : gmap positive WorldObject) (g : Game) : Game :=
  {| heap := v; timers := timers g; nextTimer := nextTimer g;
     intervals := intervals g; toyEls := toyEls g; targetToy := targetToy g;
     collectedNumber := collectedNumber g; turnUsed := turnUsed g;
     remainingTurns := remainingTurns g; maxArmLength := maxArmLength g;
     machineWidth := machineWidth g; machineHeight := machineHeight g;
     horiBtn := horiBtn g; vertBtn := vertBtn g;
     collectionArrow := collectionArrow g; collectionBox := collectionBox g;
     requests := requests g; posted := posted g; calls := calls g |}.

Definition set_timers (tm : gmap positive Timer) (nx : positive)
    (iv : gset positive) (g : Game) : Game :=
  {| heap := heap g; timers := tm; nextTimer := nx;
     intervals := iv; toyEls := toyEls g; targetToy := targetToy g;
     collectedNumber := collectedNumber g; turnUsed := turnUsed g;
     remainingTurns := remainingTurns g; maxArmLength := maxArmLength g;
     machineWidth := machineWidth g; machineHeight := machineHeight g;
     horiBtn := horiBtn g; vertBtn := vertBtn g;
     collectionArrow := collectionArrow g; collectionBox := collectionBox g;
     requests := requests g; posted := posted g; calls := calls g |}.

Definition set_targetToy (v : option positive) (g : Game) : Game :=
  {| heap := heap g; timers := timers g; nextTimer := nextTimer g;
     intervals := intervals g; toyEls := toyEls g; targetToy := v;
     collectedNumber := collectedNumber g; turnUsed := turnUsed g;
     remainingTurns := remainingTurns g; maxArmLength := maxArmLength g;
     machineWidth := machineWidth g; machineHeight := machineHeight g;
     horiBtn := horiBtn g; vertBtn := vertBtn g;
     collectionArrow := collectionArrow g; collectionBox := collectionBox g;
     requests := requests g; posted := posted g; calls := calls g |}.

Definition set_turns (used : bool) (n : Z) (g : Game) : Game :=
  {| heap := heap g; timers := timers g; nextTimer := nextTimer g;
     intervals := intervals g; toyEls := toyEls g; targetToy := targetToy g;
     collectedNumber := collectedNumber g; turnUsed := used;
     remainingTurns := n; maxArmLength := maxArmLength g;
     machineWidth := machineWidth g; machineHeight := machineHeight g;
     horiBtn := horiBtn g; vertBtn := vertBtn g;
     collectionArrow := collectionArrow g; collectionBox := collectionBox g;
     requests := requests g; posted := posted g; calls := calls g |}.

Definition set_buttons (hb vb : Button) (g : Game) : Game :=
  {| heap := heap g; timers := timers g; nextTimer := nextTimer g;
     intervals := intervals g; toyEls := toyEls g; targetToy := targetToy g;
     collectedNumber := collectedNumber g; turnUsed := turnUsed g;
     remainingTurns := remainingTurns g; maxArmLength := maxArmLength g;
     machineWidth := machineWidth g; machineHeight := machineHeight g;
     horiBtn := hb; vertBtn := vb;
     collectionArrow := collectionArrow g; collectionBox := collectionBox g;
     requests := requests g; posted := posted g; calls := calls g |}.

Definition set_collection (n : Z) (arrow : bool) (box reqs : list string)
    (g : Game) : Game :=
  {| heap := heap g; timers := timers g; nextTimer := nextTimer g;
     intervals := intervals g; toyEls := toyEls g; targetToy := targetToy g;
     collectedNumber := n; turnUsed := turnUsed g;
     remainingTurns := remainingTurns g; maxArmLength := maxArmLength g;
     machineWidth := machineWidth g; machineHeight := machineHeight g;
     horiBtn := horiBtn g; vertBtn := vertBtn g;
     collectionArrow := arrow; collectionBox := box;
     requests := reqs; posted := posted g; calls := calls g |}.

Definition set_posted (v : list ParentMessage) (g : Game) : Game :=
  {| heap := heap g; timers := timers g; nextTimer := nextTimer g;
     intervals := intervals g; toyEls := toyEls g; targetToy := targetToy g;
     collectedNumber := collectedNumber g; turnUsed := turnUsed g;
     remainingTurns := remainingTurns g; maxArmLength := maxArmLength g;
     machineWidth := machineWidth g; machineHeight := machineHeight g;
     horiBtn := horiBtn g; vertBtn := vertBtn g;
     collectionArrow := collectionArrow g; collectionBox := collectionBox g;
     requests := requests g; posted := v; calls := calls g |}.

Definition set_calls (v : list Callback) (g : Game) : Game :=
  {| heap := heap g; timers := timers g; nextTimer := nextTimer g;
     intervals := intervals g; toyEls := toyEls g; targetToy := targetToy g;
     collectedNumber := collectedNumber g; turnUsed := turnUsed g;
     remainingTurns := remainingTurns g; maxArmLength := maxArmLength g;
     machineWidth := machineWidth g; machineHeight := machineHeight g;
     horiBtn := horiBtn g; vertBtn := vertBtn g;
     collectionArrow := collectionArrow g; collectionBox := collectionBox g;
     requests := requests g; posted := posted g; calls := v |}.

(** In-place mutation of the object at address [o]. *)
Definition mutate (o : positive) (f : WorldObject -> WorldObject) (g : Game) : Game :=
  set_heap (alter f o (heap g)) g.

(** [obj[moveKey]] and [obj[moveKey] += d]. *)
Definition getKey (k : MoveKey) (o : WorldObject) : Z :=
  match k with KeyX => o_x o | KeyY => o_y o | KeyH => o_h o end.

Definition addKey (k : MoveKey) (d : Z) (o : WorldObject) : WorldObject :=
  match k with
  | KeyX => set_x (o_x o + d) o
  | KeyY => set_y (o_y o + d) o
  | KeyH => set_h (o_h o + d) o
  end.

(** [obj.default[moveKey]]. *)
Definition defaultOf (k : MoveKey) (p : Pose) : Z :=
  match k with KeyX => d_x p | KeyY => d_y p | KeyH => d_h p end.

(** [classList.add] and [classList.remove]. *)
Definition classList_remove (c : string) (l : list string) : list string :=
  filter (fun s => s <> c) l.

Definition classList_add (c : string) (l : list string) : list string :=
  if decide (c ∈ l) then l else l ++ [c].

(** ** Buttons *)

Definition activateBtn (b : Button) : Button :=
  {| b_active := true; b_locked := false |}.

Definition deactivateBtn (b : Button) : Button :=
  {| b_active := false; b_locked := true |}.

(** ** Movement scheduler *)

(** [clearObjInterval]: when the object holds a handle, the browser timer is
    cleared, the handle leaves [g.intervals], and the field is reset. *)
Definition clearObjInterval (o : positive) (g : Game) : Game :=
  match heap g !! o with
  | None => g
  | Some ob =>
    match o_interval ob with
    | None => g
    | Some id =>
      mutate o (set_interval None)
        (set_timers (delete id (timers g)) (nextTimer g) (intervals g ∖ {[id]}) g)
    end
  end.

(** [stopHoriBtnAndActivateVertBtn]: the joint's handle is dropped without
    clearing any timer. *)
Definition stopHoriBtnAndActivateVertBtn (g : Game) : Game :=
  set_buttons (deactivateBtn (horiBtn g)) (activateBtn (vertBtn g))
    (mutate armJoint (set_interval None) g).

(** [activateHoriBtn]: refuses when no turn is left. *)
Definition activateHoriBtn (g : Game) : Game :=
  if remainingTurns g <=? 0 then g
  else
    let g1 := set_turns false (remainingTurns g) g in
    let g2 := set_buttons (activateBtn (horiBtn g1)) (vertBtn g1) g1 in
    fold_left (fun acc c => clearObjInterval c acc) [vertRail; armJoint; arm] g2.

(** The options object of [moveObject]; an absent field is [None]. *)
Record MoveOpts := {
  moveKey : MoveKey;
  target : option Z;
  moveTime : option Z;
  next : option Callback;
}.

(** [moveTime || 100]. *)
Definition period (mt : option Z) : Z :=
  match mt with
  | None => 100
  | Some t => if t =? 0 then 100 else t
  end.

(** The [else] branch of [moveObject], for an object [ob] read at [o] that
    holds no handle: a fresh interval timer is armed and registered. *)
Definition schedule (o : positive) (ob : WorldObject) (opts : MoveOpts)
    (g : Game) : Game :=
  let moveTarget :=
    match target opts with
    | Some t => t
    | None => defaultOf (moveKey opts) (o_default ob)
    end in
  let id := nextTimer g in
  let tm := {| t_obj := o; t_key := moveKey opts; t_target := moveTarget;
               t_next := next opts; t_period := period (moveTime opts) |} in
  mutate o (set_interval (Some id))
    (set_timers (<[id := tm]> (timers g)) (Pos.succ id) ({[id]} ∪ intervals g) g).

(** The options of the rail's leg of the initial animation. *)
Definition initRailOpts (restY : Z) : MoveOpts :=
  {| moveKey := KeyX; target := Some (pt_x MACHINE_BUFFER);
     moveTime := Some 50; next := Some (InitDone restY) |}.

(** [Object.assign (obj.default, { .. })]. *)
Definition assignDefault (x : option Z) (y : option Z) (o : WorldObject) : WorldObject :=
  set_default
    {| d_x := match x with Some v => v | None => d_x (o_default o) end;
       d_y := match y with Some v => v | None => d_y (o_default o) end;
       d_w := d_w (o_default o); d_h := d_h (o_default o) |} o.

(** What each callback does.  [InitRail] is [resumeMove (vertRail, ..)]:
    the handle is reset first, so the move it delegates to always arms a
    timer (see [runCallback_InitRail] below). *)
Definition runCallback (k : Callback) (g : Game) : Game :=
  match k with
  | StopHoriBtnAndActivateVertBtn => stopHoriBtnAndActivateVertBtn g
  | InitRail restY =>
    let g1 := mutate vertRail (set_interval None) g in
    match heap g1 !! vertRail with
    | None => g1
    | Some ob => schedule vertRail ob (initRailOpts restY) g1
    end
  | InitDone restY =>
    activateHoriBtn
      (mutate vertRail (assignDefault (Some (pt_x MACHINE_BUFFER)) None)
         (mutate armJoint (assignDefault (Some (pt_x MACHINE_BUFFER)) (Some restY)) g))
  | Observer _ => g
  end.

(** [if (next) next()], recording the call. *)
Definition callNext (nxt : option Callback) (g : Game) : Game :=
  match nxt with
  | None => g
  | Some k => runCallback k (set_calls (k :: calls g) g)
  end.

(** A passenger follows on the driver's axis, except that a change of the
    driver's [h] goes to the passenger's [y]. *)
Definition passengerKey (k : MoveKey) : MoveKey :=
  match k with KeyH => KeyY | _ => k end.

(** [obj.moveWith.forEach (m => { if (!m) return; m[...] += increment })],
    on whole numbers; [Doubles.tick] is the same step on doubles, where the
    additions to a fractional passenger round. *)
Definition propagate (k : MoveKey) (d : Z) (ms : list (option positive))
    (g : Game) : Game :=
  fold_left
    (fun acc m =>
       match m with
       | None => acc
       | Some a => mutate a (addKey (passengerKey k) d) acc
       end)
    ms g.

(** The three constants the interval closure computes from the current
    value and the target. *)
Definition distance (cur moveTarget : Z) : Z :=
  if Z.abs (cur - moveTarget) <? 10 then Z.abs (cur - moveTarget) else 10.

Definition increment (cur moveTarget : Z) : Z :=
  if cur >? moveTarget then - distance cur moveTarget else distance cur moveTarget.

Definition shouldMove (cur moveTarget : Z) : bool :=
  if increment cur moveTarget >? 0 then cur <? moveTarget else cur >? moveTarget.

(** The body of the interval closure of [moveObject], with the variables it
    captures as arguments. *)
Definition tick (o : positive) (k : MoveKey) (moveTarget : Z)
    (nxt : option Callback) (g : Game) : Game :=
  match heap g !! o with
  | None => g
  | Some ob =>
    let cur := getKey k ob in
    if shouldMove cur moveTarget
    then propagate k (increment cur moveTarget) (o_moveWith ob)
           (mutate o (addKey k (increment cur moveTarget)) g)
    else callNext nxt (clearObjInterval o g)
  end.

Definition moveObject (o : positive) (opts : MoveOpts) (g : Game) : Game :=
  match heap g !! o with
  | None => g
  | Some ob =>
    match o_interval ob with
    | Some _ => callNext (next opts) (clearObjInterval o g)
    | None => schedule o ob opts g
    end
  end.

Definition resumeMove (o : positive) (opts : MoveOpts) (g : Game) : Game :=
  moveObject o opts (mutate o (set_interval None) g).

(** The browser runs the closure of a live timer; a cleared handle never
    fires. *)
Definition fire (id : positive) (g : Game) : Game :=
  match timers g !! id with
  | None => g
  | Some t => tick (t_obj t) (t_key t) (t_target t) (t_next t) g
  end.

Fixpoint fireN (n : nat) (id : positive) (g : Game) : Game :=
  match n with
  | O => g
  | S n' => fireN n' id (fire id g)
  end.

(** ** The tick in doubles *)

(** The arithmetic of the interval closure of [moveObject] on binary64
    floats, as the component runs it.  A state is the driven attribute of
    the moving object together with the passenger attribute of each
    attached object (one entry per attached object, each sitting in one
    slot and none of them the mover itself).  [centre] is the halving of
    [collectToy]. *)
Module Doubles.

Definition distance (cur moveTarget : float) : float :=
  if (abs (cur - moveTarget) <? 10)%float
  then abs (cur - moveTarget)%float
  else 10%float.

Definition increment (cur moveTarget : float) : float :=
  if (moveTarget <? cur)%float
  then (- distance cur moveTarget)%float
  else distance cur moveTarget.

Definition shouldMove (cur moveTarget : float) : bool :=
  if (0 <? increment cur moveTarget)%float
  then (cur <? moveTarget)%float
  else (moveTarget <? cur)%float.

Definition tick (moveTarget : float) (st : float * list float)
  : float * list float :=
  if shouldMove (fst st) moveTarget
  then ((fst st + increment (fst st) moveTarget)%float,
        map (fun m => (m + increment (fst st) moveTarget)%float) (snd st))
  else st.

Fixpoint tickN (n : nat) (moveTarget : float) (st : float * list float)
  : float * list float :=
  match n with
  | O => st
  | S n' => tickN n' moveTarget (tick moveTarget st)
  end.

(** The signed steps the first [n] ticks apply to the driven attribute. *)
Fixpoint steps (n : nat) (cur moveTarget : float) : list float :=
  match n with
  | O => []
  | S n' =>
    if shouldMove cur moveTarget
    then increment cur moveTarget
           :: steps n' (cur + increment cur moveTarget)%float moveTarget
    else []
  end.

(** [x] after the steps of [l] have been added to it, one at a time. *)
Definition addAll (l : list float) (x : float) : float :=
  fold_left (fun acc d => (acc + d)%float) l x.

(** [box / 2 - size / 2]. *)
Definition centre (box size : float) : float := (box / 2 - size / 2)%float.

(** The exact value of a finite double, in units of 2^-1074. *)
Definition units (x : float) : Z :=
  match Prim2SF x with
  | SpecFloat.S754_finite s m e =>
    (if s then Z.neg m else Z.pos m) * 2 ^ (e + 1074)
  | _ => 0
  end.

End Doubles.

(** ** Angle of a grabbed toy *)

(** [adjustAngle]: [%] is the truncating remainder. *)
Definition adjustAngle (angle : Z) : Z :=
  let a := Z.rem angle 360 in
  if a <? 0 then a + 360 else a.

(** The value [setRotateAngle] stores, from the integer
    [radToDeg(Math.atan2(..)) - 90]; [Math.round] is the identity on it. *)
Definition rotateAngle (angle : Z) : Z :=
  let adjusted := adjustAngle angle in
  if adjusted <? 180 then adjusted * -1 else 360 - adjusted.

(** [setRotateAngle], given [deg = radToDeg(Math.atan2(..))]. *)
Definition setRotateAngle (deg : Z) (toy : positive) (g : Game) : Game :=
  mutate toy (set_angle (rotateAngle (deg - 90))) g.

(** ** Targeting *)

(** [doOverlap (a, b)]: [a] is the toy, [b] the claw. *)
Definition doOverlap (a : WorldObject) (b : Point) : bool :=
  (pt_x b >? o_x a) && (pt_x b <? o_x a + o_w a) &&
  (pt_y b >? o_y a) && (pt_y b <? o_y a + o_h a).

(** [sort ((a, b) => b.index - a.index)]: descending by index; the sort is
    stable, so equal indices keep their order. *)
Fixpoint insertByIndex (t : positive * WorldObject)
    (l : list (positive * WorldObject)) : list (positive * WorldObject) :=
  match l with
  | [] => [t]
  | u :: l' =>
    if o_index (snd u) - o_index (snd t) >? 0
    then u :: insertByIndex t l'
    else t :: u :: l'
  end.

Definition sortByIndexDesc (l : list (positive * WorldObject))
  : list (positive * WorldObject) :=
  foldr insertByIndex [] l.

(** The claw point of [getClosestToy]. *)
Definition clawOf (g : Game) (joint : WorldObject) : Point :=
  {| pt_x := o_x joint + 7;
     pt_y := o_y joint + maxArmLength g + pt_y MACHINE_BUFFER + 7 |}.

(** [g.toyEls] with each toy read from the store. *)
Definition toysOf (g : Game) : list (positive * WorldObject) :=
  omap (fun a => (fun ob => (a, ob)) <$> heap g !! a) (toyEls g).

Definition overlappedToys (g : Game) (claw : Point) : list (positive * WorldObject) :=
  filter (fun t => doOverlap (snd t) claw = true) (toysOf g).

Definition getClosestToy (g : Game) : Game :=
  match heap g !! armJoint with
  | None => g
  | Some joint =>
    let claw := clawOf g joint in
    match sortByIndexDesc (overlappedToys g claw) with
    | [] => g
    | (toy, ob) :: _ =>
      set_targetToy (Some toy)
        (mutate toy (set_clawPos (Some claw))
           (mutate toy
              (set_transformOrigin
                 (OriginAt {| pt_x := pt_x claw - o_x ob; pt_y := pt_y claw - o_y ob |}))
              g))
    end
  end.

(** ** Grab and drop *)

(** [arr[0] = v]: an empty array grows to one slot. *)
Definition setFirst {A} (v : A) (l : list A) : list A :=
  match l with
  | [] => [v]
  | _ :: l' => v :: l'
  end.

Definition chain : list positive := [vertRail; armJoint; arm].

(** [[vertRail, armJoint, arm].forEach (obj => (obj.moveWith[0] = v))]. *)
Definition setPassenger (v : option positive) (g : Game) : Game :=
  fold_left
    (fun acc c => mutate c (fun ob => set_moveWith (setFirst v (o_moveWith ob)) ob) acc)
    chain g.

Definition addClass (c : string) (o : positive) (g : Game) : Game :=
  mutate o (fun ob => set_classes (classList_add c (o_classes ob)) ob) g.

Definition removeClass (c : string) (o : positive) (g : Game) : Game :=
  mutate o (fun ob => set_classes (classList_remove c (o_classes ob)) ob) g.

(** [grabToy]; [deg] is [radToDeg (Math.atan2 (..))] for the target. *)
Definition grabToy (deg : Z) (g : Game) : Game :=
  match targetToy g with
  | Some toy => addClass "grabbed" toy (setRotateAngle deg toy (setPassenger (Some toy) g))
  | None => addClass "missed" arm g
  end.

(** [dropToy], up to the point where it arms its [setTimeout]. *)
Definition dropToy (g : Game) : Game :=
  let g1 := addClass "open" arm g in
  match targetToy g1 with
  | None => g1
  | Some toy =>
    match heap g1 !! toy with
    | None => g1
    | Some ob =>
      let g2 := mutate toy (set_z 3) g1 in
      let g3 := moveObject toy
                  {| moveKey := KeyY; target := Some (machineHeight g2 - o_h ob - 30);
                     moveTime := Some 50; next := None |} g2 in
      setPassenger None g3
    end
  end.

(** The function [dropToy] hands to [setTimeout].  The turn count is a
    double that a message may have set to any value, so [-= 1] rounds. *)
Definition dropToyTimeout (g : Game) : Game :=
  let g1 := removeClass "open" arm g in
  let g2 := set_turns true (subDouble (remainingTurns g1) 1) g1 in
  let g3 := set_posted (TURN_COMPLETE :: posted g2) g2 in
  let g4 := activateHoriBtn g3 in
  match targetToy g4 with
  | None => g4
  | Some toy =>
    set_targetToy None
      (set_collection (collectedNumber g4) true (collectionBox g4) (requests g4)
         (addClass "selected" toy g4))
  end.

(** ** Button handlers *)

Definition onHoriBtnDown (g : Game) : Game :=
  let g1 := removeClass "missed" arm g in
  match heap g1 !! armJoint with
  | None => g1
  | Some joint =>
    moveObject vertRail
      {| moveKey := KeyX;
         target := Some (machineWidth g1 - o_w joint - pt_x MACHINE_BUFFER);
         moveTime := None;
         next := Some StopHoriBtnAndActivateVertBtn |} g1
  end.

Definition onHoriBtnUp (g : Game) : Game :=
  stopHoriBtnAndActivateVertBtn (clearObjInterval vertRail g).

Definition onVertBtnDown (g : Game) : Game :=
  if b_locked (vertBtn g) then g
  else moveObject armJoint
         {| moveKey := KeyY; target := Some (pt_y MACHINE_BUFFER);
            moveTime := None; next := None |} g.

(** [onVertBtnUp], up to the point where it arms its [setTimeout]. *)
Definition onVertBtnUp (g : Game) : Game :=
  let g1 := clearObjInterval armJoint g in
  let g2 := set_buttons (horiBtn g1) (deactivateBtn (vertBtn g1)) g1 in
  getClosestToy g2.

(** The [message] listener. *)
Definition onMessage (turns : Z) (g : Game) : Game :=
  set_turns (turnUsed g) turns g.

(** ** Toys *)

(** [collectToy]: the click listener of a toy.  The display slot
    [(cx, cy)] is [g.machineWidth / 2 - toy.w / 2] and
    [g.machineHeight / 2 - toy.h / 2] as the doubles give them; a half of a
    whole number need not be whole (a toy 51 wide in a machine 300 wide goes
    to 124.5), so the slot is taken as given, like the position [createToy]
    computes.  The request is recorded when it is sent. *)
Definition collectToy (toy : positive) (cx cy : Z) (g : Game) : Game :=
  match heap g !! toy with
  | None => g
  | Some ob =>
    let g1 := removeClass "selected" toy g in
    let g2 := mutate toy (set_x cx) g1 in
    let g3 := mutate toy (set_y cy) g2 in
    let g4 := mutate toy (set_z 7) g3 in
    let g5 := mutate toy (set_transformOrigin (OriginNamed "center")) g4 in
    let g6 := addClass "display" toy g5 in
    let n := collectedNumber g6 + 1 in
    let wrapper :=
      if n >? 6 then "toy-wrapper squeeze-in"%string else "toy-wrapper "%string in
    set_collection n (collectionArrow g6) (collectionBox g6 ++ [wrapper])
      (o_toyType ob :: requests g6) g6
  end.

(** The [then] of the collect request: when the request succeeds, the
    parent window is told (when it fails, the [catch] only logs). *)
Definition collectResolved (toyId : string) (g : Game) : Game :=
  set_posted (TOY_COLLECTED toyId :: posted g) g.

(** The object [createToy] builds for grid cell [index], placed at [(x, y)]
    (the grid position with its random jitter) with the catalogue size. *)
Definition newToy (toyType : string) (index x y w h : Z) : WorldObject :=
  {| o_x := x; o_y := y; o_z := 0; o_w := w; o_h := h; o_angle := 0;
     o_transformOrigin := OriginAt {| pt_x := 0; pt_y := 0 |};
     o_interval := None;
     o_default := {| d_x := x; d_y := y; d_w := w; d_h := h |};
     o_moveWith := []; o_toyType := toyType; o_index := index;
     o_clawPos := None; o_classes := ["toy"; "pix"; toyType]%string |}.

(** [createToy]: the new object gets a fresh address and joins [g.toyEls]. *)
Definition createToy (toyType : string) (index x y w h : Z) (g : Game) : Game :=
  let a := fresh (dom (heap g)) in
  let g1 := set_heap (<[a := newToy toyType index x y w h]> (heap g)) g in
  {| heap := heap g1; timers := timers g1; nextTimer := nextTimer g1;
     intervals := intervals g1; toyEls := toyEls g1 ++ [a]; targetToy := targetToy g1;
     collectedNumber := collectedNumber g1; turnUsed := turnUsed g1;
     remainingTurns := remainingTurns g1; maxArmLength := maxArmLength g1;
     machineWidth := machineWidth g1; machineHeight := machineHeight g1;
     horiBtn := horiBtn g1; vertBtn := vertBtn g1;
     collectionArrow := collectionArrow g1; collectionBox := collectionBox g1;
     requests := requests g1; posted := posted g1; calls := calls g1 |}.

(** ** Mount *)

(** What the mount effect measures from the page. *)
Record Layout := {
  machine_width : Z; machine_height : Z; machine_top : Z;
  machineTop_height : Z;
  machineBottom_height : Z; machineBottom_top : Z;
  armJoint_w : Z; armJoint_h : Z;
  vertRail_w : Z; vertRail_h : Z;
  arm_w : Z; arm_h : Z;
}.

(** [createWorldObject (el)] for an element of size [w] by [h]. *)
Definition createWorldObject (w h : Z) : WorldObject :=
  {| o_x := 0; o_y := 0; o_z := 0; o_w := w; o_h := h; o_angle := 0;
     o_transformOrigin := OriginAt {| pt_x := 0; pt_y := 0 |};
     o_interval := None;
     o_default := {| d_x := 0; d_y := 0; d_w := w; d_h := h |};
     o_moveWith := []; o_toyType := ""; o_index := 0;
     o_clawPos := None; o_classes := [] |}.

(** The game right after the parts are created and the rail's list is set,
    before the initial animation starts. *)
Definition created (L : Layout) : Game :=
  {| heap :=
       <[arm := createWorldObject (arm_w L) (arm_h L)]>
         (<[vertRail := set_moveWith [None; Some armJoint]
                          (createWorldObject (vertRail_w L) (vertRail_h L))]>
            (<[armJoint := createWorldObject (armJoint_w L) (armJoint_h L)]> ∅));
     timers := ∅; nextTimer := 1%positive; intervals := ∅;
     toyEls := []; targetToy := None; collectedNumber := 0;
     turnUsed := false; remainingTurns := 0;
     maxArmLength := machineBottom_top L - machine_top L - pt_y MACHINE_BUFFER;
     machineWidth := machine_width L; machineHeight := machine_height L;
     horiBtn := {| b_active := false; b_locked := true |};
     vertBtn := {| b_active := false; b_locked := true |};
     collectionArrow := false; collectionBox := [];
     requests := []; posted := []; calls := [] |}.

(** The mount effect: the initial animation is started on the joint. *)
Definition mount (L : Layout) : Game :=
  let restY := machineTop_height L - pt_y MACHINE_BUFFER in
  moveObject armJoint
    {| moveKey := KeyY; target := Some restY; moveTime := Some 50;
       next := Some (InitRail restY) |}
    (created L).

(** ** The rule of the specification for the angle *)

(** The rule as the specification words it, on the folded angle: a value
    below 180 is kept, a value from 180 on is taken down by 360. *)
Definition foldRule (angle : Z) : Z :=
  let v := adjustAngle angle in
  if v <? 180 then v else v - 360.

(** ** Observations on the store *)

(** The numeric attributes of a positioned object. *)
Inductive Attr := AttrX | AttrY | AttrZ | AttrW | AttrH | AttrAngle.

Definition attr (a : Attr) (o : WorldObject) : Z :=
  match a with
  | AttrX => o_x o | AttrY => o_y o | AttrZ => o_z o
  | AttrW => o_w o | AttrH => o_h o | AttrAngle => o_angle o
  end.

#[global] Instance Attr_eq_dec : EqDecision Attr.
Proof. solve_decision. Defined.

Definition keyAttr (k : MoveKey) : Attr :=
  match k with KeyX => AttrX | KeyY => AttrY | KeyH => AttrH end.

(** The objects an attached list holds: its non-null entries. *)
Definition held (ms : list (option positive)) : list positive :=
  omap (fun m => m) ms.

(** How many slots of an attached list hold [a]. *)
Definition occurrences (a : positive) (ms : list (option positive)) : nat :=
  length (filter (fun m => m = Some a) ms).

(** The interval closure run [n] times in a row. *)
Fixpoint tickN (n : nat) (o : positive) (k : MoveKey) (moveTarget : Z)
    (nxt : option Callback) (g : Game) : Game :=
  match n with
  | O => g
  | S n' => tickN n' o k moveTarget nxt (tick o k moveTarget nxt g)
  end.

(** The signed step a tick of the closure applies: nothing once the
    attribute stands at the target. *)
Definition stepOf (cur moveTarget : Z) : Z :=
  if decide (cur = moveTarget) then 0 else increment cur moveTarget.

(** By how much a tick on [o], driving [k] by the step [d] with the attached
    list [ms], changes the attribute [q] of the object at [a]: the driver's
    own attribute moves by [d], and the passenger attribute of an object
    moves by [d] for every slot of [ms] that holds it. *)
Definition tickDelta (o : positive) (k : MoveKey) (d : Z)
    (ms : list (option positive)) (a : positive) (q : Attr) : Z :=
  (if decide (a = o /\ q = keyAttr k) then d else 0)
  + (if decide (q = keyAttr (passengerKey k))
     then Z.of_nat (occurrences a ms) * d else 0).

(** How often a callback occurs in the trace. *)
Definition timesCalled (k : Callback) (g : Game) : nat :=
  length (filter (fun c => c = k) (calls g)).

(** ** Preservation through the store *)

(** [f] leaves the projection [prj] of an object alone. *)
Definition keeps {T : Type} (prj : WorldObject -> T)
    (f : WorldObject -> WorldObject) : Prop :=
  forall ob, prj (f ob) = prj ob.

(** Every object's projection [prj] is the same in [g'] as in [g]. *)
Definition agree {T : Type} (prj : WorldObject -> T) (g g' : Game) : Prop :=
  forall a, prj <$> heap g' !! a = prj <$> heap g !! a.

(** A move is in flight on [o]: the object holds the handle [id] of a live
    timer that drives its attribute [k] to [tgt] and then calls [nxt]; the
    attribute stands at [cur], the attached list is [ms], and the trace of
    calls is [c]. *)
Definition Moving (g : Game) (o id : positive) (k : MoveKey) (tgt : Z)
    (nxt : option Callback) (ms : list (option positive)) (cur : Z)
    (c : list Callback) : Prop :=
  (exists ob tm,
     heap g !! o = Some ob /\ getKey k ob = cur /\ o_interval ob = Some id /\
     o_moveWith ob = ms /\
     timers g !! id = Some tm /\
     t_obj tm = o /\ t_key tm = k /\ t_target tm = tgt /\ t_next tm = nxt) /\
  calls g = c /\ (id < nextTimer g)%positive.

(** No move is in flight on [o]: it holds no handle; the attribute [k]
    stands at [cur], the attached list is [ms], the trace of calls is [c]. *)
Definition Idle (g : Game) (o : positive) (k : MoveKey)
    (ms : list (option positive)) (cur : Z) (c : list Callback) : Prop :=
  (exists ob,
     heap g !! o = Some ob /\ getKey k ob = cur /\ o_interval ob = None /\
     o_moveWith ob = ms) /\
  calls g = c.

(** The move on [o] is over: no handle is held, the timer [id] is gone, the
    attribute stands at [cur] and the trace of calls is [c]. *)
Definition Settled (g : Game) (o id : positive) (k : MoveKey) (cur : Z)
    (c : list Callback) : Prop :=
  (exists ob, heap g !! o = Some ob /\ getKey k ob = cur) /\
  timers g !! id = None /\ calls g = c /\ (id < nextTimer g)%positive.

(** ** The session as a transition system *)

(** Everything that can happen to a mounted game: the four button events,
    a timer firing, a click on a toy, a collect request coming back, the
    inbound turn count, a toy being created, and the phases of the grab
    cycle.  The cycle's phases are armed
    by [setTimeout] and by completion callbacks; here each may happen at any
    moment, and so may any [moveObject] or [resumeMove] call, which covers
    every order in which the component runs them. *)
Inductive Event :=
| HoriDown | HoriUp | VertDown | VertUp
| Fire (id : positive)
| Move (o : positive) (opts : MoveOpts)
| Resume (o : positive) (opts : MoveOpts)
| Grab (deg : Z)
| Drop
| DropTimeout
| Click (toy : positive) (cx cy : Z)
| Resolved (toyId : string)
| Message (turns : Z)
| Spawn (toyType : string) (index x y w h : Z).

Definition step (e : Event) (g : Game) : Game :=
  match e with
  | HoriDown => onHoriBtnDown g
  | HoriUp => onHoriBtnUp g
  | VertDown => onVertBtnDown g
  | VertUp => onVertBtnUp g
  | Fire id => fire id g
  | Move o opts => moveObject o opts g
  | Resume o opts => resumeMove o opts g
  | Grab deg => grabToy deg g
  | Drop => dropToy g
  | DropTimeout => dropToyTimeout g
  | Click toy cx cy =>
    if decide (toy ∈ toyEls g) then collectToy toy cx cy g else g
  | Resolved toyId =>
    if decide (toyId ∈ requests g) then collectResolved toyId g else g
  | Message turns => onMessage turns g
  | Spawn toyType index x y w h => createToy toyType index x y w h g
  end.

Inductive reachable : Game -> Prop :=
| reach_mount (L : Layout) : reachable (mount L)
| reach_step (e : Event) (g : Game) : reachable g -> reachable (step e g).

(** What holds of the attached lists at all times: the rail's list has two
    slots, the second of which is the joint; the joint's and the arm's
    lists have at most one slot; no other object has a slot at all. *)
Definition AttachInv (g : Game) : Prop :=
  (exists rail s,
     heap g !! vertRail = Some rail /\ o_moveWith rail = [s; Some armJoint]) /\
  (exists joint,
     heap g !! armJoint = Some joint /\ (length (o_moveWith joint) <= 1)%nat) /\
  (exists a,
     heap g !! arm = Some a /\ (length (o_moveWith a) <= 1)%nat) /\
  (forall t ob,
     t <> vertRail -> t <> armJoint -> t <> arm ->
     heap g !! t = Some ob -> o_moveWith ob = []).

(** ** A concrete machine *)

(** A 300 by 400 machine whose lower cavity starts at 200. *)
Definition demoLayout : Layout :=
  {| machine_width := 300; machine_height := 400; machine_top := 0;
     machineTop_height := 100;
     machineBottom_height := 200; machineBottom_top := 200;
     armJoint_w := 40; armJoint_h := 20;
     vertRail_w := 10; vertRail_h := 100;
     arm_w := 20; arm_h := 30 |}.

(** The mounted machine; no turn has been granted yet. *)
Definition demoGame : Game := mount demoLayout.

(** The same with one toy under the claw's rest position. *)
Definition demoWithToy : Game :=
  createToy "bear" 0 0 200 50 50 demoGame.

(** The same with the toy out of the claw's reach instead. *)
Definition demoFarToy : Game :=
  createToy "bear" 0 200 200 50 50 demoGame.

(** The toy's address. *)
Definition demoToy : positive := 4%positive.

(** ... after the vertical button is released over it. *)
Definition demoTargeted : Game := onVertBtnUp demoWithToy.

(** ... after the claw has closed on the toy. *)
Definition demoGrabbed : Game := grabToy 45 demoTargeted.

(** ... after one turn was granted and the toy was dropped: it is shown as
    selected and waits for the player's click. *)
Definition demoSelected : Game :=
  dropToyTimeout (dropToy (onMessage 1 demoGrabbed)).

(** ** The grid of the toys *)

(** [calcX] is the truncating remainder, [calcY] the floor of the quotient. *)
Definition calcX (i n : Z) : Z := Z.rem i n.
Definition calcY (i n : Z) : Z := i / n.

(** The indices the mount effect hands to [createToy]: 0 to 11 without 8. *)
Definition spawnIndices : list Z :=
  filter (fun i => i <> 8) (seqZ 0 12).

(** ** Teardown *)

(** The cleanup of the mount effect: [clearInterval] on every handle of
    [g.intervals]; the set itself and the objects are left as they are. *)
Definition unmount (g : Game) : Game :=
  set_timers (set_fold (fun id tm => delete id tm) (timers g) (intervals g))
    (nextTimer g) (intervals g) g.

(** ** Whole moves *)

(** The moving branch of the interval closure with the step [d]: the driver
    is stepped, then its attached list is walked. *)
Definition jump (o : positive) (k : MoveKey) (d : Z)
    (ms : list (option positive)) (g : Game) : Game :=
  propagate k d ms (mutate o (addKey k d) g).

(** Where an attribute that started at [cur] stands after [j] moving ticks
    towards [tgt]: ten units nearer per tick, and never past the target. *)
Definition towards (cur tgt : Z) (j : nat) : Z :=
  if cur <=? tgt
  then Z.min tgt (cur + 10 * Z.of_nat j)
  else Z.max tgt (cur - 10 * Z.of_nat j).

(** The number of moving ticks from [cur] to [tgt]: the distance over ten,
    rounded up. *)
Definition ticksNeeded (cur tgt : Z) : nat :=
  Z.to_nat ((Z.abs (tgt - cur) + 9) / 10).

(** The target a move request aims at. *)
Definition targetOf (opts : MoveOpts) (ob : WorldObject) : Z :=
  match target opts with
  | Some t => t
  | None => defaultOf (moveKey opts) (o_default ob)
  end.

(** ** Runs of events *)

Definition run (es : list Event) (g : Game) : Game :=
  fold_left (fun acc e => step e acc) es g.

(** How many drops come to their end in a run. *)
Fixpoint dropsEnded (es : list Event) : nat :=
  match es with
  | [] => 0
  | DropTimeout :: es' => S (dropsEnded es')
  | _ :: es' => dropsEnded es'
  end.

(** How many TURN_COMPLETE messages the parent window has been sent. *)
Definition turnsCompleted (g : Game) : nat :=
  length (filter (fun m => m = TURN_COMPLETE) (posted g)).

(** Whether the turn count comes in from outside during a run. *)
Fixpoint noMessage (es : list Event) : bool :=
  match es with
  | [] => true
  | Message _ :: _ => false
  | _ :: es' => noMessage es'
  end.

(** ** What the session keeps *)

(** The timer bookkeeping: [g.intervals] is exactly the set of live timers,
    every live handle was handed out already, and a handle held by an
    object names a live timer that drives this object. *)
Definition TimersInv (g : Game) : Prop :=
  dom (timers g) = intervals g /\
  (forall id, id ∈ dom (timers g) -> (id < nextTimer g)%positive) /\
  (forall a ob id,
     heap g !! a = Some ob -> o_interval ob = Some id ->
     exists tm, timers g !! id = Some tm /\ t_obj tm = a).

(** The two marks of a button agree: it is active exactly when unlocked. *)
Definition ButtonsInv (g : Game) : Prop :=
  b_active (horiBtn g) = negb (b_locked (horiBtn g)) /\
  b_active (vertBtn g) = negb (b_locked (vertBtn g)).

(** The collection's books: the count, the requests sent and the entries of
    the collection box go together. *)
Definition CollectionInv (g : Game) : Prop :=
  collectedNumber g = Z.of_nat (length (requests g)) /\
  length (collectionBox g) = length (requests g).

(** The toy registry: the three machine parts are in the store, every
    entry of [g.toyEls] is an object of the store other than the parts, no
    toy is registered twice, and the target is a registered toy. *)
Definition RegistryInv (g : Game) : Prop :=
  (forall c, c ∈ chain -> is_Some (heap g !! c)) /\
  (forall t, t ∈ toyEls g -> is_Some (heap g !! t) /\ t ∉ chain) /\
  NoDup (toyEls g) /\
  (forall t, targetToy g = Some t -> t ∈ toyEls g).

(** The timer [id] is live and no object holds its handle. *)
Definition Orphan (id : positive) (tm : Timer) (g : Game) : Prop :=
  timers g !! id = Some tm /\ (id < nextTimer g)%positive /\
  (forall a ob, heap g !! a = Some ob -> o_interval ob <> Some id).

(** The numeric attributes of an object, in the order x, y, z, w, h, angle. *)
Definition numbers (o : WorldObject) : list Z :=
  [o_x o; o_y o; o_z o; o_w o; o_h o; o_angle o].

(** * Properties *)

(** Splits the conjunctions of a goal, and nothing else. *)
Ltac split_all := repeat match goal with |- _ /\ _ => split end.


(** ** Angle normalisation *)

Lemma adjustAngle_mod (angle : Z) : adjustAngle angle = angle mod 360.
Proof.
  unfold adjustAngle.
  pose proof (Z.quot_rem' angle 360) as Hqr.
  assert (Z.abs (Z.rem angle 360) < Z.abs 360) as Hb
    by (apply Z.rem_bound_abs; lia).
  destruct (Z.ltb_spec (Z.rem angle 360) 0) as [Hneg | Hpos].
  - apply (Z.mod_unique angle 360 (Z.quot angle 360 - 1)); lia.
  - apply (Z.mod_unique angle 360 (Z.quot angle 360)); lia.
Qed.

Lemma adjustAngle_range (angle : Z) : 0 <= adjustAngle angle < 360.
Proof. rewrite adjustAngle_mod. apply Z.mod_pos_bound. lia. Qed.

Lemma adjustAngle_periodic (angle k : Z) :
  adjustAngle (angle + 360 * k) = adjustAngle angle.
Proof.
  rewrite !adjustAngle_mod.
  replace (angle + 360 * k) with (angle + k * 360) by lia.
  apply Z_mod_plus_full.
Qed.

(** Claim C3, as the code has it: the rotation stored for a grabbed toy is
    the negation of the rule's result (a folded angle [a] below 180 is
    stored as [-a], one from 180 on as [360 - a]); it lies in (-180, 180]
    and does not change when a multiple of 360 is added to the raw angle. *)
Theorem rotateAngle_negated_rule (angle k deg : Z) (toy : positive) (g : Game) :
  rotateAngle angle = - foldRule angle /\
  -180 < rotateAngle angle <= 180 /\
  rotateAngle (angle + 360 * k) = rotateAngle angle /\
  o_angle <$> heap (setRotateAngle deg toy g) !! toy
    = (fun _ => rotateAngle (deg - 90)) <$> heap g !! toy.
Proof.
  pose proof (adjustAngle_range angle) as Hr.
  repeat split.
  - unfold rotateAngle, foldRule. simpl.
    destruct (adjustAngle angle <? 180); lia.
  - unfold rotateAngle. simpl.
    destruct (Z.ltb_spec (adjustAngle angle) 180); lia.
  - unfold rotateAngle. simpl.
    destruct (Z.ltb_spec (adjustAngle angle) 180); lia.
  - unfold rotateAngle. rewrite adjustAngle_periodic. reflexivity.
  - unfold setRotateAngle, mutate. simpl. rewrite lookup_alter_eq.
    destruct (heap g !! toy); reflexivity.
Qed.

(** Claim C3 as stated fails: a toy seen at 45 degrees has the raw angle
    -45, for which the rule gives -45 and the code stores 45. *)
Lemma rotateAngle_not_rule : rotateAngle (-45) <> foldRule (-45).
Proof. vm_compute. discriminate. Qed.

(** ** Overlap and targeting *)

Lemma doOverlap_spec (toy : WorldObject) (claw : Point) :
  doOverlap toy claw = true <->
  (o_x toy < pt_x claw < o_x toy + o_w toy) /\
  (o_y toy < pt_y claw < o_y toy + o_h toy).
Proof.
  unfold doOverlap. rewrite !andb_true_iff, !Z.gtb_lt, !Z.ltb_lt. lia.
Qed.

(** The head of the sorted array belongs to the array and no element has a
    greater index. *)
Lemma sortByIndexDesc_head (l : list (positive * WorldObject)) :
  match sortByIndexDesc l with
  | [] => l = []
  | top :: _ =>
    top ∈ l /\ forall u, u ∈ l -> o_index (snd u) <= o_index (snd top)
  end.
Proof.
  induction l as [|t l IH]; [reflexivity|].
  change (sortByIndexDesc (t :: l)) with (insertByIndex t (sortByIndexDesc l)).
  destruct (sortByIndexDesc l) as [|top rest].
  - subst l. simpl. split; [left|].
    intros u Hu. apply list_elem_of_singleton in Hu. subst u. lia.
  - destruct IH as [Htop Hmax]. simpl.
    destruct (Z.gtb_spec (o_index (snd top) - o_index (snd t)) 0) as [Hgt | Hle].
    + split; [right; exact Htop|].
      intros u Hu. apply elem_of_cons in Hu as [-> | Hu]; [lia | auto].
    + split; [left|].
      intros u Hu. apply elem_of_cons in Hu as [-> | Hu]; [lia|].
      specialize (Hmax u Hu). lia.
Qed.

Lemma elem_of_toysOf (g : Game) (a : positive) (ob : WorldObject) :
  (a, ob) ∈ toysOf g <-> a ∈ toyEls g /\ heap g !! a = Some ob.
Proof.
  unfold toysOf. rewrite list_elem_of_omap. split.
  - intros (b & Hb & Heq). destruct (heap g !! b) as [ob'|] eqn:Hlk; simpl in Heq;
      [|discriminate].
    injection Heq as <- <-. auto.
  - intros [Hin Hlk]. exists a. split; [assumption|]. rewrite Hlk. reflexivity.
Qed.

Lemma elem_of_overlappedToys (g : Game) (claw : Point) (a : positive)
    (ob : WorldObject) :
  (a, ob) ∈ overlappedToys g claw <->
  a ∈ toyEls g /\ heap g !! a = Some ob /\ doOverlap ob claw = true.
Proof.
  unfold overlappedToys. rewrite list_elem_of_filter, elem_of_toysOf. simpl. tauto.
Qed.

(** Claim C7: a toy overlaps the claw exactly when the claw's point lies
    strictly inside the toy's rectangle on both axes, and when some toy of
    [g.toyEls] overlaps, [getClosestToy] stores as [g.targetToy] an
    overlapping toy whose index no overlapping toy exceeds. *)
Theorem getClosestToy_greatest_index (g : Game) (joint : WorldObject) :
  heap g !! armJoint = Some joint ->
  (forall toy claw,
     doOverlap toy claw = true <->
     (o_x toy < pt_x claw < o_x toy + o_w toy) /\
     (o_y toy < pt_y claw < o_y toy + o_h toy)) /\
  ((exists u ub, u ∈ toyEls g /\ heap g !! u = Some ub /\
                 doOverlap ub (clawOf g joint) = true) ->
   exists t tb,
     targetToy (getClosestToy g) = Some t /\
     t ∈ toyEls g /\ heap g !! t = Some tb /\
     doOverlap tb (clawOf g joint) = true /\
     forall v vb, v ∈ toyEls g -> heap g !! v = Some vb ->
                  doOverlap vb (clawOf g joint) = true ->
                  o_index vb <= o_index tb).
Proof.
  intros Hjoint. split; [intros; apply doOverlap_spec|].
  intros (u & ub & Hu & Hub & Hov).
  unfold getClosestToy. rewrite Hjoint.
  pose proof (sortByIndexDesc_head (overlappedToys g (clawOf g joint))) as Hhead.
  destruct (sortByIndexDesc (overlappedToys g (clawOf g joint)))
    as [|[t tb] rest].
  - assert ((u, ub) ∈ overlappedToys g (clawOf g joint)) as Hin
      by (apply elem_of_overlappedToys; auto).
    rewrite Hhead in Hin. inversion Hin.
  - destruct Hhead as [Htop Hmax].
    apply elem_of_overlappedToys in Htop as (Ht & Htb & Htov).
    exists t, tb. repeat split; try assumption.
    intros v vb Hv Hvb Hvov.
    apply (Hmax (v, vb)). apply elem_of_overlappedToys. auto.
Qed.

(** On the demo machine the one toy under the claw becomes the target. *)
Lemma getClosestToy_greatest_index_witness :
  exists t tb,
    targetToy (getClosestToy demoWithToy) = Some t /\
    t ∈ toyEls demoWithToy /\ heap demoWithToy !! t = Some tb /\
    doOverlap tb {| pt_x := 7; pt_y := 207 |} = true /\
    forall v vb, v ∈ toyEls demoWithToy -> heap demoWithToy !! v = Some vb ->
                 doOverlap vb {| pt_x := 7; pt_y := 207 |} = true ->
                 o_index vb <= o_index tb.
Proof.
  apply (proj2 (getClosestToy_greatest_index demoWithToy
                  (set_interval (Some 1%positive) (createWorldObject 40 20))
                  ltac:(vm_compute; reflexivity))).
  exists demoToy, (newToy "bear" 0 0 200 50 50).
  split; [vm_compute; left | split; vm_compute; reflexivity].
Defined.

(** ** The store under mutation *)

(** Case analysis on the lookup a [match] of the goal scrutinises. *)
Ltac case_lookup :=
  match goal with
  | |- context [match ?m !! ?a with _ => _ end] => destruct (m !! a) eqn:?
  end.

Lemma heap_mutate_eq (o : positive) (f : WorldObject -> WorldObject) (g : Game) :
  heap (mutate o f g) !! o = f <$> heap g !! o.
Proof. unfold mutate. simpl. apply lookup_alter_eq. Qed.

Lemma heap_mutate_ne (o a : positive) (f : WorldObject -> WorldObject) (g : Game) :
  o <> a -> heap (mutate o f g) !! a = heap g !! a.
Proof. intros Hne. unfold mutate. simpl. apply lookup_alter_ne. exact Hne. Qed.

Section Preserved.
Context {T : Type} (prj : WorldObject -> T).

Lemma agree_refl (g : Game) : agree prj g g.
Proof. intros a. reflexivity. Qed.

Lemma agree_trans (g1 g2 g3 : Game) :
  agree prj g1 g2 -> agree prj g2 g3 -> agree prj g1 g3.
Proof. intros H12 H23 a. rewrite H23. apply H12. Qed.

Lemma agree_heap (g g' : Game) : heap g' = heap g -> agree prj g g'.
Proof. intros Heq a. rewrite Heq. reflexivity. Qed.

Lemma agree_mutate (o : positive) (f : WorldObject -> WorldObject) (g : Game) :
  keeps prj f -> agree prj g (mutate o f g).
Proof.
  intros Hk a. destruct (decide (o = a)) as [<- | Hne].
  - rewrite heap_mutate_eq. destruct (heap g !! o); simpl; [|reflexivity].
    f_equal. apply Hk.
  - rewrite heap_mutate_ne by exact Hne. reflexivity.
Qed.

(** Bookkeeping: whatever the handle and the rest pose do not enter into
    survives the scheduler's own writes. *)
Hypothesis keeps_interval : forall v, keeps prj (set_interval v).
Hypothesis keeps_default : forall v, keeps prj (set_default v).

Lemma agree_clearObjInterval (o : positive) (g : Game) :
  agree prj g (clearObjInterval o g).
Proof.
  unfold clearObjInterval.
  destruct (heap g !! o) as [ob|]; [|apply agree_refl].
  destruct (o_interval ob) as [id|]; [|apply agree_refl].
  eapply agree_trans; [|apply agree_mutate, keeps_interval].
  apply agree_heap. reflexivity.
Qed.

Lemma agree_schedule (o : positive) (ob : WorldObject) (opts : MoveOpts)
    (g : Game) :
  agree prj g (schedule o ob opts g).
Proof.
  unfold schedule.
  eapply agree_trans; [|apply agree_mutate, keeps_interval].
  apply agree_heap. reflexivity.
Qed.

Lemma agree_stopHoriBtnAndActivateVertBtn (g : Game) :
  agree prj g (stopHoriBtnAndActivateVertBtn g).
Proof.
  unfold stopHoriBtnAndActivateVertBtn.
  eapply agree_trans; [apply agree_mutate, (keeps_interval None)|].
  apply agree_heap. reflexivity.
Qed.

Lemma agree_activateHoriBtn (g : Game) : agree prj g (activateHoriBtn g).
Proof.
  unfold activateHoriBtn.
  destruct (remainingTurns g <=? 0); [apply agree_refl|]. simpl.
  repeat (eapply agree_trans; [|apply agree_clearObjInterval]).
  apply agree_heap. reflexivity.
Qed.

Lemma agree_runCallback (k : Callback) (g : Game) :
  agree prj g (runCallback k g).
Proof.
  destruct k as [| restY | restY | n]; simpl.
  - apply agree_stopHoriBtnAndActivateVertBtn.
  - eapply agree_trans; [apply agree_mutate, (keeps_interval None)|].
    case_lookup; [apply agree_schedule | apply agree_refl].
  - eapply agree_trans; [|apply agree_activateHoriBtn].
    eapply agree_trans; apply agree_mutate; intros ob; apply keeps_default.
  - apply agree_refl.
Qed.

Lemma agree_callNext (nxt : option Callback) (g : Game) :
  agree prj g (callNext nxt g).
Proof.
  destruct nxt as [k|]; simpl; [|apply agree_refl].
  eapply agree_trans; [|apply agree_runCallback].
  apply agree_heap. reflexivity.
Qed.

Lemma agree_moveObject (o : positive) (opts : MoveOpts) (g : Game) :
  agree prj g (moveObject o opts g).
Proof.
  unfold moveObject.
  destruct (heap g !! o) as [ob|]; [|apply agree_refl].
  destruct (o_interval ob).
  - eapply agree_trans; [apply agree_clearObjInterval | apply agree_callNext].
  - apply agree_schedule.
Qed.

Lemma agree_resumeMove (o : positive) (opts : MoveOpts) (g : Game) :
  agree prj g (resumeMove o opts g).
Proof.
  unfold resumeMove.
  eapply agree_trans; [apply agree_mutate, (keeps_interval None)|].
  apply agree_moveObject.
Qed.
End Preserved.

Lemma keeps_attr_interval (q : Attr) (v : option positive) :
  keeps (attr q) (set_interval v).
Proof. intros ob. destruct q; reflexivity. Qed.

Lemma keeps_attr_default (q : Attr) (v : Pose) : keeps (attr q) (set_default v).
Proof. intros ob. destruct q; reflexivity. Qed.

Lemma keeps_moveWith_interval (v : option positive) :
  keeps o_moveWith (set_interval v).
Proof. intros ob. reflexivity. Qed.

Lemma keeps_moveWith_default (v : Pose) : keeps o_moveWith (set_default v).
Proof. intros ob. reflexivity. Qed.

Create HintDb claw.

#[local] Hint Resolve keeps_attr_interval keeps_attr_default
  keeps_moveWith_interval keeps_moveWith_default : claw.

(** ** The trace and the timer table under the scheduler *)

Lemma calls_mutate (o : positive) (f : WorldObject -> WorldObject) (g : Game) :
  calls (mutate o f g) = calls g.
Proof. reflexivity. Qed.

Lemma calls_clearObjInterval (o : positive) (g : Game) :
  calls (clearObjInterval o g) = calls g.
Proof.
  unfold clearObjInterval.
  destruct (heap g !! o) as [ob|]; [|reflexivity].
  destruct (o_interval ob); reflexivity.
Qed.

Lemma calls_activateHoriBtn (g : Game) : calls (activateHoriBtn g) = calls g.
Proof.
  unfold activateHoriBtn. destruct (remainingTurns g <=? 0); [reflexivity|].
  simpl. rewrite !calls_clearObjInterval. reflexivity.
Qed.

Lemma calls_runCallback (k : Callback) (g : Game) :
  calls (runCallback k g) = calls g.
Proof.
  destruct k as [| restY | restY | n]; simpl; try reflexivity.
  - case_lookup; reflexivity.
  - rewrite calls_activateHoriBtn. reflexivity.
Qed.

Lemma calls_callNext (nxt : option Callback) (g : Game) :
  calls (callNext nxt g)
  = match nxt with Some k => k :: calls g | None => calls g end.
Proof.
  destruct nxt as [k|]; simpl; [|reflexivity].
  rewrite calls_runCallback. reflexivity.
Qed.

Lemma nextTimer_clearObjInterval (o : positive) (g : Game) :
  nextTimer (clearObjInterval o g) = nextTimer g.
Proof.
  unfold clearObjInterval.
  destruct (heap g !! o) as [ob|]; [|reflexivity].
  destruct (o_interval ob); reflexivity.
Qed.

Lemma timers_clearObjInterval_None (o id : positive) (g : Game) :
  timers g !! id = None -> timers (clearObjInterval o g) !! id = None.
Proof.
  intros Hdead. unfold clearObjInterval.
  destruct (heap g !! o) as [ob|]; [|exact Hdead].
  destruct (o_interval ob) as [id'|]; [|exact Hdead].
  simpl. apply lookup_delete_None. right. exact Hdead.
Qed.

Lemma nextTimer_activateHoriBtn (g : Game) :
  nextTimer (activateHoriBtn g) = nextTimer g.
Proof.
  unfold activateHoriBtn. destruct (remainingTurns g <=? 0); [reflexivity|].
  simpl. rewrite !nextTimer_clearObjInterval. reflexivity.
Qed.

Lemma timers_activateHoriBtn_None (id : positive) (g : Game) :
  timers g !! id = None -> timers (activateHoriBtn g) !! id = None.
Proof.
  intros Hdead. unfold activateHoriBtn.
  destruct (remainingTurns g <=? 0); [exact Hdead|]. simpl.
  do 3 apply timers_clearObjInterval_None. exact Hdead.
Qed.

(** A callback arms timers under fresh handles only and never lowers the
    handle counter. *)
Lemma runCallback_dead (k : Callback) (id : positive) (g : Game) :
  timers g !! id = None -> (id < nextTimer g)%positive ->
  timers (runCallback k g) !! id = None /\
  (id < nextTimer (runCallback k g))%positive.
Proof.
  intros Hdead Hlt.
  destruct k as [| restY | restY | n]; simpl; auto.
  - case_lookup; simpl; [|auto].
    split; [|lia].
    rewrite lookup_insert_ne by lia. exact Hdead.
  - rewrite nextTimer_activateHoriBtn. split; [|exact Hlt].
    apply timers_activateHoriBtn_None. exact Hdead.
Qed.

Lemma fire_dead (id : positive) (g : Game) :
  timers g !! id = None -> fire id g = g.
Proof. intros Hdead. unfold fire. rewrite Hdead. reflexivity. Qed.

Lemma fireN_dead (n : nat) (id : positive) (g : Game) :
  timers g !! id = None -> fireN n id g = g.
Proof.
  intros Hdead. induction n as [|n IH]; [reflexivity|].
  simpl. rewrite fire_dead by exact Hdead. exact IH.
Qed.

Lemma fireN_add (m n : nat) (id : positive) (g : Game) :
  fireN (m + n) id g = fireN n id (fireN m id g).
Proof.
  revert g. induction m as [|m IH]; intros g; [reflexivity|].
  simpl. apply IH.
Qed.

(** ** A second move on a moving object *)

Lemma clearObjInterval_busy (g : Game) (o id : positive) (ob : WorldObject) :
  heap g !! o = Some ob -> o_interval ob = Some id ->
  clearObjInterval o g
  = mutate o (set_interval None)
      (set_timers (delete id (timers g)) (nextTimer g) (intervals g ∖ {[id]}) g).
Proof. intros Hob Hid. unfold clearObjInterval. rewrite Hob, Hid. reflexivity. Qed.

Lemma timesCalled_cons (k k0 : Callback) (g : Game) (c : list Callback) :
  calls g = k :: c ->
  timesCalled k0 g
  = ((if decide (k = k0) then 1 else 0) + length (filter (fun x => x = k0) c))%nat.
Proof.
  intros Hc. unfold timesCalled. rewrite Hc.
  destruct (decide (k = k0)) as [Heq | Hne].
  - rewrite filter_cons_True by exact Heq. reflexivity.
  - rewrite filter_cons_False by exact Hne. reflexivity.
Qed.

(** Claim C5: a move requested on an object that holds a live timer cancels
    that timer (it leaves the timer table and [g.intervals], the handle is
    reset), changes no attribute of any object, calls the [next] of the new
    request if there is one and does nothing more if there is none; the
    trace gains that one call at most, so the callback of the move in
    flight is not called, and its timer stays dead. *)
Theorem moveObject_while_moving (g : Game) (o id : positive) (ob : WorldObject)
    (opts : MoveOpts) :
  heap g !! o = Some ob -> o_interval ob = Some id ->
  timers (clearObjInterval o g) !! id = None /\
  (id ∉ intervals (clearObjInterval o g)) /\
  heap (clearObjInterval o g) !! o = Some (set_interval None ob) /\
  moveObject o opts g = callNext (next opts) (clearObjInterval o g) /\
  (next opts = None -> moveObject o opts g = clearObjInterval o g) /\
  (forall q, agree (attr q) g (moveObject o opts g)) /\
  calls (moveObject o opts g)
    = (match next opts with Some k => k :: calls g | None => calls g end) /\
  (forall k0, next opts <> Some k0 ->
     timesCalled k0 (moveObject o opts g) = timesCalled k0 g) /\
  ((id < nextTimer g)%positive -> timers (moveObject o opts g) !! id = None).
Proof.
  intros Hob Hid.
  assert (moveObject o opts g = callNext (next opts) (clearObjInterval o g)) as Hmove
    by (unfold moveObject; rewrite Hob, Hid; reflexivity).
  assert (timers (clearObjInterval o g) !! id = None) as Hdead
    by (rewrite (clearObjInterval_busy g o id ob Hob Hid); simpl;
        apply lookup_delete_eq).
  assert (calls (moveObject o opts g)
          = match next opts with Some k => k :: calls g | None => calls g end) as Hcalls
    by (rewrite Hmove, calls_callNext, calls_clearObjInterval; reflexivity).
  repeat split.
  - exact Hdead.
  - rewrite (clearObjInterval_busy g o id ob Hob Hid). simpl.
    apply not_elem_of_difference. right. apply elem_of_singleton. reflexivity.
  - rewrite (clearObjInterval_busy g o id ob Hob Hid), heap_mutate_eq.
    simpl. rewrite Hob. reflexivity.
  - exact Hmove.
  - intros Hnone. rewrite Hmove, Hnone. reflexivity.
  - intros q. apply agree_moveObject; auto with claw.
  - exact Hcalls.
  - intros k0 Hk0. destruct (next opts) as [k|] eqn:Hnext.
    + rewrite (timesCalled_cons k k0 _ (calls g) Hcalls).
      destruct (decide (k = k0)) as [Heq | Hne]; [congruence | reflexivity].
    + unfold timesCalled. rewrite Hcalls. reflexivity.
  - intros Hlt. rewrite Hmove.
    destruct (next opts) as [k|]; simpl; [|exact Hdead].
    apply runCallback_dead; simpl; [exact Hdead|].
    rewrite nextTimer_clearObjInterval. exact Hlt.
Qed.

(** On the mounted machine the joint is moving; a second request cancels
    timer 1 and calls its own callback. *)
Lemma moveObject_while_moving_witness :
  timers (clearObjInterval armJoint demoGame) !! 1%positive = None /\
  calls (moveObject armJoint
           {| moveKey := KeyY; target := None; moveTime := None;
              next := Some (Observer 7) |} demoGame)
  = [Observer 7].
Proof.
  pose proof (moveObject_while_moving demoGame armJoint 1%positive
                (set_interval (Some 1%positive) (createWorldObject 40 20))
                {| moveKey := KeyY; target := None; moveTime := None;
                   next := Some (Observer 7) |}
                ltac:(vm_compute; reflexivity) ltac:(reflexivity))
    as (Hdead & _ & _ & _ & _ & _ & Hcalls & _).
  split; [exact Hdead | exact Hcalls].
Defined.

(** ** One tick *)

Lemma shouldMove_true (cur tgt : Z) : shouldMove cur tgt = true <-> cur <> tgt.
Proof.
  unfold shouldMove, increment, distance.
  destruct (Z.gtb_spec cur tgt); destruct (Z.ltb_spec (Z.abs (cur - tgt)) 10);
    repeat match goal with
           | |- context [?a >? ?b] => destruct (Z.gtb_spec a b)
           | |- context [?a <? ?b] => destruct (Z.ltb_spec a b)
           end; split; intros; try lia; try discriminate; try reflexivity.
Qed.

Lemma increment_up (cur tgt : Z) :
  cur < tgt -> increment cur tgt = Z.min 10 (tgt - cur).
Proof.
  intros Hlt. unfold increment, distance.
  destruct (Z.gtb_spec cur tgt); destruct (Z.ltb_spec (Z.abs (cur - tgt)) 10); lia.
Qed.

Lemma increment_down (cur tgt : Z) :
  tgt < cur -> increment cur tgt = - Z.min 10 (cur - tgt).
Proof.
  intros Hlt. unfold increment, distance.
  destruct (Z.gtb_spec cur tgt); destruct (Z.ltb_spec (Z.abs (cur - tgt)) 10); lia.
Qed.

Lemma occurrences_cons (a : positive) (m : option positive)
    (ms : list (option positive)) :
  occurrences a (m :: ms)
  = ((if decide (m = Some a) then 1 else 0) + occurrences a ms)%nat.
Proof.
  unfold occurrences. destruct (decide (m = Some a)) as [Heq | Hne].
  - rewrite filter_cons_True by exact Heq. reflexivity.
  - rewrite filter_cons_False by exact Hne. reflexivity.
Qed.

Lemma propagate_cons (k : MoveKey) (d : Z) (m : option positive)
    (ms : list (option positive)) (g : Game) :
  propagate k d (m :: ms) g
  = propagate k d ms
      match m with
      | None => g
      | Some b => mutate b (addKey (passengerKey k) d) g
      end.
Proof. destruct m; reflexivity. Qed.

(** What the [forEach] over the attached list does to the store: an object
    is stepped once for every slot that holds it. *)
Lemma heap_propagate (k : MoveKey) (d : Z) (ms : list (option positive))
    (g : Game) (a : positive) :
  heap (propagate k d ms g) !! a
  = Nat.iter (occurrences a ms) (addKey (passengerKey k) d) <$> heap g !! a.
Proof.
  revert g. induction ms as [|m ms IH]; intros g.
  - simpl. destruct (heap g !! a); reflexivity.
  - rewrite occurrences_cons.
    rewrite propagate_cons, IH. destruct m as [b|].
    + destruct (decide (Some b = Some a)) as [Heq | Hne].
      * injection Heq as ->. rewrite heap_mutate_eq.
        destruct (heap g !! a) as [x|]; [|reflexivity].
        change (Some (Nat.iter (occurrences a ms) (addKey (passengerKey k) d)
                        (addKey (passengerKey k) d x))
                = Some (Nat.iter (S (occurrences a ms))
                          (addKey (passengerKey k) d) x)).
        rewrite Nat.iter_succ_r. reflexivity.
      * rewrite heap_mutate_ne by congruence. reflexivity.
    + destruct (decide (None = Some a)); [discriminate | reflexivity].
Qed.

Lemma propagate_rest (k : MoveKey) (d : Z) (ms : list (option positive))
    (g : Game) :
  timers (propagate k d ms g) = timers g /\
  calls (propagate k d ms g) = calls g /\
  nextTimer (propagate k d ms g) = nextTimer g.
Proof.
  revert g. induction ms as [|m ms IH]; intros g; [auto|].
  rewrite propagate_cons.
  destruct (IH match m with
               | None => g
               | Some b => mutate b (addKey (passengerKey k) d) g
               end) as (Ht & Hc & Hn).
  rewrite Ht, Hc, Hn. destruct m; auto.
Qed.

Lemma tick_moves (g : Game) (o : positive) (k : MoveKey) (tgt : Z)
    (nxt : option Callback) (ob : WorldObject) :
  heap g !! o = Some ob -> getKey k ob <> tgt ->
  tick o k tgt nxt g
  = propagate k (increment (getKey k ob) tgt) (o_moveWith ob)
      (mutate o (addKey k (increment (getKey k ob) tgt)) g).
Proof.
  intros Hob Hne. unfold tick. rewrite Hob. simpl.
  apply shouldMove_true in Hne. rewrite Hne. reflexivity.
Qed.

Lemma tick_done (g : Game) (o : positive) (k : MoveKey) (tgt : Z)
    (nxt : option Callback) (ob : WorldObject) :
  heap g !! o = Some ob -> getKey k ob = tgt ->
  tick o k tgt nxt g = callNext nxt (clearObjInterval o g).
Proof.
  intros Hob Heq. unfold tick. rewrite Hob. simpl.
  destruct (shouldMove (getKey k ob) tgt) eqn:Hs; [|reflexivity].
  apply shouldMove_true in Hs. contradiction.
Qed.

(** ** A move from start to completion *)

Lemma set_interval_idle (ob : WorldObject) :
  o_interval ob = None -> set_interval None ob = ob.
Proof. intros Hidle. destruct ob. simpl in Hidle. subst. reflexivity. Qed.

Lemma mutate_fixed (o : positive) (f : WorldObject -> WorldObject) (g : Game)
    (ob : WorldObject) :
  heap g !! o = Some ob -> f ob = ob -> mutate o f g = g.
Proof.
  intros Hob Hf. unfold mutate, set_heap.
  rewrite alter_id by (intros x Hx; congruence).
  destruct g. reflexivity.
Qed.

(** On an object that holds no handle, [resumeMove] is [moveObject]. *)
Lemma resumeMove_idle (o : positive) (opts : MoveOpts) (g : Game)
    (ob : WorldObject) :
  heap g !! o = Some ob -> o_interval ob = None ->
  resumeMove o opts g = moveObject o opts g.
Proof.
  intros Hob Hidle. unfold resumeMove.
  rewrite (mutate_fixed o _ g ob Hob (set_interval_idle ob Hidle)). reflexivity.
Qed.

Lemma getKey_attr (k : MoveKey) (ob : WorldObject) :
  getKey k ob = attr (keyAttr k) ob.
Proof. destruct k; reflexivity. Qed.

Lemma getKey_addKey (k : MoveKey) (d : Z) (ob : WorldObject) :
  getKey k (addKey k d ob) = getKey k ob + d.
Proof. destruct k; reflexivity. Qed.

Lemma addKey_bookkeeping (k : MoveKey) (d : Z) (ob : WorldObject) :
  o_interval (addKey k d ob) = o_interval ob /\
  o_moveWith (addKey k d ob) = o_moveWith ob.
Proof. destruct k; auto. Qed.

Lemma moving_start (g : Game) (o : positive) (opts : MoveOpts) (tgt : Z)
    (ms : list (option positive)) (cur : Z) (c : list Callback) :
  Idle g o (moveKey opts) ms cur c -> target opts = Some tgt ->
  Moving (moveObject o opts g) o (nextTimer g) (moveKey opts) tgt (next opts)
    ms cur c.
Proof.
  intros [(ob & Hob & Hcur & Hidle & Hms) Hc] Htgt.
  unfold moveObject. rewrite Hob, Hidle. unfold schedule. rewrite Htgt.
  split; [|split; [exact Hc | simpl; lia]].
  eexists (set_interval (Some (nextTimer g)) ob), _.
  rewrite heap_mutate_eq. simpl. rewrite Hob, lookup_insert_eq.
  repeat split; try reflexivity; assumption.
Qed.

(** The same for a move with or without a target of its own. *)
Lemma moving_start_any (g : Game) (o : positive) (opts : MoveOpts)
    (ob : WorldObject) :
  heap g !! o = Some ob -> o_interval ob = None ->
  Moving (moveObject o opts g) o (nextTimer g) (moveKey opts)
    (targetOf opts ob) (next opts) (o_moveWith ob)
    (getKey (moveKey opts) ob) (calls g).
Proof.
  intros Hob Hidle.
  unfold moveObject. rewrite Hob, Hidle. unfold schedule.
  split; [|split; [reflexivity | simpl; lia]].
  exists (set_interval (Some (nextTimer g)) ob). eexists.
  rewrite heap_mutate_eq. simpl. rewrite Hob, lookup_insert_eq.
  split; [reflexivity|]. split; [destruct (moveKey opts); reflexivity|].
  repeat split; reflexivity.
Qed.

Lemma idle_resume (g : Game) (o : positive) (opts : MoveOpts) (tgt : Z)
    (ms : list (option positive)) (cur : Z) (c : list Callback) :
  Idle g o (moveKey opts) ms cur c -> target opts = Some tgt ->
  Moving (resumeMove o opts g) o (nextTimer g) (moveKey opts) tgt (next opts)
    ms cur c.
Proof.
  intros [(ob & Hob & Hcur & Hidle & Hms) Hc] Htgt.
  unfold resumeMove.
  apply (moving_start (mutate o (set_interval None) g)); [|exact Htgt].
  split; [|exact Hc].
  exists (set_interval None ob). rewrite heap_mutate_eq, Hob.
  repeat split; assumption.
Qed.

Lemma moving_cancel (g : Game) (o id : positive) (k : MoveKey) (tgt : Z)
    (nxt : option Callback) (ms : list (option positive)) (cur : Z)
    (c : list Callback) :
  Moving g o id k tgt nxt ms cur c ->
  Idle (clearObjInterval o g) o k ms cur c /\
  nextTimer (clearObjInterval o g) = nextTimer g /\
  timers (clearObjInterval o g) !! id = None.
Proof.
  intros [(ob & tm & Hob & Hcur & Hid & Hms & Htm & _) [Hc Hlt]].
  rewrite (clearObjInterval_busy g o id ob Hob Hid).
  split; [split; [|exact Hc] | split; [reflexivity | simpl; apply lookup_delete_eq]].
  exists (set_interval None ob). rewrite heap_mutate_eq. simpl. rewrite Hob.
  repeat split; assumption.
Qed.

Lemma moving_fire_step (g : Game) (o id : positive) (k : MoveKey) (tgt : Z)
    (nxt : option Callback) (ms : list (option positive)) (cur : Z)
    (c : list Callback) :
  Moving g o id k tgt nxt ms cur c -> occurrences o ms = 0%nat -> cur <> tgt ->
  Moving (fire id g) o id k tgt nxt ms (cur + increment cur tgt) c.
Proof.
  intros [(ob & tm & Hob & Hcur & Hid & Hms & Htm & Ho & Hk & Ht & Hn) [Hc Hlt]]
    Hocc Hne.
  unfold fire. rewrite Htm, Ho, Hk, Ht, Hn.
  rewrite (tick_moves g o k tgt nxt ob Hob) by congruence.
  rewrite Hcur, Hms.
  destruct (propagate_rest k (increment cur tgt) ms
              (mutate o (addKey k (increment cur tgt)) g)) as (Htimers & Hcalls & Hnext).
  split; [|split; [rewrite Hcalls; exact Hc | rewrite Hnext; exact Hlt]].
  exists (addKey k (increment cur tgt) ob), tm.
  rewrite heap_propagate, Hocc, heap_mutate_eq, Hob, Htimers.
  destruct (addKey_bookkeeping k (increment cur tgt) ob) as [Hi Hm].
  rewrite getKey_addKey, Hi, Hm, Hcur.
  repeat split; assumption.
Qed.

Lemma moving_fire_done (g : Game) (o id : positive) (k : MoveKey) (tgt : Z)
    (nxt : option Callback) (ms : list (option positive)) (c : list Callback) :
  Moving g o id k tgt nxt ms tgt c ->
  Settled (fire id g) o id k tgt
    match nxt with Some cb => cb :: c | None => c end.
Proof.
  intros [(ob & tm & Hob & Hcur & Hid & Hms & Htm & Ho & Hk & Ht & Hn) [Hc Hlt]].
  unfold fire. rewrite Htm, Ho, Hk, Ht, Hn.
  rewrite (tick_done g o k tgt nxt ob Hob Hcur).
  assert (timers (clearObjInterval o g) !! id = None) as Hdead
    by (rewrite (clearObjInterval_busy g o id ob Hob Hid); simpl;
        apply lookup_delete_eq).
  split; [|split; [|split]].
  - pose proof (agree_callNext (attr (keyAttr k))
                  ltac:(auto with claw) ltac:(auto with claw)
                  nxt (clearObjInterval o g) o) as Hcall.
    pose proof (agree_clearObjInterval (attr (keyAttr k))
                  ltac:(auto with claw) o g o) as Hclear.
    rewrite Hclear, Hob in Hcall.
    destruct (heap (callNext nxt (clearObjInterval o g)) !! o) as [ob'|];
      [|discriminate].
    exists ob'. split; [reflexivity|].
    rewrite getKey_attr. simpl in Hcall. injection Hcall as ->.
    rewrite <- getKey_attr. exact Hcur.
  - destruct nxt as [cb|]; simpl; [|exact Hdead].
    apply runCallback_dead; simpl; [exact Hdead|].
    rewrite nextTimer_clearObjInterval. exact Hlt.
  - rewrite calls_callNext, calls_clearObjInterval, Hc. reflexivity.
  - destruct nxt as [cb|]; simpl;
      [|rewrite nextTimer_clearObjInterval; exact Hlt].
    apply runCallback_dead; simpl; [exact Hdead|].
    rewrite nextTimer_clearObjInterval. exact Hlt.
Qed.

(** Whole steps of 10 towards a target that is still at least that far. *)
Lemma moving_fireN_up (j : nat) (g : Game) (o id : positive) (k : MoveKey)
    (tgt : Z) (nxt : option Callback) (ms : list (option positive)) (cur : Z)
    (c : list Callback) :
  Moving g o id k tgt nxt ms cur c -> occurrences o ms = 0%nat ->
  cur + 10 * Z.of_nat j <= tgt ->
  Moving (fireN j id g) o id k tgt nxt ms (cur + 10 * Z.of_nat j) c.
Proof.
  revert g cur. induction j as [|j IH]; intros g cur Hmov Hocc Hle.
  - simpl. replace (cur + 10 * Z.of_nat 0) with cur by lia. exact Hmov.
  - simpl fireN.
    replace (cur + 10 * Z.of_nat (S j)) with ((cur + 10) + 10 * Z.of_nat j) by lia.
    apply IH; [|exact Hocc|lia].
    replace (cur + 10) with (cur + increment cur tgt)
      by (rewrite increment_up by lia; lia).
    apply moving_fire_step; [exact Hmov | exact Hocc | lia].
Qed.

Lemma settled_fireN (n : nat) (g : Game) (o id : positive) (k : MoveKey)
    (cur : Z) (c : list Callback) :
  Settled g o id k cur c -> fireN n id g = g.
Proof. intros (_ & Hdead & _). apply fireN_dead. exact Hdead. Qed.

Lemma timesCalled_self (cb : Callback) (g g' : Game) :
  calls g' = cb :: calls g -> timesCalled cb g' = S (timesCalled cb g).
Proof.
  intros Hc. rewrite (timesCalled_cons cb cb g' (calls g) Hc).
  destruct (decide (cb = cb)); [reflexivity | contradiction].
Qed.

Lemma settled_getKey (g : Game) (o id : positive) (k : MoveKey) (cur : Z)
    (c : list Callback) :
  Settled g o id k cur c -> getKey k <$> heap g !! o = Some cur.
Proof. intros ((ob & Hob & Hcur) & _). rewrite Hob. simpl. congruence. Qed.

Lemma moving_getKey (g : Game) (o id : positive) (k : MoveKey) (tgt : Z)
    (nxt : option Callback) (ms : list (option positive)) (cur : Z)
    (c : list Callback) :
  Moving g o id k tgt nxt ms cur c -> getKey k <$> heap g !! o = Some cur.
Proof. intros ((ob & tm & Hob & Hcur & _) & _). rewrite Hob. simpl. congruence. Qed.

(** Claim C8: on an object that holds no timer, a move whose target is the
    attribute's current value calls the completion callback exactly once:
    nothing is called by the request itself, the first tick of the timer it
    arms calls [next] and clears the timer, and no later tick calls it
    again; the attribute keeps its value throughout. *)
Theorem zero_distance_move (g : Game) (o : positive) (ob : WorldObject)
    (opts : MoveOpts) (cb : Callback) (n : nat) :
  heap g !! o = Some ob -> o_interval ob = None ->
  target opts = Some (getKey (moveKey opts) ob) -> next opts = Some cb ->
  calls (moveObject o opts g) = calls g /\
  calls (fireN (S n) (nextTimer g) (moveObject o opts g)) = cb :: calls g /\
  timesCalled cb (fireN (S n) (nextTimer g) (moveObject o opts g))
    = S (timesCalled cb g) /\
  getKey (moveKey opts) <$> heap (moveObject o opts g) !! o
    = Some (getKey (moveKey opts) ob) /\
  getKey (moveKey opts)
    <$> heap (fireN (S n) (nextTimer g) (moveObject o opts g)) !! o
    = Some (getKey (moveKey opts) ob) /\
  timers (fireN (S n) (nextTimer g) (moveObject o opts g)) !! nextTimer g = None.
Proof.
  intros Hob Hidle Htgt Hnext.
  assert (Idle g o (moveKey opts) (o_moveWith ob) (getKey (moveKey opts) ob) (calls g))
    as Hstart by (split; [exists ob; auto | reflexivity]).
  pose proof (moving_start g o opts _ _ _ _ Hstart Htgt) as Hmov.
  pose proof (moving_fire_done _ _ _ _ _ _ _ _ Hmov) as Hdone.
  rewrite Hnext in Hdone.
  simpl fireN. rewrite (settled_fireN n _ _ _ _ _ _ Hdone).
  pose proof Hdone as (_ & Hdead & Hcalls & _).
  destruct Hmov as (_ & Hc0 & _).
  repeat split; try assumption.
  - apply timesCalled_self. exact Hcalls.
  - eapply moving_getKey. apply (moving_start g o opts _ _ _ _ Hstart Htgt).
  - eapply settled_getKey. exact Hdone.
Qed.

(** The rail of the mounted machine rests at 0: a move to 0 calls back once. *)
Lemma zero_distance_move_witness :
  timesCalled (Observer 1)
    (fireN 3 2
       (moveObject vertRail
          {| moveKey := KeyX; target := Some 0; moveTime := None;
             next := Some (Observer 1) |} demoGame))
  = 1%nat.
Proof.
  exact (proj1 (proj2 (proj2
           (zero_distance_move demoGame vertRail
              (set_moveWith [None; Some armJoint] (createWorldObject 10 100))
              {| moveKey := KeyX; target := Some 0; moveTime := None;
                 next := Some (Observer 1) |}
              (Observer 1) 2
              ltac:(vm_compute; reflexivity) ltac:(reflexivity)
              ltac:(reflexivity) ltac:(reflexivity))))).
Defined.

(** Claim C6: on an object at 0 that holds no timer (and is not attached to
    itself), a move to 100 in steps of 10 that is cancelled after three
    ticks, at 30, and resumed at once towards 100 ends at exactly 100 with
    the completion callback called exactly once, as often as in the run
    that is not interrupted; further ticks change nothing.  The
    cancellation is [clearObjInterval], which a second move request without
    callback amounts to, and the resumption is [resumeMove], which on the
    cancelled object is [moveObject]. *)
Theorem cancel_resume_equivalence (g : Game) (o : positive) (ob : WorldObject)
    (cb : Callback) (n : nat) :
  heap g !! o = Some ob -> o_x ob = 0 -> o_interval ob = None ->
  occurrences o (o_moveWith ob) = 0%nat ->
  let opts := {| moveKey := KeyX; target := Some 100; moveTime := None;
                 next := Some cb |} in
  let started := moveObject o opts g in
  let paused := clearObjInterval o (fireN 3 (nextTimer g) started) in
  let resumed := resumeMove o opts paused in
  let finished := fireN (8 + n) (nextTimer paused) resumed in
  let straight := fireN (11 + n) (nextTimer g) started in
  o_x <$> heap paused !! o = Some 30 /\
  calls paused = calls g /\
  o_x <$> heap finished !! o = Some 100 /\
  o_x <$> heap straight !! o = Some 100 /\
  timesCalled cb finished = S (timesCalled cb g) /\
  timesCalled cb straight = S (timesCalled cb g) /\
  timesCalled cb finished = timesCalled cb straight /\
  paused
    = moveObject o {| moveKey := KeyX; target := None; moveTime := None;
                      next := None |} (fireN 3 (nextTimer g) started) /\
  resumed = moveObject o opts paused.
Proof.
  intros Hob Hx Hidle Hocc opts started paused resumed finished straight.
  assert (Idle g o KeyX (o_moveWith ob) 0 (calls g)) as Hstart
    by (split; [exists ob; auto | reflexivity]).
  pose proof (moving_start g o opts 100 _ _ _ Hstart eq_refl) as Hmov.
  fold started in Hmov. simpl in Hmov.
  (* three ticks, then the cancellation and the resumption *)
  pose proof (moving_fireN_up 3 _ _ _ _ _ _ _ _ _ Hmov Hocc ltac:(simpl; lia)) as H3.
  destruct (moving_cancel _ _ _ _ _ _ _ _ _ H3) as (Hpaused & _ & _).
  fold paused in Hpaused.
  pose proof (idle_resume paused o opts 100 _ _ _ Hpaused eq_refl) as Hres.
  fold resumed in Hres. simpl in Hres.
  pose proof (moving_fireN_up 7 _ _ _ _ _ _ _ _ _ Hres Hocc ltac:(simpl; lia)) as H7.
  pose proof (moving_fire_done _ _ _ _ _ _ _ _ H7) as Hfin.
  assert (finished = fire (nextTimer paused) (fireN 7 (nextTimer paused) resumed))
    as Hfinished.
  { unfold finished. replace (8 + n)%nat with (7 + (1 + n))%nat by lia.
    rewrite fireN_add. simpl fireN at 1.
    apply (settled_fireN n _ _ _ _ _ _ Hfin). }
  (* the run that is not interrupted *)
  pose proof (moving_fireN_up 10 _ _ _ _ _ _ _ _ _ Hmov Hocc ltac:(simpl; lia)) as H10.
  pose proof (moving_fire_done _ _ _ _ _ _ _ _ H10) as Hstr.
  assert (straight = fire (nextTimer g) (fireN 10 (nextTimer g) started))
    as Hstraight.
  { unfold straight. replace (11 + n)%nat with (10 + (1 + n))%nat by lia.
    rewrite fireN_add. simpl fireN at 1.
    apply (settled_fireN n _ _ _ _ _ _ Hstr). }
  assert (timesCalled cb finished = S (timesCalled cb g)) as Hcf.
  { rewrite Hfinished. apply timesCalled_self.
    destruct Hfin as (_ & _ & Hc & _). exact Hc. }
  assert (timesCalled cb straight = S (timesCalled cb g)) as Hcs.
  { rewrite Hstraight. apply timesCalled_self.
    destruct Hstr as (_ & _ & Hc & _). exact Hc. }
  repeat split.
  - destruct Hpaused as ((pb & Hpb & Hcur & _) & _). rewrite Hpb. simpl.
    f_equal. exact Hcur.
  - destruct Hpaused as (_ & Hc). exact Hc.
  - rewrite Hfinished. apply (settled_getKey _ _ _ KeyX _ _ Hfin).
  - rewrite Hstraight. apply (settled_getKey _ _ _ KeyX _ _ Hstr).
  - exact Hcf.
  - exact Hcs.
  - congruence.
  - destruct H3 as ((ob3 & tm3 & Hob3 & _ & Hid3 & _) & _).
    unfold paused, moveObject. rewrite Hob3, Hid3. reflexivity.
  - destruct Hpaused as ((pb & Hpb & _ & Hpi & _) & _).
    apply (resumeMove_idle o opts paused pb Hpb Hpi).
Qed.

(** The scenario on the rail of the mounted machine, whose next handle is 2. *)
Lemma cancel_resume_equivalence_witness :
  timesCalled (Observer 0)
    (fireN 8 3
       (resumeMove vertRail
          {| moveKey := KeyX; target := Some 100; moveTime := None;
             next := Some (Observer 0) |}
          (clearObjInterval vertRail
             (fireN 3 2
                (moveObject vertRail
                   {| moveKey := KeyX; target := Some 100; moveTime := None;
                      next := Some (Observer 0) |} demoGame)))))
  = 1%nat.
Proof.
  exact (proj1 (proj2 (proj2 (proj2 (proj2
           (cancel_resume_equivalence demoGame vertRail
              (set_moveWith [None; Some armJoint] (createWorldObject 10 100))
              (Observer 0) 0
              ltac:(vm_compute; reflexivity) ltac:(reflexivity)
              ltac:(reflexivity) ltac:(vm_compute; reflexivity))))))).
Defined.

(** ** The exact effect of a tick on the store *)

Lemma attr_addKey (q : Attr) (k : MoveKey) (d : Z) (x : WorldObject) :
  attr q (addKey k d x) = attr q x + (if decide (q = keyAttr k) then d else 0).
Proof. destruct q, k; simpl; lia. Qed.

Lemma attr_iter_addKey (n : nat) (q : Attr) (k : MoveKey) (d : Z)
    (x : WorldObject) :
  attr q (Nat.iter n (addKey k d) x)
  = attr q x + (if decide (q = keyAttr k) then Z.of_nat n * d else 0).
Proof.
  induction n as [|n IH].
  - simpl. destruct (decide (q = keyAttr k)); lia.
  - rewrite Nat.iter_succ, attr_addKey, IH.
    destruct (decide (q = keyAttr k)); lia.
Qed.

Lemma moveWith_iter_addKey (n : nat) (k : MoveKey) (d : Z) (x : WorldObject) :
  o_moveWith (Nat.iter n (addKey k d) x) = o_moveWith x.
Proof.
  induction n as [|n IH]; [reflexivity|].
  rewrite Nat.iter_succ.
  destruct (addKey_bookkeeping k d (Nat.iter n (addKey k d) x)) as [_ Hm].
  rewrite Hm. exact IH.
Qed.

(** A tick never rewrites an attached list. *)
Lemma tick_keeps_moveWith (g : Game) (o : positive) (k : MoveKey) (tgt : Z)
    (nxt : option Callback) :
  agree o_moveWith g (tick o k tgt nxt g).
Proof.
  unfold tick. destruct (heap g !! o) as [ob|] eqn:Hob; [|apply agree_refl].
  simpl. destruct (shouldMove (getKey k ob) tgt).
  - intros a. rewrite heap_propagate.
    destruct (decide (o = a)) as [<- | Hne].
    + rewrite heap_mutate_eq, Hob. simpl. f_equal.
      rewrite moveWith_iter_addKey.
      apply (addKey_bookkeeping k _ ob).
    + rewrite heap_mutate_ne by exact Hne.
      destruct (heap g !! a); simpl; [|reflexivity].
      f_equal. apply moveWith_iter_addKey.
  - eapply agree_trans;
      [apply agree_clearObjInterval | apply agree_callNext]; auto with claw.
Qed.

Lemma tick_effect (g : Game) (o : positive) (k : MoveKey) (tgt : Z)
    (nxt : option Callback) (ob : WorldObject) (a : positive) (q : Attr) :
  heap g !! o = Some ob ->
  attr q <$> heap (tick o k tgt nxt g) !! a
  = (fun x => attr q x
              + tickDelta o k (stepOf (getKey k ob) tgt) (o_moveWith ob) a q)
    <$> heap g !! a.
Proof.
  intros Hob. unfold stepOf, tickDelta.
  destruct (decide (getKey k ob = tgt)) as [Heq | Hne].
  - rewrite (tick_done g o k tgt nxt ob Hob Heq).
    pose proof (agree_callNext (attr q) ltac:(auto with claw) ltac:(auto with claw)
                  nxt (clearObjInterval o g) a) as Hcall.
    pose proof (agree_clearObjInterval (attr q) ltac:(auto with claw) o g a)
      as Hclear.
    rewrite Hcall, Hclear.
    destruct (heap g !! a); simpl; [|reflexivity]. f_equal.
    destruct (decide (a = o /\ q = keyAttr k));
      destruct (decide (q = keyAttr (passengerKey k))); lia.
  - rewrite (tick_moves g o k tgt nxt ob Hob Hne), heap_propagate.
    destruct (decide (o = a)) as [<- | Hoa].
    + rewrite heap_mutate_eq, Hob. simpl. f_equal.
      rewrite attr_iter_addKey, attr_addKey.
      destruct (decide (o = o /\ q = keyAttr k)) as [[_ Hq] | Hn];
        destruct (decide (q = keyAttr k)); try tauto;
        destruct (decide (q = keyAttr (passengerKey k))); lia.
    + rewrite heap_mutate_ne by exact Hoa.
      destruct (heap g !! a); simpl; [|reflexivity]. f_equal.
      rewrite attr_iter_addKey.
      destruct (decide (a = o /\ q = keyAttr k)) as [[Hao _] | _];
        [congruence|].
      destruct (decide (q = keyAttr (passengerKey k))); lia.
Qed.

Lemma occurrences_zero (a : positive) (ms : list (option positive)) :
  Some a ∉ ms -> occurrences a ms = 0%nat.
Proof.
  intros Hnot. induction ms as [|m ms IH]; [reflexivity|].
  rewrite occurrences_cons.
  apply not_elem_of_cons in Hnot as [Hne Hrest].
  rewrite (IH Hrest).
  destruct (decide (m = Some a)); [congruence | reflexivity].
Qed.

Lemma tickDelta_frame (o : positive) (k : MoveKey) (d : Z)
    (ms : list (option positive)) (a : positive) (q : Attr) :
  ~ (a = o /\ q = keyAttr k) ->
  ~ (Some a ∈ ms /\ q = keyAttr (passengerKey k)) ->
  tickDelta o k d ms a q = 0.
Proof.
  intros Hdriver Hpassenger. unfold tickDelta.
  destruct (decide (a = o /\ q = keyAttr k)); [contradiction|].
  destruct (decide (q = keyAttr (passengerKey k))) as [Hq | _]; [|lia].
  rewrite occurrences_zero; [lia|].
  intros Hin. apply Hpassenger. auto.
Qed.

(** Claim C10: a tick on [o] that drives [k] changes no attribute of any
    object other than [o]'s own [k] and, for the objects its attached list
    holds, their [y] when [k] is [h] and their [k] otherwise; an object
    attached to a passenger, and not to [o] itself, keeps every attribute;
    no attached list is rewritten. *)
Theorem tick_frame (g : Game) (o : positive) (k : MoveKey) (tgt : Z)
    (nxt : option Callback) (ob : WorldObject) :
  heap g !! o = Some ob ->
  (forall a q,
     ~ (a = o /\ q = keyAttr k) ->
     ~ (Some a ∈ o_moveWith ob /\ q = keyAttr (passengerKey k)) ->
     attr q <$> heap (tick o k tgt nxt g) !! a = attr q <$> heap g !! a) /\
  (forall m mb p q,
     Some m ∈ o_moveWith ob -> heap g !! m = Some mb ->
     Some p ∈ o_moveWith mb -> p <> o -> Some p ∉ o_moveWith ob ->
     attr q <$> heap (tick o k tgt nxt g) !! p = attr q <$> heap g !! p) /\
  (forall a q,
     attr q <$> heap (tick o k tgt nxt g) !! a
     = (fun x => attr q x
                 + tickDelta o k (stepOf (getKey k ob) tgt) (o_moveWith ob) a q)
       <$> heap g !! a) /\
  agree o_moveWith g (tick o k tgt nxt g).
Proof.
  intros Hob.
  assert (forall a q,
            ~ (a = o /\ q = keyAttr k) ->
            ~ (Some a ∈ o_moveWith ob /\ q = keyAttr (passengerKey k)) ->
            attr q <$> heap (tick o k tgt nxt g) !! a = attr q <$> heap g !! a)
    as Hframe.
  { intros a q Hdriver Hpassenger.
    rewrite (tick_effect g o k tgt nxt ob a q Hob).
    rewrite (tickDelta_frame o k _ _ a q Hdriver Hpassenger).
    destruct (heap g !! a); simpl; [|reflexivity]. f_equal. lia. }
  split; [exact Hframe|]. split; [|split].
  - intros m mb p q _ _ _ Hpo Hnot. apply Hframe; tauto.
  - intros a q. apply tick_effect. exact Hob.
  - apply tick_keeps_moveWith.
Qed.

(** On the mounted machine the joint rides on the rail; a toy set on the
    joint alone stays where it is when the rail ticks. *)
Lemma tick_frame_witness :
  attr AttrX
    <$> heap (tick vertRail KeyX 100 None
                (mutate armJoint (set_moveWith [Some demoToy]) demoWithToy))
        !! demoToy
  = Some 0.
Proof.
  exact (proj1 (proj2
           (tick_frame
              (mutate armJoint (set_moveWith [Some demoToy]) demoWithToy)
              vertRail KeyX 100 None
              (set_moveWith [None; Some armJoint] (createWorldObject 10 100))
              ltac:(vm_compute; reflexivity)))
           armJoint
           (set_moveWith [Some demoToy]
              (set_interval (Some 1%positive) (createWorldObject 40 20)))
           demoToy AttrX
           ltac:(vm_compute; right; left)
           ltac:(vm_compute; reflexivity)
           ltac:(vm_compute; left)
           ltac:(vm_compute; discriminate)
           ltac:(vm_compute; intros Hin;
                 apply elem_of_cons in Hin as [Hin | Hin]; [discriminate|];
                 apply elem_of_cons in Hin as [Hin | Hin]; [discriminate|];
                 inversion Hin)).
Defined.

(** ** Attachment propagation *)

Lemma tick_attached (g : Game) (o toy : positive) (tgt : Z)
    (nxt : option Callback) (ob tb : WorldObject) :
  heap g !! o = Some ob -> heap g !! toy = Some tb -> toy <> o ->
  occurrences toy (o_moveWith ob) = 1%nat ->
  exists ob' tb',
    heap (tick o KeyH tgt nxt g) !! o = Some ob' /\
    heap (tick o KeyH tgt nxt g) !! toy = Some tb' /\
    o_moveWith ob' = o_moveWith ob /\
    o_h ob' = o_h ob + stepOf (o_h ob) tgt /\
    o_y tb' = o_y tb + stepOf (o_h ob) tgt.
Proof.
  intros Hob Htb Hne Hocc.
  pose proof (tick_effect g o KeyH tgt nxt ob o AttrH Hob) as Hh.
  pose proof (tick_effect g o KeyH tgt nxt ob toy AttrY Hob) as Hy.
  pose proof (tick_keeps_moveWith g o KeyH tgt nxt o) as Hm.
  rewrite Hob in Hh, Hm. rewrite Htb in Hy.
  destruct (heap (tick o KeyH tgt nxt g) !! o) as [ob'|]; [|discriminate].
  destruct (heap (tick o KeyH tgt nxt g) !! toy) as [tb'|]; [|discriminate].
  exists ob', tb'. simpl in Hh, Hy, Hm.
  injection Hh as Hh. injection Hy as Hy. injection Hm as Hm.
  unfold tickDelta in Hh, Hy. rewrite Hocc in Hy. simpl in Hh, Hy.
  destruct (decide (o = o /\ AttrH = AttrH)) as [_ | Hn]; [|tauto].
  destruct (decide (toy = o /\ AttrY = AttrH)) as [[Hto _] | _]; [contradiction|].
  repeat split; try assumption; lia.
Qed.

(** The same in doubles.  A tick that finds the driven attribute on its
    target changes nothing, now or later. *)
Lemma Doubles_tickN_rest (n : nat) (target : float) (st : float * list float) :
  Doubles.shouldMove (fst st) target = false -> Doubles.tickN n target st = st.
Proof.
  intros Hrest. induction n as [|n IH]; [reflexivity|].
  simpl. unfold Doubles.tick at 1. rewrite Hrest. exact IH.
Qed.

(** [n] ticks add to the driven attribute and to every passenger the same
    steps, one at a time and in the same order. *)
Lemma Doubles_tickN_steps (n : nat) (target cur : float) (ms : list float) :
  Doubles.tickN n target (cur, ms)
  = (Doubles.addAll (Doubles.steps n cur target) cur,
     map (Doubles.addAll (Doubles.steps n cur target)) ms).
Proof.
  revert cur ms. induction n as [|n IH]; intros cur ms.
  - simpl. unfold Doubles.addAll. simpl. rewrite map_id. reflexivity.
  - simpl Doubles.steps.
    destruct (Doubles.shouldMove cur target) eqn:Hmove.
    + simpl Doubles.tickN. unfold Doubles.tick at 1. simpl fst. simpl snd.
      rewrite Hmove, IH, map_map. reflexivity.
    + rewrite (Doubles_tickN_rest (S n) target (cur, ms) Hmove).
      unfold Doubles.addAll. simpl. rewrite map_id. reflexivity.
Qed.

(** Claim C9, as the code has it.  While a toy sits in exactly one slot of
    an object's attached list and that object's [h] is driven, every tick
    adds its signed step to the object's [h] and to the toy's [y] alike.
    On whole numbers the toy's [y] has therefore changed, after any number
    of ticks, by exactly as much as the [h].  On doubles the toy's [y] is
    its old value with the steps of the [h] added one at a time, each
    addition rounding; the total need not be the change of the [h]. *)
Theorem attached_toy_follows_extension (n : nat) (g : Game) (o toy : positive)
    (tgt : Z) (nxt : option Callback) (ob tb : WorldObject) :
  heap g !! o = Some ob -> heap g !! toy = Some tb -> toy <> o ->
  occurrences toy (o_moveWith ob) = 1%nat ->
  (exists ob' tb',
     heap (tickN n o KeyH tgt nxt g) !! o = Some ob' /\
     heap (tickN n o KeyH tgt nxt g) !! toy = Some tb' /\
     o_y tb' - o_y tb = o_h ob' - o_h ob /\
     (n = 1%nat ->
      o_h ob' = o_h ob + stepOf (o_h ob) tgt /\
      o_y tb' = o_y tb + stepOf (o_h ob) tgt)) /\
  (forall (target h : float) (ys : list float),
     Doubles.tickN n target (h, ys)
     = (Doubles.addAll (Doubles.steps n h target) h,
        map (Doubles.addAll (Doubles.steps n h target)) ys)).
Proof.
  intros Hob Htb Hne Hocc. split; [|intros; apply Doubles_tickN_steps].
  revert g ob tb Hob Htb Hocc.
  induction n as [|n IH]; intros g ob tb Hob Htb Hocc.
  - exists ob, tb. simpl.
    split; [exact Hob|]. split; [exact Htb|]. split; [lia | discriminate].
  - destruct (tick_attached g o toy tgt nxt ob tb Hob Htb Hne Hocc)
      as (ob1 & tb1 & Hob1 & Htb1 & Hms & Hh & Hy).
    rewrite <- Hms in Hocc.
    destruct (IH _ ob1 tb1 Hob1 Htb1 Hocc) as (ob' & tb' & Hob' & Htb' & Hd & _).
    exists ob', tb'. simpl tickN.
    split; [exact Hob'|]. split; [exact Htb'|]. split; [lia|].
    intros Hn. injection Hn as ->. simpl in Hob', Htb'. split; congruence.
Qed.

(** The grabbed toy of the demo machine follows two ticks of the arm. *)
Lemma attached_toy_follows_extension_witness :
  exists ob tb ob' tb',
    heap demoGrabbed !! arm = Some ob /\
    heap demoGrabbed !! demoToy = Some tb /\
    heap (tickN 2 arm KeyH 10 None demoGrabbed) !! arm = Some ob' /\
    heap (tickN 2 arm KeyH 10 None demoGrabbed) !! demoToy = Some tb' /\
    o_y tb' - o_y tb = o_h ob' - o_h ob.
Proof.
  assert (heap demoGrabbed !! arm
          = Some (set_moveWith [Some demoToy] (createWorldObject 20 30))) as Harm
    by (vm_compute; reflexivity).
  assert (is_Some (heap demoGrabbed !! demoToy)) as [tb Htb]
    by (vm_compute; eexists; reflexivity).
  destruct (attached_toy_follows_extension 2 demoGrabbed arm demoToy 10 None
              _ tb Harm Htb ltac:(discriminate) ltac:(reflexivity))
    as ((ob' & tb' & Hob' & Htb' & Hd & _) & _).
  exists (set_moveWith [Some demoToy] (createWorldObject 20 30)), tb, ob', tb'.
  split_all; assumption.
Defined.

(** Claim C9 as stated fails on the code's doubles: the arm goes from
    h = 33 to h = 161 in thirteen ticks, an increase of 128, while a toy in
    its list goes from y = 154.225 (the nearest double,
    0x1.3473333333333p+7) to 0x1.1a3999999999ap+8, an increase of
    128 + 2^-45. *)
Lemma attached_toy_shift_rounds :
  Doubles.tickN 13 161 (33, [0x1.3473333333333p+7])%float
    = (161, [0x1.1a3999999999ap+8])%float /\
  Doubles.units 161 - Doubles.units 33 = 128 * 2 ^ 1074 /\
  Doubles.units 0x1.1a3999999999ap+8 - Doubles.units 0x1.3473333333333p+7
    = 128 * 2 ^ 1074 + 2 ^ 1029 /\
  Doubles.units 0x1.1a3999999999ap+8 - Doubles.units 0x1.3473333333333p+7
    <> Doubles.units 161 - Doubles.units 33.
Proof.
  split; [vm_compute; reflexivity|].
  split; [vm_compute; reflexivity|].
  split; [vm_compute; reflexivity|].
  vm_compute. discriminate.
Qed.

(** ** The turn guard *)

Lemma activateHoriBtn_no_turns (g : Game) :
  remainingTurns g <= 0 -> activateHoriBtn g = g.
Proof.
  intros Hle. unfold activateHoriBtn.
  destruct (Z.leb_spec (remainingTurns g) 0); [reflexivity | lia].
Qed.

(** The vertical button's press is refused while the button is locked. *)
Lemma onVertBtnDown_locked (g : Game) :
  b_locked (vertBtn g) = true -> onVertBtnDown g = g.
Proof. intros Hlocked. unfold onVertBtnDown. rewrite Hlocked. reflexivity. Qed.

(** Claim C1 against the code.  The horizontal button is kept locked while
    no turn is left ([activateHoriBtn] returns before it unlocks), and the
    sibling handler [onVertBtnDown] returns at once on a locked button; but
    [onHoriBtnDown] reads neither [g.remainingTurns] nor the lock.  So with
    no turn left and the button locked, a press on an idle rail is not the
    no-op the claim asks for: it arms a timer that drives the rail to the
    far bound, and the game is no longer what it was. *)
Theorem horizontal_press_ignores_the_lock (g : Game) (joint rail : WorldObject) :
  remainingTurns g <= 0 -> b_locked (horiBtn g) = true ->
  heap g !! armJoint = Some joint -> heap g !! vertRail = Some rail ->
  o_interval rail = None ->
  onHoriBtnDown g <> g /\
  heap (onHoriBtnDown g) !! vertRail
    = Some (set_interval (Some (nextTimer g)) rail) /\
  timers (onHoriBtnDown g) !! nextTimer g
    = Some {| t_obj := vertRail; t_key := KeyX;
              t_target := machineWidth g - o_w joint - 36;
              t_next := Some StopHoriBtnAndActivateVertBtn;
              t_period := 100 |} /\
  activateHoriBtn g = g /\
  (b_locked (vertBtn g) = true -> onVertBtnDown g = g).
Proof.
  intros Hle Hlocked Hjoint Hrail Hidle.
  assert (onHoriBtnDown g
          = schedule vertRail rail
              {| moveKey := KeyX; target := Some (machineWidth g - o_w joint - 36);
                 moveTime := None;
                 next := Some StopHoriBtnAndActivateVertBtn |}
              (removeClass "missed" arm g)) as Hpress.
  { unfold onHoriBtnDown, removeClass.
    rewrite heap_mutate_ne by discriminate. rewrite Hjoint.
    unfold moveObject. rewrite heap_mutate_ne by discriminate.
    rewrite Hrail, Hidle. reflexivity. }
  split; [|split; [|split; [|split]]].
  - intros Heq.
    assert (nextTimer (onHoriBtnDown g) = nextTimer g) as Hnext
      by (rewrite Heq; reflexivity).
    rewrite Hpress in Hnext. simpl in Hnext. lia.
  - rewrite Hpress. unfold schedule, removeClass. simpl.
    rewrite lookup_alter_eq, lookup_alter_ne by discriminate.
    rewrite Hrail. reflexivity.
  - rewrite Hpress. unfold schedule. simpl. rewrite lookup_insert_eq.
    reflexivity.
  - apply activateHoriBtn_no_turns. exact Hle.
  - apply onVertBtnDown_locked.
Qed.

(** The failing input: the freshly mounted machine has no turn and its
    horizontal button is locked, yet a press arms timer 2 on the rail. *)
Lemma horizontal_press_ignores_the_lock_witness :
  remainingTurns demoGame = 0 /\
  b_locked (horiBtn demoGame) = true /\
  onHoriBtnDown demoGame <> demoGame /\
  t_obj <$> timers (onHoriBtnDown demoGame) !! nextTimer demoGame
    = Some vertRail.
Proof.
  split; [vm_compute; reflexivity|]. split; [vm_compute; reflexivity|].
  pose proof (horizontal_press_ignores_the_lock demoGame
                (default (createWorldObject 0 0) (heap demoGame !! armJoint))
                (default (createWorldObject 0 0) (heap demoGame !! vertRail))
                ltac:(vm_compute; discriminate) ltac:(vm_compute; reflexivity)
                ltac:(vm_compute; reflexivity) ltac:(vm_compute; reflexivity)
                ltac:(vm_compute; reflexivity)) as (Hne & _ & Htimer & _).
  split; [exact Hne|]. rewrite Htimer. reflexivity.
Defined.

(** The failing input evaluated: timer 2 is armed toward x = 224, and its
    first tick moves the rail. *)
Lemma onHoriBtnDown_without_turns :
  remainingTurns demoGame = 0 /\
  b_locked (horiBtn demoGame) = true /\
  o_interval <$> heap demoGame !! vertRail = Some None /\
  o_interval <$> heap (onHoriBtnDown demoGame) !! vertRail = Some (Some 2%positive) /\
  timers demoGame !! 2%positive = None /\
  timers (onHoriBtnDown demoGame) !! 2%positive
    = Some {| t_obj := vertRail; t_key := KeyX; t_target := 224;
              t_next := Some StopHoriBtnAndActivateVertBtn; t_period := 100 |} /\
  o_x <$> heap (fire 2 (onHoriBtnDown demoGame)) !! vertRail = Some 10.
Proof. split_all; vm_compute; reflexivity. Qed.

(** ** Collecting a toy *)



(** The display slot of a toy 51 wide in a machine 300 wide, as the
    doubles give it: no whole number. *)
Lemma display_slot_of_odd_width : Doubles.centre 300 51 = 124.5%float.
Proof. vm_compute. reflexivity. Qed.




(** ** Attached lists *)

Lemma agree_same_heap {T : Type} (prj : WorldObject -> T) (g g1 g2 : Game) :
  heap g2 = heap g1 -> agree prj g g1 -> agree prj g g2.
Proof. intros Heq Hag a. rewrite Heq. apply Hag. Qed.

(** Peels one layer off a composition of the component's functions, none of
    which writes an attached list. *)
Ltac peel_moveWith :=
  lazymatch goal with
  | |- agree _ ?g ?g => apply agree_refl
  | |- agree _ _ (mutate _ _ _) =>
    eapply agree_trans; [|apply agree_mutate; intros ?; reflexivity]
  | |- agree _ _ (addClass _ _ _) => unfold addClass
  | |- agree _ _ (removeClass _ _ _) => unfold removeClass
  | |- agree _ _ (setRotateAngle _ _ _) => unfold setRotateAngle
  | |- agree _ _ (clearObjInterval _ _) =>
    eapply agree_trans; [|apply agree_clearObjInterval; auto with claw]
  | |- agree _ _ (stopHoriBtnAndActivateVertBtn _) =>
    eapply agree_trans;
    [|apply agree_stopHoriBtnAndActivateVertBtn; auto with claw]
  | |- agree _ _ (activateHoriBtn _) =>
    eapply agree_trans; [|apply agree_activateHoriBtn; auto with claw]
  | |- agree _ _ (moveObject _ _ _) =>
    eapply agree_trans; [|apply agree_moveObject; auto with claw]
  | |- agree _ _ (resumeMove _ _ _) =>
    eapply agree_trans; [|apply agree_resumeMove; auto with claw]
  | |- agree _ ?g (set_buttons _ _ ?x) =>
    apply (agree_same_heap _ g x); [reflexivity|]
  | |- agree _ ?g (set_turns _ _ ?x) =>
    apply (agree_same_heap _ g x); [reflexivity|]
  | |- agree _ ?g (set_posted _ ?x) =>
    apply (agree_same_heap _ g x); [reflexivity|]
  | |- agree _ ?g (set_targetToy _ ?x) =>
    apply (agree_same_heap _ g x); [reflexivity|]
  | |- agree _ ?g (set_collection _ _ _ _ ?x) =>
    apply (agree_same_heap _ g x); [reflexivity|]
  end.

Lemma getClosestToy_keeps_moveWith (g : Game) :
  agree o_moveWith g (getClosestToy g).
Proof.
  unfold getClosestToy.
  destruct (heap g !! armJoint) as [joint|]; [|apply agree_refl].
  simpl. destruct (sortByIndexDesc _) as [|[toy ob] rest]; [apply agree_refl|].
  repeat peel_moveWith.
Qed.

Lemma collectToy_keeps_moveWith (toy : positive) (cx cy : Z) (g : Game) :
  agree o_moveWith g (collectToy toy cx cy g).
Proof.
  unfold collectToy. destruct (heap g !! toy) as [ob|]; [|apply agree_refl].
  simpl. repeat peel_moveWith.
Qed.

Lemma dropToyTimeout_keeps_moveWith (g : Game) :
  agree o_moveWith g (dropToyTimeout g).
Proof.
  unfold dropToyTimeout. simpl.
  destruct (targetToy _) as [toy|]; repeat peel_moveWith.
Qed.

Lemma fire_keeps_moveWith (id : positive) (g : Game) :
  agree o_moveWith g (fire id g).
Proof.
  unfold fire. destruct (timers g !! id); [|apply agree_refl].
  apply tick_keeps_moveWith.
Qed.

Lemma setPassenger_unfold (v : option positive) (g : Game) :
  setPassenger v g
  = mutate arm (fun ob => set_moveWith (setFirst v (o_moveWith ob)) ob)
      (mutate armJoint (fun ob => set_moveWith (setFirst v (o_moveWith ob)) ob)
         (mutate vertRail (fun ob => set_moveWith (setFirst v (o_moveWith ob)) ob) g)).
Proof. reflexivity. Qed.

Lemma setPassenger_part (v : option positive) (g : Game) (a : positive) :
  a = vertRail \/ a = armJoint \/ a = arm ->
  o_moveWith <$> heap (setPassenger v g) !! a
  = (fun ob => setFirst v (o_moveWith ob)) <$> heap g !! a.
Proof.
  rewrite setPassenger_unfold.
  intros [-> | [-> | ->]];
    repeat first [rewrite heap_mutate_eq | rewrite heap_mutate_ne by discriminate];
    destruct (heap g !! _); reflexivity.
Qed.

Lemma setPassenger_other (v : option positive) (g : Game) (a : positive) :
  a <> vertRail -> a <> armJoint -> a <> arm ->
  heap (setPassenger v g) !! a = heap g !! a.
Proof.
  intros H1 H2 H3. rewrite setPassenger_unfold.
  rewrite !heap_mutate_ne by congruence. reflexivity.
Qed.

Lemma length_setFirst {A : Type} (v : A) (l : list A) :
  (length l <= 1)%nat -> setFirst v l = [v].
Proof. destruct l as [|x [|y l]]; simpl; intros; try reflexivity; lia. Qed.

(** The lists right after [setPassenger v]. *)
Lemma AttachInv_setPassenger (v : option positive) (g : Game) :
  AttachInv g ->
  AttachInv (setPassenger v g) /\
  o_moveWith <$> heap (setPassenger v g) !! vertRail = Some [v; Some armJoint] /\
  o_moveWith <$> heap (setPassenger v g) !! armJoint = Some [v] /\
  o_moveWith <$> heap (setPassenger v g) !! arm = Some [v].
Proof.
  intros ((rail & s & Hrail & Hrl) & (joint & Hjoint & Hjl) & (a & Ha & Hal) & Hrest).
  assert (o_moveWith <$> heap (setPassenger v g) !! vertRail
          = Some [v; Some armJoint]) as Hr'
    by (rewrite setPassenger_part by auto; rewrite Hrail; simpl; rewrite Hrl;
        reflexivity).
  assert (o_moveWith <$> heap (setPassenger v g) !! armJoint = Some [v]) as Hj'
    by (rewrite setPassenger_part by auto; rewrite Hjoint; simpl;
        rewrite length_setFirst by exact Hjl; reflexivity).
  assert (o_moveWith <$> heap (setPassenger v g) !! arm = Some [v]) as Ha'
    by (rewrite setPassenger_part by auto; rewrite Ha; simpl;
        rewrite length_setFirst by exact Hal; reflexivity).
  split; [|auto].
  apply fmap_Some in Hr' as (rail' & Hrail' & Hrl').
  apply fmap_Some in Hj' as (joint' & Hjoint' & Hjl').
  apply fmap_Some in Ha' as (a' & Ha2 & Hal').
  split; [exists rail', v; auto|].
  split; [exists joint'; rewrite <- Hjl'; auto|].
  split; [exists a'; rewrite <- Hal'; auto|].
  intros t ob Ht1 Ht2 Ht3. rewrite setPassenger_other by assumption.
  apply Hrest; assumption.
Qed.

Lemma AttachInv_agree (g g' : Game) :
  agree o_moveWith g g' -> AttachInv g -> AttachInv g'.
Proof.
  intros Hag ((rail & s & Hrail & Hrl) & (joint & Hjoint & Hjl) & (a & Ha & Hal) & Hrest).
  pose proof (Hag vertRail) as Hr. rewrite Hrail in Hr.
  pose proof (Hag armJoint) as Hj. rewrite Hjoint in Hj.
  pose proof (Hag arm) as Ha'. rewrite Ha in Ha'.
  apply fmap_Some in Hr as (rail' & Hrail' & Hrl').
  apply fmap_Some in Hj as (joint' & Hjoint' & Hjl').
  apply fmap_Some in Ha' as (a' & Ha2 & Hal').
  split; [exists rail', s; split; [exact Hrail' | congruence]|].
  split; [exists joint'; split; [exact Hjoint' | rewrite <- Hjl'; exact Hjl]|].
  split; [exists a'; split; [exact Ha2 | rewrite <- Hal'; exact Hal]|].
  intros t ob Ht1 Ht2 Ht3 Hob.
  pose proof (Hag t) as Hagt. rewrite Hob in Hagt.
  symmetry in Hagt. apply fmap_Some in Hagt as (ob0 & Hob0 & Heq).
  simpl in Heq. rewrite Heq. apply (Hrest t ob0); assumption.
Qed.

Lemma AttachInv_created (L : Layout) : AttachInv (created L).
Proof.
  unfold AttachInv, created. simpl.
  split; [eexists _, None; split; [reflexivity|reflexivity]|].
  split; [eexists; split; [reflexivity | simpl; lia]|].
  split; [eexists; split; [reflexivity | simpl; lia]|].
  intros t ob Ht1 Ht2 Ht3.
  rewrite !lookup_insert_ne by congruence. rewrite lookup_empty. discriminate.
Qed.

Lemma AttachInv_mount (L : Layout) : AttachInv (mount L).
Proof.
  apply (AttachInv_agree (created L)); [|apply AttachInv_created].
  unfold mount. apply agree_moveObject; auto with claw.
Qed.

Lemma AttachInv_createToy (toyType : string) (index x y w h : Z) (g : Game) :
  AttachInv g -> AttachInv (createToy toyType index x y w h g).
Proof.
  intros ((rail & s & Hrail & Hrl) & (joint & Hjoint & Hjl) & (a & Ha & Hal) & Hrest).
  assert (heap g !! fresh (dom (heap g)) = None) as Hfresh
    by (apply not_elem_of_dom, is_fresh).
  unfold AttachInv, createToy. simpl.
  split; [exists rail, s; split; [|exact Hrl];
          rewrite lookup_insert_ne by congruence; exact Hrail|].
  split; [exists joint; split; [|exact Hjl];
          rewrite lookup_insert_ne by congruence; exact Hjoint|].
  split; [exists a; split; [|exact Hal];
          rewrite lookup_insert_ne by congruence; exact Ha|].
  intros t ob Ht1 Ht2 Ht3.
  destruct (decide (fresh (dom (heap g)) = t)) as [<- | Hne].
  - rewrite lookup_insert_eq. intros [= <-]. reflexivity.
  - rewrite lookup_insert_ne by exact Hne. apply Hrest; assumption.
Qed.

Lemma grabToy_moveWith (deg : Z) (toy : positive) (g : Game) :
  targetToy g = Some toy ->
  agree o_moveWith (setPassenger (Some toy) g) (grabToy deg g).
Proof.
  intros Htarget. unfold grabToy. rewrite Htarget. repeat peel_moveWith.
Qed.

Lemma dropToy_moveWith (toy : positive) (g : Game) :
  targetToy g = Some toy -> is_Some (heap g !! toy) ->
  exists g3, dropToy g = setPassenger None g3 /\ agree o_moveWith g g3.
Proof.
  intros Htarget [ob Hob]. unfold dropToy.
  change (targetToy (addClass "open" arm g)) with (targetToy g).
  rewrite Htarget.
  assert (is_Some (heap (addClass "open" arm g) !! toy)) as [ob' Hob'].
  { unfold addClass. destruct (decide (arm = toy)) as [<- | Hne].
    - rewrite heap_mutate_eq, Hob. eexists. reflexivity.
    - rewrite heap_mutate_ne by exact Hne. eauto. }
  rewrite Hob'. eexists. split; [reflexivity|]. repeat peel_moveWith.
Qed.

Lemma AttachInv_grabToy (deg : Z) (g : Game) :
  AttachInv g -> AttachInv (grabToy deg g).
Proof.
  intros Hinv. destruct (targetToy g) as [toy|] eqn:Htarget.
  - apply (AttachInv_agree (setPassenger (Some toy) g));
      [apply grabToy_moveWith; exact Htarget|].
    apply AttachInv_setPassenger. exact Hinv.
  - apply (AttachInv_agree g); [|exact Hinv].
    unfold grabToy. rewrite Htarget. repeat peel_moveWith.
Qed.

Lemma AttachInv_dropToy (g : Game) : AttachInv g -> AttachInv (dropToy g).
Proof.
  intros Hinv. unfold dropToy.
  change (targetToy (addClass "open" arm g)) with (targetToy g).
  assert (AttachInv (addClass "open" arm g)) as Hopen
    by (apply (AttachInv_agree g); [repeat peel_moveWith | exact Hinv]).
  destruct (targetToy g) as [toy|]; [|exact Hopen].
  destruct (heap (addClass "open" arm g) !! toy) as [ob|]; [|exact Hopen].
  apply AttachInv_setPassenger.
  eapply AttachInv_agree; [|exact Hopen]. repeat peel_moveWith.
Qed.

Lemma AttachInv_step (e : Event) (g : Game) :
  AttachInv g -> AttachInv (step e g).
Proof.
  intros Hinv. destruct e; simpl.
  - apply (AttachInv_agree g); [|exact Hinv]. unfold onHoriBtnDown. simpl.
    case_lookup; repeat peel_moveWith.
  - apply (AttachInv_agree g); [|exact Hinv]. unfold onHoriBtnUp.
    repeat peel_moveWith.
  - apply (AttachInv_agree g); [|exact Hinv]. unfold onVertBtnDown.
    destruct (b_locked (vertBtn g)); repeat peel_moveWith.
  - apply (AttachInv_agree g); [|exact Hinv]. unfold onVertBtnUp. simpl.
    eapply agree_trans; [|apply getClosestToy_keeps_moveWith].
    repeat peel_moveWith.
  - apply (AttachInv_agree g); [apply fire_keeps_moveWith | exact Hinv].
  - apply (AttachInv_agree g); [repeat peel_moveWith | exact Hinv].
  - apply (AttachInv_agree g); [repeat peel_moveWith | exact Hinv].
  - apply AttachInv_grabToy. exact Hinv.
  - apply AttachInv_dropToy. exact Hinv.
  - apply (AttachInv_agree g);
      [apply dropToyTimeout_keeps_moveWith | exact Hinv].
  - destruct (decide (toy ∈ toyEls g)); [|exact Hinv].
    apply (AttachInv_agree g); [apply collectToy_keeps_moveWith | exact Hinv].
  - destruct (decide (toyId ∈ requests g)); [|exact Hinv].
    apply (AttachInv_agree g); [|exact Hinv]. unfold collectResolved.
    repeat peel_moveWith.
  - exact Hinv.
  - apply AttachInv_createToy. exact Hinv.
Qed.

(** Claim C4, as the code has it: at all times the rail's attached list has
    two slots, the second holding the joint, and the joint's and the arm's
    lists have at most one slot, while no other object has any; attaching
    writes the targeted toy into the first slot of all three lists, so the
    rail then holds the toy and the joint; detaching overwrites that first
    slot with null on all three and leaves the joint in the rail's list. *)
Theorem attached_lists_invariant (g : Game) :
  reachable g ->
  AttachInv g /\
  (forall toy deg,
     targetToy g = Some toy ->
     o_moveWith <$> heap (grabToy deg g) !! vertRail
       = Some [Some toy; Some armJoint] /\
     o_moveWith <$> heap (grabToy deg g) !! armJoint = Some [Some toy] /\
     o_moveWith <$> heap (grabToy deg g) !! arm = Some [Some toy]) /\
  (forall toy,
     targetToy g = Some toy -> is_Some (heap g !! toy) ->
     o_moveWith <$> heap (dropToy g) !! vertRail = Some [None; Some armJoint] /\
     o_moveWith <$> heap (dropToy g) !! armJoint = Some [None] /\
     o_moveWith <$> heap (dropToy g) !! arm = Some [None]).
Proof.
  intros Hreach.
  assert (AttachInv g) as Hinv.
  { induction Hreach as [L | e g _ IH];
      [apply AttachInv_mount | apply AttachInv_step; exact IH]. }
  split; [exact Hinv|]. split.
  - intros toy deg Htarget.
    pose proof (grabToy_moveWith deg toy g Htarget) as Hag.
    rewrite !Hag.
    apply (AttachInv_setPassenger (Some toy) g Hinv).
  - intros toy Htarget Htoy.
    destruct (dropToy_moveWith toy g Htarget Htoy) as (g3 & -> & Hag).
    apply (AttachInv_setPassenger None g3).
    apply (AttachInv_agree g); assumption.
Qed.

(** The demo states are states of the session. *)
Lemma demoTargeted_reachable : reachable demoTargeted.
Proof.
  apply (reach_step VertUp), (reach_step (Spawn "bear" 0 0 200 50 50)), reach_mount.
Qed.

(** The lists of the demo machine when the claw closes on the toy. *)
Lemma attached_lists_invariant_witness :
  o_moveWith <$> heap (grabToy 45 demoTargeted) !! vertRail
  = Some [Some demoToy; Some armJoint].
Proof.
  exact (proj1 (proj1 (proj2 (attached_lists_invariant demoTargeted
                                demoTargeted_reachable))
                  demoToy 45 ltac:(vm_compute; reflexivity))).
Defined.

(** Claim C4 as stated fails: once the toy is grabbed the rail's list holds
    two objects, the toy and the joint, and after the drop the arm's list
    is not empty but holds one null slot. *)
Lemma rail_holds_two_objects :
  reachable demoGrabbed /\
  held <$> (o_moveWith <$> heap demoGrabbed !! vertRail)
    = Some [demoToy; armJoint] /\
  ~ (forall a ob, heap demoGrabbed !! a = Some ob ->
                  (length (held (o_moveWith ob)) <= 1)%nat) /\
  o_moveWith <$> heap (dropToy demoGrabbed) !! arm = Some [None].
Proof.
  split; [apply (reach_step (Grab 45)), demoTargeted_reachable|].
  split; [vm_compute; reflexivity|].
  split; [|vm_compute; reflexivity].
  intros Hall.
  assert (is_Some (heap demoGrabbed !! vertRail)) as [rail Hrail]
    by (vm_compute; eexists; reflexivity).
  pose proof (Hall vertRail rail Hrail) as Hlen.
  assert (held <$> (o_moveWith <$> heap demoGrabbed !! vertRail)
          = Some [demoToy; armJoint]) as Hheld by (vm_compute; reflexivity).
  rewrite Hrail in Hheld. simpl in Hheld. injection Hheld as Hheld.
  rewrite Hheld in Hlen. simpl in Hlen. lia.
Qed.

(** * Further properties of the component *)

(** ** The grid of the toys *)

(** For a cell index from 0 on and a positive number of columns, the column
    lies within the row, the row is not negative, row and column give the
    index back, and two indices with the same cell are the same; with four
    columns the indices below 12 fill three rows. *)
Theorem grid_cell_round_trip (i j n : Z) :
  0 <= i -> 0 <= j -> 0 < n ->
  0 <= calcX i n < n /\ 0 <= calcY i n /\
  calcY i n * n + calcX i n = i /\
  (calcX i n = calcX j n -> calcY i n = calcY j n -> i = j) /\
  (n = 4 -> i < 12 -> calcY i n < 3).
Proof.
  intros Hi Hj Hn. unfold calcX, calcY.
  rewrite !Z.rem_mod_nonneg by lia.
  pose proof (Z.mod_pos_bound i n Hn) as Hbi.
  pose proof (Z.div_mod i n ltac:(lia)) as Hdi.
  pose proof (Z.div_mod j n ltac:(lia)) as Hdj.
  assert (0 <= i / n) by (apply Z.div_pos; lia).
  split; [lia|]. split; [lia|]. split; [lia|]. split.
  - intros Hx Hy. rewrite Hx, Hy in Hdi. lia.
  - intros -> Hlt. apply Z.div_lt_upper_bound; lia.
Qed.

(** Index 9 of the mount effect is the second cell of the third row. *)
Lemma grid_cell_round_trip_witness :
  calcY 9 4 * 4 + calcX 9 4 = 9 /\ calcX 9 4 = 1 /\ calcY 9 4 = 2.
Proof.
  pose proof (grid_cell_round_trip 9 9 4 ltac:(lia) ltac:(lia) ltac:(lia))
    as (_ & _ & Hback & _).
  split; [exact Hback | split; reflexivity].
Defined.

(** ** Predicates closed under the writes of the component

    Every function of the component changes the game through a handful of
    writes.  A predicate that survives each of these writes holds in every
    state of the session. *)

Lemma keeps_interval_addKey (k : MoveKey) (d : Z) : keeps o_interval (addKey k d).
Proof. intros ob. destruct k; reflexivity. Qed.

Section Closed.
Variable P : Game -> Prop.

(** The writes of the movement scheduler. *)
Hypothesis P_mutate :
  forall o f g, keeps o_interval f -> P g -> P (mutate o f g).
Hypothesis P_release :
  forall o g, P g -> P (mutate o (set_interval None) g).
Hypothesis P_clear : forall o g, P g -> P (clearObjInterval o g).
Hypothesis P_schedule :
  forall o ob opts g,
    heap g !! o = Some ob -> o_interval ob = None -> P g ->
    P (schedule o ob opts g).
Hypothesis P_calls : forall c g, P g -> P (set_calls c g).
Hypothesis P_hori :
  forall hb g,
    b_active hb = negb (b_locked hb) -> P g -> P (set_buttons hb (vertBtn g) g).
Hypothesis P_vert :
  forall vb g,
    b_active vb = negb (b_locked vb) -> P g -> P (set_buttons (horiBtn g) vb g).
Hypothesis P_turnUsed :
  forall b g, P g -> P (set_turns b (remainingTurns g) g).

Lemma closed_stopHoriBtnAndActivateVertBtn (g : Game) :
  P g -> P (stopHoriBtnAndActivateVertBtn g).
Proof.
  intros Hg. unfold stopHoriBtnAndActivateVertBtn.
  set (x := mutate armJoint (set_interval None) g).
  change (P (set_buttons (deactivateBtn (horiBtn g))
               (vertBtn (set_buttons (horiBtn x) (activateBtn (vertBtn g)) x))
               (set_buttons (horiBtn x) (activateBtn (vertBtn g)) x))).
  apply P_hori; [reflexivity|]. apply P_vert; [reflexivity|].
  apply P_release. exact Hg.
Qed.

Lemma closed_activateHoriBtn (g : Game) : P g -> P (activateHoriBtn g).
Proof.
  intros Hg. unfold activateHoriBtn.
  destruct (remainingTurns g <=? 0); [exact Hg|]. simpl.
  do 3 apply P_clear.
  set (x := set_turns false (remainingTurns g) g).
  change (P (set_buttons (activateBtn (horiBtn x)) (vertBtn x) x)).
  apply P_hori; [reflexivity|]. apply P_turnUsed. exact Hg.
Qed.

Lemma closed_runCallback (k : Callback) (g : Game) :
  P g -> P (runCallback k g).
Proof.
  intros Hg. destruct k as [| restY | restY | n]; unfold runCallback; cbv zeta.
  - apply closed_stopHoriBtnAndActivateVertBtn. exact Hg.
  - destruct (heap (mutate vertRail (set_interval None) g) !! vertRail)
      as [ob|] eqn:Hob; [|apply P_release; exact Hg].
    apply P_schedule; [exact Hob | | apply P_release; exact Hg].
    rewrite heap_mutate_eq in Hob.
    destruct (heap g !! vertRail); [|discriminate].
    injection Hob as <-. reflexivity.
  - apply closed_activateHoriBtn.
    apply P_mutate; [intros ob; reflexivity|].
    apply P_mutate; [intros ob; reflexivity|]. exact Hg.
  - exact Hg.
Qed.

Lemma closed_callNext (nxt : option Callback) (g : Game) :
  P g -> P (callNext nxt g).
Proof.
  intros Hg. destruct nxt as [k|]; simpl; [|exact Hg].
  apply closed_runCallback, P_calls. exact Hg.
Qed.

Lemma closed_moveObject (o : positive) (opts : MoveOpts) (g : Game) :
  P g -> P (moveObject o opts g).
Proof.
  intros Hg. unfold moveObject.
  destruct (heap g !! o) as [ob|] eqn:Hob; [|exact Hg].
  destruct (o_interval ob) eqn:Hid.
  - apply closed_callNext, P_clear. exact Hg.
  - apply P_schedule; assumption.
Qed.

Lemma closed_resumeMove (o : positive) (opts : MoveOpts) (g : Game) :
  P g -> P (resumeMove o opts g).
Proof.
  intros Hg. unfold resumeMove. apply closed_moveObject, P_release. exact Hg.
Qed.

Lemma closed_propagate (k : MoveKey) (d : Z) (ms : list (option positive))
    (g : Game) :
  P g -> P (propagate k d ms g).
Proof.
  revert g. induction ms as [|m ms IH]; intros g Hg; [exact Hg|].
  rewrite propagate_cons. apply IH. destruct m as [b|]; [|exact Hg].
  apply P_mutate; [apply keeps_interval_addKey | exact Hg].
Qed.

Lemma closed_tick (o : positive) (k : MoveKey) (tgt : Z)
    (nxt : option Callback) (g : Game) :
  P g -> P (tick o k tgt nxt g).
Proof.
  intros Hg. unfold tick. destruct (heap g !! o) as [ob|]; [|exact Hg].
  simpl. destruct (shouldMove (getKey k ob) tgt).
  - apply closed_propagate, P_mutate; [apply keeps_interval_addKey | exact Hg].
  - apply closed_callNext, P_clear. exact Hg.
Qed.

Lemma closed_fire (id : positive) (g : Game) : P g -> P (fire id g).
Proof.
  intros Hg. unfold fire. destruct (timers g !! id); [|exact Hg].
  apply closed_tick. exact Hg.
Qed.

Lemma closed_fireN (n : nat) (id : positive) (g : Game) :
  P g -> P (fireN n id g).
Proof.
  revert g. induction n as [|n IH]; intros g Hg; [exact Hg|].
  simpl. apply IH, closed_fire. exact Hg.
Qed.

Lemma closed_setPassenger (v : option positive) (g : Game) :
  P g -> P (setPassenger v g).
Proof.
  intros Hg. rewrite setPassenger_unfold.
  do 3 (apply P_mutate; [intros ob; reflexivity|]). exact Hg.
Qed.

Lemma closed_grabToy (deg : Z) (g : Game) : P g -> P (grabToy deg g).
Proof.
  intros Hg. unfold grabToy, addClass, setRotateAngle.
  destruct (targetToy g) as [toy|].
  - do 2 (apply P_mutate; [intros ob; reflexivity|]).
    apply closed_setPassenger. exact Hg.
  - apply P_mutate; [intros ob; reflexivity | exact Hg].
Qed.

Lemma closed_dropToy (g : Game) : P g -> P (dropToy g).
Proof.
  intros Hg. unfold dropToy.
  assert (P (addClass "open" arm g)) as Hopen
    by (apply P_mutate; [intros ob; reflexivity | exact Hg]).
  destruct (targetToy (addClass "open" arm g)) as [toy|]; [|exact Hopen].
  destruct (heap (addClass "open" arm g) !! toy) as [ob|]; [|exact Hopen].
  apply closed_setPassenger, closed_moveObject.
  apply P_mutate; [intros x; reflexivity | exact Hopen].
Qed.

Lemma closed_onHoriBtnDown (g : Game) : P g -> P (onHoriBtnDown g).
Proof.
  intros Hg. unfold onHoriBtnDown.
  assert (P (removeClass "missed" arm g)) as Hrm
    by (apply P_mutate; [intros ob; reflexivity | exact Hg]).
  destruct (heap (removeClass "missed" arm g) !! armJoint); [|exact Hrm].
  apply closed_moveObject. exact Hrm.
Qed.

Lemma closed_onHoriBtnUp (g : Game) : P g -> P (onHoriBtnUp g).
Proof.
  intros Hg. unfold onHoriBtnUp.
  apply closed_stopHoriBtnAndActivateVertBtn, P_clear. exact Hg.
Qed.

Lemma closed_onVertBtnDown (g : Game) : P g -> P (onVertBtnDown g).
Proof.
  intros Hg. unfold onVertBtnDown.
  destruct (b_locked (vertBtn g)); [exact Hg|].
  apply closed_moveObject. exact Hg.
Qed.

(** The writes of the session around the scheduler. *)
Hypothesis P_turns : forall b n g, P g -> P (set_turns b n g).
Hypothesis P_posted : forall v g, P g -> P (set_posted v g).
Hypothesis P_untarget : forall g, P g -> P (set_targetToy None g).
Hypothesis P_target :
  forall t g,
    t ∈ toyEls g -> is_Some (heap g !! t) -> P g -> P (set_targetToy (Some t) g).
Hypothesis P_arrow :
  forall b g,
    P g ->
    P (set_collection (collectedNumber g) b (collectionBox g) (requests g) g).
Hypothesis P_collect :
  forall w ty g,
    P g ->
    P (set_collection (collectedNumber g + 1) (collectionArrow g)
         (collectionBox g ++ [w]) (ty :: requests g) g).
Hypothesis P_spawn :
  forall toyType index x y w h g,
    P g -> P (createToy toyType index x y w h g).
Hypothesis P_created : forall L, P (created L).

Lemma closed_getClosestToy (g : Game) : P g -> P (getClosestToy g).
Proof.
  intros Hg. unfold getClosestToy.
  destruct (heap g !! armJoint) as [joint|]; [|exact Hg]. simpl.
  pose proof (sortByIndexDesc_head (overlappedToys g (clawOf g joint))) as Hhead.
  destruct (sortByIndexDesc (overlappedToys g (clawOf g joint)))
    as [|[toy ob] rest]; [exact Hg|].
  destruct Hhead as [Htop _].
  apply elem_of_overlappedToys in Htop as (Hin & Hob & _).
  apply P_target.
  - exact Hin.
  - unfold mutate. simpl. rewrite !lookup_alter_eq, Hob. eexists. reflexivity.
  - do 2 (apply P_mutate; [intros x; reflexivity|]). exact Hg.
Qed.

Lemma closed_onVertBtnUp (g : Game) : P g -> P (onVertBtnUp g).
Proof.
  intros Hg. unfold onVertBtnUp. apply closed_getClosestToy.
  set (x := clearObjInterval armJoint g).
  change (P (set_buttons (horiBtn x) (deactivateBtn (vertBtn x)) x)).
  apply P_vert; [reflexivity|]. apply P_clear. exact Hg.
Qed.

Lemma closed_dropToyTimeout (g : Game) : P g -> P (dropToyTimeout g).
Proof.
  intros Hg. unfold dropToyTimeout.
  set (g4 := activateHoriBtn _).
  assert (P g4) as H4.
  { apply closed_activateHoriBtn, P_posted, P_turns.
    apply P_mutate; [intros ob; reflexivity | exact Hg]. }
  destruct (targetToy g4) as [toy|]; [|exact H4].
  apply P_untarget.
  set (x := addClass "selected" toy g4).
  change (P (set_collection (collectedNumber x) true (collectionBox x)
               (requests x) x)).
  apply P_arrow. apply P_mutate; [intros ob; reflexivity | exact H4].
Qed.

Lemma closed_collectToy (toy : positive) (cx cy : Z) (g : Game) :
  P g -> P (collectToy toy cx cy g).
Proof.
  intros Hg. unfold collectToy.
  destruct (heap g !! toy) as [ob|]; [|exact Hg].
  cbv zeta. apply P_collect. unfold addClass, removeClass.
  do 6 (apply P_mutate; [intros x; reflexivity|]). exact Hg.
Qed.

Lemma closed_mount (L : Layout) : P (mount L).
Proof. unfold mount. apply closed_moveObject, P_created. Qed.

Lemma closed_step (e : Event) (g : Game) : P g -> P (step e g).
Proof.
  intros Hg. destruct e; simpl.
  - apply closed_onHoriBtnDown; exact Hg.
  - apply closed_onHoriBtnUp; exact Hg.
  - apply closed_onVertBtnDown; exact Hg.
  - apply closed_onVertBtnUp; exact Hg.
  - apply closed_fire; exact Hg.
  - apply closed_moveObject; exact Hg.
  - apply closed_resumeMove; exact Hg.
  - apply closed_grabToy; exact Hg.
  - apply closed_dropToy; exact Hg.
  - apply closed_dropToyTimeout; exact Hg.
  - destruct (decide (toy ∈ toyEls g)); [|exact Hg].
    apply closed_collectToy; exact Hg.
  - destruct (decide (toyId ∈ requests g)); [|exact Hg].
    apply P_posted; exact Hg.
  - apply P_turns; exact Hg.
  - apply P_spawn; exact Hg.
Qed.

Lemma closed_reachable (g : Game) : reachable g -> P g.
Proof.
  intros Hreach. induction Hreach as [L | e g _ IH];
    [apply closed_mount | apply closed_step; exact IH].
Qed.
End Closed.

(** ** Timers *)

Lemma TimersInv_mutate (o : positive) (f : WorldObject -> WorldObject)
    (g : Game) :
  keeps o_interval f -> TimersInv g -> TimersInv (mutate o f g).
Proof.
  intros Hk (Hdom & Hfresh & Hheld).
  split; [exact Hdom|]. split; [exact Hfresh|].
  intros a ob id Hob Hid.
  destruct (decide (o = a)) as [<- | Hne].
  - rewrite heap_mutate_eq in Hob.
    destruct (heap g !! o) as [ob0|] eqn:Hob0; [|discriminate].
    injection Hob as <-. rewrite Hk in Hid. apply (Hheld o ob0 id Hob0 Hid).
  - rewrite heap_mutate_ne in Hob by exact Hne. apply (Hheld a ob id Hob Hid).
Qed.

Lemma TimersInv_release (o : positive) (g : Game) :
  TimersInv g -> TimersInv (mutate o (set_interval None) g).
Proof.
  intros (Hdom & Hfresh & Hheld).
  split; [exact Hdom|]. split; [exact Hfresh|].
  intros a ob id Hob Hid.
  destruct (decide (o = a)) as [<- | Hne].
  - rewrite heap_mutate_eq in Hob.
    destruct (heap g !! o); [|discriminate].
    injection Hob as <-. discriminate.
  - rewrite heap_mutate_ne in Hob by exact Hne. apply (Hheld a ob id Hob Hid).
Qed.

Lemma TimersInv_clear (o : positive) (g : Game) :
  TimersInv g -> TimersInv (clearObjInterval o g).
Proof.
  intros Hinv. unfold clearObjInterval.
  destruct (heap g !! o) as [ob0|] eqn:Hob0; [|exact Hinv].
  destruct (o_interval ob0) as [id0|] eqn:Hid0; [|exact Hinv].
  destruct Hinv as (Hdom & Hfresh & Hheld).
  destruct (Hheld o ob0 id0 Hob0 Hid0) as (tm0 & Htm0 & Howner0).
  split; [|split].
  - simpl. rewrite dom_delete_L, Hdom. reflexivity.
  - simpl. intros id Hin. rewrite dom_delete_L in Hin.
    apply elem_of_difference in Hin as [Hin _]. apply Hfresh. exact Hin.
  - intros a ob id Hob Hid. simpl.
    destruct (decide (o = a)) as [<- | Hne].
    + rewrite heap_mutate_eq in Hob. simpl in Hob. rewrite Hob0 in Hob.
      injection Hob as <-. discriminate.
    + rewrite heap_mutate_ne in Hob by exact Hne. simpl in Hob.
      destruct (Hheld a ob id Hob Hid) as (tm & Htm & Howner).
      exists tm. split; [|exact Howner].
      rewrite lookup_delete_ne; [exact Htm|].
      intros ->. rewrite Htm0 in Htm. injection Htm as <-. congruence.
Qed.

Lemma TimersInv_schedule (o : positive) (ob : WorldObject) (opts : MoveOpts)
    (g : Game) :
  heap g !! o = Some ob -> o_interval ob = None -> TimersInv g ->
  TimersInv (schedule o ob opts g).
Proof.
  intros Hob0 _ (Hdom & Hfresh & Hheld). unfold schedule.
  split; [|split].
  - simpl. rewrite dom_insert_L, Hdom. reflexivity.
  - simpl. intros id Hin. rewrite dom_insert_L in Hin.
    apply elem_of_union in Hin as [Hin | Hin].
    + apply elem_of_singleton in Hin as ->. lia.
    + specialize (Hfresh id Hin). lia.
  - intros a x id Hx Hid. simpl.
    destruct (decide (o = a)) as [<- | Hne].
    + rewrite heap_mutate_eq in Hx. simpl in Hx. rewrite Hob0 in Hx.
      injection Hx as <-. simpl in Hid. injection Hid as <-.
      rewrite lookup_insert_eq. eexists. split; reflexivity.
    + rewrite heap_mutate_ne in Hx by exact Hne. simpl in Hx.
      destruct (Hheld a x id Hx Hid) as (tm & Htm & Howner).
      exists tm. split; [|exact Howner].
      rewrite lookup_insert_ne; [exact Htm|].
      intros <-.
      assert (nextTimer g ∈ dom (timers g)) as Hin
        by (apply elem_of_dom; eauto).
      specialize (Hfresh _ Hin). lia.
Qed.

Lemma TimersInv_spawn (toyType : string) (index x y w h : Z) (g : Game) :
  TimersInv g -> TimersInv (createToy toyType index x y w h g).
Proof.
  intros (Hdom & Hfresh & Hheld).
  split; [exact Hdom|]. split; [exact Hfresh|].
  intros a ob id Hob Hid. unfold createToy in Hob. simpl in Hob.
  destruct (decide (fresh (dom (heap g)) = a)) as [<- | Hne].
  - rewrite lookup_insert_eq in Hob. injection Hob as <-. discriminate.
  - rewrite lookup_insert_ne in Hob by exact Hne.
    apply (Hheld a ob id Hob Hid).
Qed.

Lemma TimersInv_created (L : Layout) : TimersInv (created L).
Proof.
  split; [simpl; apply dom_empty_L|]. split.
  - simpl. intros id Hin. rewrite dom_empty_L in Hin. inversion Hin.
  - intros a ob id Hob Hid. unfold created in Hob. simpl in Hob.
    destruct (decide (arm = a)) as [<- | H3];
      [rewrite lookup_insert_eq in Hob; injection Hob as <-; discriminate|].
    rewrite lookup_insert_ne in Hob by exact H3.
    destruct (decide (vertRail = a)) as [<- | H2];
      [rewrite lookup_insert_eq in Hob; injection Hob as <-; discriminate|].
    rewrite lookup_insert_ne in Hob by exact H2.
    destruct (decide (armJoint = a)) as [<- | H1];
      [rewrite lookup_insert_eq in Hob; injection Hob as <-; discriminate|].
    rewrite lookup_insert_ne in Hob by exact H1.
    rewrite lookup_empty in Hob. discriminate.
Qed.

Lemma TimersInv_reachable (g : Game) : reachable g -> TimersInv g.
Proof.
  apply (closed_reachable TimersInv); try (intros; assumption).
  - apply TimersInv_mutate.
  - apply TimersInv_release.
  - apply TimersInv_clear.
  - apply TimersInv_schedule.
  - apply TimersInv_spawn.
  - apply TimersInv_created.
Qed.

Lemma timers_unmount (g : Game) (id : positive) :
  timers (unmount g) !! id
  = if decide (id ∈ intervals g) then None else timers g !! id.
Proof.
  unfold unmount. simpl.
  assert (forall X : gset positive,
            set_fold (fun id tm => delete id tm) (timers g) X !! id
            = if decide (id ∈ X) then None else timers g !! id) as Hfold;
    [|apply Hfold].
  apply (set_fold_ind_L
           (fun (acc : gmap positive Timer) (X : gset positive) =>
              acc !! id = if decide (id ∈ X) then None else timers g !! id)).
  - destruct (decide (id ∈ (∅ : gset positive))) as [Hin | _];
      [inversion Hin | reflexivity].
  - intros x X acc Hx IH.
    destruct (decide (x = id)) as [-> | Hne].
    + rewrite lookup_delete_eq.
      destruct (decide (id ∈ {[id]} ∪ X)) as [_ | Hn]; [reflexivity|].
      exfalso. apply Hn, elem_of_union. left. apply elem_of_singleton.
      reflexivity.
    + rewrite lookup_delete_ne by exact Hne. rewrite IH.
      destruct (decide (id ∈ X)) as [Hin | Hnin];
        destruct (decide (id ∈ {[x]} ∪ X)) as [Hin' | Hnin'];
        try reflexivity; exfalso.
      * apply Hnin', elem_of_union. right. exact Hin.
      * apply elem_of_union in Hin' as [Hx' | HX]; [|contradiction].
        apply elem_of_singleton in Hx'. congruence.
Qed.

(** In every state of the session [g.intervals] is exactly the set of live
    timers, every live handle is below the next handle, and a handle held
    by an object names a live timer of that object; so at the moment of the
    teardown, which clears the handles of [g.intervals], no interval timer
    is left alive and none of the timers armed so far can tick again.  The
    teardown does not reach the [setTimeout] callbacks that are pending: a
    [moveObject] that one of them runs afterwards on an object without a
    handle arms a new timer, which is alive. *)
Theorem teardown_clears_every_timer (g : Game) :
  reachable g ->
  TimersInv g /\
  timers (unmount g) = ∅ /\
  (forall id, fire id (unmount g) = unmount g) /\
  (forall o ob opts,
     heap g !! o = Some ob -> o_interval ob = None ->
     Moving (moveObject o opts (unmount g)) o (nextTimer g) (moveKey opts)
       (targetOf opts ob) (next opts) (o_moveWith ob)
       (getKey (moveKey opts) ob) (calls g)).
Proof.
  intros Hreach. pose proof (TimersInv_reachable g Hreach) as Hinv.
  assert (timers (unmount g) = ∅) as Hempty.
  { apply map_eq. intros id. rewrite timers_unmount, lookup_empty.
    destruct (decide (id ∈ intervals g)) as [_ | Hnot]; [reflexivity|].
    destruct Hinv as (Hdom & _). rewrite <- Hdom in Hnot.
    apply not_elem_of_dom. exact Hnot. }
  split; [exact Hinv|]. split; [exact Hempty|]. split.
  - intros id. apply fire_dead. rewrite Hempty. apply lookup_empty.
  - intros o ob opts Hob Hidle.
    exact (moving_start_any (unmount g) o opts ob Hob Hidle).
Qed.

(** The mounted machine runs the timer of its initial animation; none is
    left after the teardown, and a move of the arm started after it runs on
    a new timer. *)
Lemma teardown_clears_every_timer_witness :
  is_Some (timers demoGame !! 1%positive) /\
  timers (unmount demoGame) = ∅ /\
  is_Some
    (timers
       (moveObject arm
          {| moveKey := KeyH; target := Some 184; moveTime := None;
             next := None |} (unmount demoGame)) !! nextTimer demoGame).
Proof.
  split; [vm_compute; eexists; reflexivity|].
  destruct (teardown_clears_every_timer demoGame (reach_mount demoLayout))
    as (_ & Hempty & _ & Hlate).
  split; [exact Hempty|].
  destruct (Hlate arm (createWorldObject 20 30)
              {| moveKey := KeyH; target := Some 184; moveTime := None;
                 next := None |}
              ltac:(vm_compute; reflexivity) ltac:(reflexivity))
    as ((ob' & tm & _ & _ & _ & _ & Htm & _) & _).
  exists tm. exact Htm.
Defined.

(** ** Buttons *)

Lemma clearObjInterval_cases (o : positive) (g : Game) :
  clearObjInterval o g = g \/
  exists id,
    clearObjInterval o g
    = mutate o (set_interval None)
        (set_timers (delete id (timers g)) (nextTimer g) (intervals g ∖ {[id]}) g).
Proof.
  unfold clearObjInterval. destruct (heap g !! o) as [ob|]; [|left; reflexivity].
  destruct (o_interval ob) as [id|]; [|left; reflexivity].
  right. exists id. reflexivity.
Qed.

(** In every state of the session each button is marked active exactly
    when it is unlocked: the class and the lock are only ever written
    together. *)
Theorem buttons_active_iff_unlocked (g : Game) :
  reachable g ->
  b_active (horiBtn g) = negb (b_locked (horiBtn g)) /\
  b_active (vertBtn g) = negb (b_locked (vertBtn g)).
Proof.
  intros Hreach. change (ButtonsInv g). revert g Hreach.
  apply (closed_reachable ButtonsInv); try (intros; assumption).
  - intros o x Hx.
    destruct (clearObjInterval_cases o x) as [-> | [id ->]]; exact Hx.
  - intros hb x Hhb [_ Hv]. split; assumption.
  - intros vb x Hvb [Hh _]. split; assumption.
  - intros L. split; reflexivity.
Qed.

(** After the horizontal button is released on the mounted machine the
    vertical button is active and unlocked. *)
Lemma buttons_active_iff_unlocked_witness :
  b_active (vertBtn (onHoriBtnUp demoGame)) = true /\
  b_locked (vertBtn (onHoriBtnUp demoGame)) = false.
Proof.
  pose proof (buttons_active_iff_unlocked (onHoriBtnUp demoGame)
                (reach_step HoriUp _ (reach_mount demoLayout))) as [_ Hv].
  split; [rewrite Hv|]; reflexivity.
Defined.

(** ** The collection's books *)

Lemma CollectionInv_reachable (g : Game) : reachable g -> CollectionInv g.
Proof.
  apply (closed_reachable CollectionInv); try (intros; assumption).
  - intros o x Hx.
    destruct (clearObjInterval_cases o x) as [-> | [id ->]]; exact Hx.
  - intros w ty x [Hn Hbox]. split; simpl.
    + rewrite Hn. lia.
    + rewrite length_app, Hbox. simpl. lia.
  - intros L. split; reflexivity.
Qed.

(** In every state of the session the collected count is the number of
    collect requests sent so far and the number of entries in the
    collection box; in particular it is never negative. *)
Theorem collected_count_matches_requests (g : Game) :
  reachable g ->
  collectedNumber g = Z.of_nat (length (requests g)) /\
  length (collectionBox g) = length (requests g) /\
  0 <= collectedNumber g.
Proof.
  intros Hreach. destruct (CollectionInv_reachable g Hreach) as [Hn Hbox].
  split; [exact Hn|]. split; [exact Hbox | lia].
Qed.

Lemma reachable_run (es : list Event) (g : Game) :
  reachable g -> reachable (run es g).
Proof.
  revert g. induction es as [|e es IH]; intros g Hg; [exact Hg|].
  simpl. apply IH, reach_step. exact Hg.
Qed.

Lemma demoSelected_reachable : reachable demoSelected.
Proof.
  replace demoSelected
    with (run [Spawn "bear" 0 0 200 50 50; VertUp; Grab 45; Message 1; Drop;
               DropTimeout] demoGame)
    by (vm_compute; reflexivity).
  apply reachable_run, reach_mount.
Qed.

(** Two clicks on the selected toy of the demo machine: two requests. *)
Lemma collected_count_matches_requests_witness :
  collectedNumber
    (step (Click demoToy 125 175) (step (Click demoToy 125 175) demoSelected))
  = Z.of_nat
      (length
         (requests
            (step (Click demoToy 125 175)
               (step (Click demoToy 125 175) demoSelected)))).
Proof.
  exact (proj1 (collected_count_matches_requests _
                  (reach_step (Click demoToy 125 175) _
                     (reach_step (Click demoToy 125 175) _
                        demoSelected_reachable)))).
Defined.

(** ** The toy registry *)

Lemma agree_is_Some {T : Type} (prj : WorldObject -> T) (g g' : Game)
    (a : positive) :
  agree prj g g' -> (is_Some (heap g' !! a) <-> is_Some (heap g !! a)).
Proof.
  intros Hag. specialize (Hag a).
  destruct (heap g' !! a), (heap g !! a); simpl in Hag; try discriminate;
    split; intros [x Hx]; try discriminate; eauto.
Qed.

Lemma RegistryInv_agree (g g' : Game) :
  agree (fun _ => tt) g g' -> toyEls g' = toyEls g ->
  targetToy g' = targetToy g ->
  RegistryInv g -> RegistryInv g'.
Proof.
  intros Hag Htoys Htarget (Hparts & Hreg & Hnodup & Htar).
  unfold RegistryInv. rewrite Htoys, Htarget.
  split; [|split; [|split; assumption]].
  - intros c Hc. apply (agree_is_Some _ g g' c Hag). auto.
  - intros t Ht. destruct (Hreg t Ht) as [Hsome Hnot].
    split; [apply (agree_is_Some _ g g' t Hag) | ]; assumption.
Qed.

Lemma RegistryInv_spawn (toyType : string) (index x y w h : Z) (g : Game) :
  RegistryInv g -> RegistryInv (createToy toyType index x y w h g).
Proof.
  intros (Hparts & Hreg & Hnodup & Htar).
  assert (heap g !! fresh (dom (heap g)) = None) as Hfresh
    by (apply not_elem_of_dom, is_fresh).
  assert (forall a, is_Some (heap g !! a) ->
                    is_Some (<[fresh (dom (heap g)) := newToy toyType index x y w h]>
                               (heap g) !! a)) as Hkeep.
  { intros a [ob Hob]. rewrite lookup_insert_ne by congruence. eauto. }
  unfold RegistryInv, createToy. simpl.
  split; [|split; [|split]].
  - intros c Hc. apply Hkeep. auto.
  - intros t Ht. apply elem_of_app in Ht as [Ht | Ht].
    + destruct (Hreg t Ht) as [Hsome Hnot]. split; [apply Hkeep|]; assumption.
    + apply list_elem_of_singleton in Ht as ->.
      split; [rewrite lookup_insert_eq; eauto|].
      intros Hc. destruct (Hparts _ Hc) as [ob Hob]. congruence.
  - apply NoDup_app. split; [exact Hnodup|]. split; [|apply NoDup_singleton].
    intros t Ht Hnew. apply list_elem_of_singleton in Hnew as ->.
    destruct (Hreg _ Ht) as [[ob Hob] _]. congruence.
  - intros t Ht. apply elem_of_app. left. auto.
Qed.

Lemma RegistryInv_created (L : Layout) : RegistryInv (created L).
Proof.
  split; [|split; [|split]].
  - intros c Hc. unfold chain in Hc.
    apply elem_of_cons in Hc as [-> | Hc]; [eexists; reflexivity|].
    apply elem_of_cons in Hc as [-> | Hc]; [eexists; reflexivity|].
    apply list_elem_of_singleton in Hc as ->. eexists; reflexivity.
  - intros t Ht. inversion Ht.
  - apply NoDup_nil_2.
  - intros t Ht. discriminate.
Qed.

Lemma RegistryInv_reachable (g : Game) : reachable g -> RegistryInv g.
Proof.
  apply (closed_reachable RegistryInv); try (intros; assumption).
  - intros o f x _. apply RegistryInv_agree; try reflexivity.
    apply agree_mutate. intros ob. reflexivity.
  - intros o x. apply RegistryInv_agree; try reflexivity.
    apply agree_mutate. intros ob. reflexivity.
  - intros o x.
    destruct (clearObjInterval_cases o x) as [-> | [id ->]]; [auto|].
    apply RegistryInv_agree; try reflexivity.
    eapply agree_trans; [|apply agree_mutate; intros ob; reflexivity].
    apply agree_heap. reflexivity.
  - intros o ob opts x _ _. apply RegistryInv_agree; try reflexivity.
    apply agree_schedule. intros v ob'. reflexivity.
  - intros x (Hparts & Hreg & Hnodup & Htar).
    split; [exact Hparts|]. split; [exact Hreg|]. split; [exact Hnodup|].
    intros t Ht. discriminate.
  - intros t x Hin _ (Hparts & Hreg & Hnodup & Htar).
    split; [exact Hparts|]. split; [exact Hreg|]. split; [exact Hnodup|].
    intros t' Ht'. simpl in Ht'. injection Ht' as <-. exact Hin.
  - apply RegistryInv_spawn.
  - apply RegistryInv_created.
Qed.

(** In every state of the session the three machine parts are in the
    store, every registered toy is an object of the store other than the
    parts, no toy is registered twice, and the toy targeted, if any, is a
    registered toy; so the target always refers to an existing toy and
    never to a part of the machine. *)
Theorem target_is_a_registered_toy (g : Game) (t : positive) :
  reachable g -> targetToy g = Some t ->
  t ∈ toyEls g /\ is_Some (heap g !! t) /\
  t <> vertRail /\ t <> armJoint /\ t <> arm /\
  NoDup (toyEls g) /\
  is_Some (heap g !! vertRail) /\ is_Some (heap g !! armJoint) /\
  is_Some (heap g !! arm).
Proof.
  intros Hreach Htarget.
  destruct (RegistryInv_reachable g Hreach) as (Hparts & Hreg & Hnodup & Htar).
  pose proof (Htar t Htarget) as Hin.
  destruct (Hreg t Hin) as [Hsome Hnot].
  split; [exact Hin|]. split; [exact Hsome|].
  assert (forall c, c ∈ chain -> t <> c) as Hne by (intros c Hc ->; auto).
  unfold chain in *.
  split; [apply Hne; left|].
  split; [apply Hne; right; left|].
  split; [apply Hne; right; right; left|].
  split; [exact Hnodup|].
  split; [apply Hparts; left|].
  split; [apply Hparts; right; left | apply Hparts; right; right; left].
Qed.

(** The toy under the claw of the demo machine. *)
Lemma target_is_a_registered_toy_witness :
  demoToy ∈ toyEls demoTargeted /\ is_Some (heap demoTargeted !! demoToy).
Proof.
  pose proof (target_is_a_registered_toy demoTargeted demoToy
                demoTargeted_reachable ltac:(vm_compute; reflexivity))
    as (Hin & Hsome & _).
  split; assumption.
Defined.

(** ** Turns and notifications *)

(** Discharges the side goals of the closure lemmas for a predicate that
    does not look at what the write changes. *)
Ltac closed_by_frame :=
  try (intros; assumption);
  try (let o := fresh "o" in
       let x := fresh "x" in
       let Hx := fresh "Hx" in
       let i := fresh "i" in
       intros o x Hx;
       destruct (clearObjInterval_cases o x) as [-> | [i ->]]; exact Hx).

(** A whole number of magnitude up to 2^53 is a double. *)
Lemma roundDouble_safe (z : Z) :
  - 2 ^ 53 <= z <= 2 ^ 53 -> roundDouble z = z.
Proof.
  intros Hz. unfold roundDouble.
  destruct (Z.leb_spec (Z.log2 (Z.abs z) - 52) 0) as [_ | He]; [reflexivity|].
  assert (Z.abs z = 2 ^ 53) as Habs.
  { destruct (Z.eq_dec (Z.abs z) (2 ^ 53)) as [Heq | Hne]; [exact Heq|].
    exfalso.
    assert (0 < Z.abs z < 2 ^ 53) as Hlt.
    { split; [|lia]. destruct (Z.eq_dec (Z.abs z) 0) as [H0 | H0]; [|lia].
      rewrite H0 in He. simpl in He. lia. }
    pose proof (proj1 (Z.log2_lt_pow2 (Z.abs z) 53 (proj1 Hlt)) (proj2 Hlt)).
    lia. }
  clear He. change (2 ^ 53) with 9007199254740992 in *.
  assert (z = 9007199254740992 \/ z = - 9007199254740992) as [-> | ->] by lia;
    vm_compute; reflexivity.
Qed.

(** [roundDouble] against the kernel's doubles, where a count leaves the
    exact range: at -2^53 and at 2^60 taking one away changes nothing, and
    next to 2^53 the tie goes to the even mantissa. *)
Lemma roundDouble_as_doubles :
  subDouble (- 2 ^ 53) 1 = - 2 ^ 53 /\
  Doubles.units (-0x1p53 - 1)%float = subDouble (- 2 ^ 53) 1 * 2 ^ 1074 /\
  Doubles.units (-0x1.0000000000001p53 - 1)%float
    = subDouble (- 2 ^ 53 - 2) 1 * 2 ^ 1074 /\
  Doubles.units (0x1.0000000000001p53 - 1)%float
    = subDouble (2 ^ 53 + 2) 1 * 2 ^ 1074 /\
  Doubles.units (0x1p60 - 1)%float = subDouble (2 ^ 60) 1 * 2 ^ 1074.
Proof. split_all; vm_compute; reflexivity. Qed.

Lemma subDouble_safe (n : Z) :
  - 2 ^ 53 < n <= 2 ^ 53 -> subDouble n 1 = n - 1.
Proof. intros Hn. apply roundDouble_safe. lia. Qed.

Lemma step_turns (e : Event) (g : Game) :
  remainingTurns (step e g)
  = match e with
    | Message turns => turns
    | DropTimeout => subDouble (remainingTurns g) 1
    | _ => remainingTurns g
    end /\
  turnsCompleted (step e g)
  = match e with
    | DropTimeout => S (turnsCompleted g)
    | _ => turnsCompleted g
    end.
Proof.
  pose (P := fun x : Game =>
               remainingTurns x = remainingTurns g /\ posted x = posted g).
  assert (P g) as Hg by (split; reflexivity).
  assert (forall x, P x ->
            remainingTurns x = remainingTurns g /\
            turnsCompleted x = turnsCompleted g) as Hkeep
    by (intros x [Ht Hp]; unfold turnsCompleted; rewrite Hp; auto).
  destruct e; cbv beta iota delta [step].
  - apply Hkeep, (closed_onHoriBtnDown P); closed_by_frame.
  - apply Hkeep, (closed_onHoriBtnUp P); closed_by_frame.
  - apply Hkeep, (closed_onVertBtnDown P); closed_by_frame.
  - apply Hkeep, (closed_onVertBtnUp P); closed_by_frame.
  - apply Hkeep, (closed_fire P); closed_by_frame.
  - apply Hkeep, (closed_moveObject P); closed_by_frame.
  - apply Hkeep, (closed_resumeMove P); closed_by_frame.
  - apply Hkeep, (closed_grabToy P); closed_by_frame.
  - apply Hkeep, (closed_dropToy P); closed_by_frame.
  - unfold dropToyTimeout.
    set (g3 := set_posted _ _).
    assert (remainingTurns (activateHoriBtn g3)
              = subDouble (remainingTurns g) 1 /\
            posted (activateHoriBtn g3) = TURN_COMPLETE :: posted g)
      as [Hturns Hposted].
    { apply (closed_activateHoriBtn
               (fun x => remainingTurns x = subDouble (remainingTurns g) 1 /\
                         posted x = TURN_COMPLETE :: posted g));
        closed_by_frame.
      split; reflexivity. }
    unfold turnsCompleted.
    destruct (targetToy (activateHoriBtn g3)); simpl;
      (split; [exact Hturns|]); rewrite Hposted;
      rewrite filter_cons_True by reflexivity; reflexivity.
  - destruct (decide (toy ∈ toyEls g)); [|apply Hkeep; exact Hg].
    apply Hkeep, (closed_collectToy P); closed_by_frame.
  - destruct (decide (toyId ∈ requests g)); [|apply Hkeep; exact Hg].
    split; [reflexivity|]. unfold turnsCompleted, collectResolved. simpl.
    rewrite filter_cons_False by discriminate. reflexivity.
  - split; reflexivity.
  - apply Hkeep. split; reflexivity.
Qed.

(** Over any run of events one TURN_COMPLETE message is posted for each
    drop that comes to its end and for nothing else.  Unless the turn count
    comes in from outside during the run, and as long as it stays within
    the whole numbers a double counts exactly (from -2^53 to 2^53), it
    falls by exactly the number of these drops: no other event spends a
    turn, and the count is not kept from falling below zero.  At -2^53 the
    decrement rounds back and the count stays where it is. *)
Theorem turns_spent_are_reported (es : list Event) (g : Game) :
  turnsCompleted (run es g) = (dropsEnded es + turnsCompleted g)%nat /\
  (noMessage es = true ->
   remainingTurns g <= 2 ^ 53 ->
   - 2 ^ 53 <= remainingTurns g - Z.of_nat (dropsEnded es) ->
   remainingTurns (run es g) = remainingTurns g - Z.of_nat (dropsEnded es)) /\
  (remainingTurns g = - 2 ^ 53 ->
   remainingTurns (step DropTimeout g) = - 2 ^ 53).
Proof.
  split; [|split].
  - revert g. induction es as [|e es IH]; intros g; [reflexivity|].
    change (run (e :: es) g) with (run es (step e g)).
    rewrite IH. destruct (step_turns e g) as [_ ->].
    destruct e; simpl dropsEnded; lia.
  - revert g. induction es as [|e es IH]; intros g Hno Hhi Hlo.
    + simpl. lia.
    + change (run (e :: es) g) with (run es (step e g)).
      destruct (step_turns e g) as [Ht _].
      destruct e; try discriminate; simpl in Hno; simpl dropsEnded in *;
        try (rewrite (IH _ Hno) by (rewrite Ht; assumption);
             rewrite Ht; reflexivity).
      assert (remainingTurns (step DropTimeout g) = remainingTurns g - 1)
        as Hdec by (rewrite Ht; apply subDouble_safe; lia).
      rewrite (IH _ Hno) by (rewrite Hdec; lia).
      rewrite Hdec. lia.
  - intros Hmin. destruct (step_turns DropTimeout g) as [-> _].
    rewrite Hmin. vm_compute. reflexivity.
Qed.

(** A drop on the demo machine, which has no turn left: the count goes to
    -1 and one message is posted. *)
Lemma turns_spent_are_reported_witness :
  remainingTurns (run [Drop; DropTimeout] demoGrabbed) = -1 /\
  turnsCompleted (run [Drop; DropTimeout] demoGrabbed) = 1%nat.
Proof.
  destruct (turns_spent_are_reported [Drop; DropTimeout] demoGrabbed)
    as (Hp & Ht & _).
  split; [|exact Hp].
  exact (Ht eq_refl ltac:(vm_compute; discriminate)
            ltac:(vm_compute; discriminate)).
Defined.

(** ** Timers that lost their object *)

Lemma Orphan_mutate (id : positive) (tm : Timer) (o : positive)
    (f : WorldObject -> WorldObject) (g : Game) :
  keeps o_interval f -> Orphan id tm g -> Orphan id tm (mutate o f g).
Proof.
  intros Hk (Hlive & Hlt & Hfree).
  split; [exact Hlive|]. split; [exact Hlt|].
  intros a ob Hob.
  destruct (decide (o = a)) as [<- | Hne].
  - rewrite heap_mutate_eq in Hob.
    destruct (heap g !! o) as [ob0|] eqn:Hob0; [|discriminate].
    injection Hob as <-. rewrite Hk. apply (Hfree o ob0 Hob0).
  - rewrite heap_mutate_ne in Hob by exact Hne. apply (Hfree a ob Hob).
Qed.

Lemma Orphan_release (id : positive) (tm : Timer) (o : positive) (g : Game) :
  Orphan id tm g -> Orphan id tm (mutate o (set_interval None) g).
Proof.
  intros (Hlive & Hlt & Hfree).
  split; [exact Hlive|]. split; [exact Hlt|].
  intros a ob Hob.
  destruct (decide (o = a)) as [<- | Hne].
  - rewrite heap_mutate_eq in Hob.
    destruct (heap g !! o); [|discriminate].
    injection Hob as <-. discriminate.
  - rewrite heap_mutate_ne in Hob by exact Hne. apply (Hfree a ob Hob).
Qed.

Lemma Orphan_clear (id : positive) (tm : Timer) (o : positive) (g : Game) :
  Orphan id tm g -> Orphan id tm (clearObjInterval o g).
Proof.
  intros Horphan. unfold clearObjInterval.
  destruct (heap g !! o) as [ob0|] eqn:Hob0; [|exact Horphan].
  destruct (o_interval ob0) as [id0|] eqn:Hid0; [|exact Horphan].
  pose proof Horphan as (Hlive & Hlt & Hfree).
  assert (id0 <> id) as Hne0
    by (intros ->; apply (Hfree o ob0 Hob0); exact Hid0).
  apply Orphan_release.
  split; [simpl; rewrite lookup_delete_ne by exact Hne0; exact Hlive|].
  split; [exact Hlt | exact Hfree].
Qed.

Lemma Orphan_schedule (id : positive) (tm : Timer) (o : positive)
    (ob : WorldObject) (opts : MoveOpts) (g : Game) :
  heap g !! o = Some ob -> o_interval ob = None -> Orphan id tm g ->
  Orphan id tm (schedule o ob opts g).
Proof.
  intros Hob0 _ (Hlive & Hlt & Hfree). unfold schedule.
  split; [simpl; rewrite lookup_insert_ne by lia; exact Hlive|].
  split; [simpl; lia|].
  intros a x Hx.
  destruct (decide (o = a)) as [<- | Hne].
  - rewrite heap_mutate_eq in Hx. simpl in Hx. rewrite Hob0 in Hx.
    injection Hx as <-. simpl. intros [= Heq]. lia.
  - rewrite heap_mutate_ne in Hx by exact Hne. apply (Hfree a x Hx).
Qed.

Lemma Orphan_fire (id : positive) (tm : Timer) (id' : positive) (g : Game) :
  Orphan id tm g -> Orphan id tm (fire id' g).
Proof.
  apply (closed_fire (Orphan id tm)); try (intros; assumption).
  - apply Orphan_mutate.
  - apply Orphan_release.
  - apply Orphan_clear.
  - apply Orphan_schedule.
Qed.

(** The completion of a move clears the handle its object holds at that
    moment, not the timer that fires.  So a live timer whose handle no
    object holds is never cleared by the scheduler: once its attribute
    stands at the target it stays alive and calls its [next] again on
    every tick. *)
Theorem orphan_timer_never_stops (j : nat) (g : Game) (id : positive)
    (tm : Timer) (ob : WorldObject) :
  Orphan id tm g ->
  heap g !! t_obj tm = Some ob -> getKey (t_key tm) ob = t_target tm ->
  Orphan id tm (fireN j id g) /\
  calls (fireN j id g)
    = match t_next tm with
      | Some cb => replicate j cb ++ calls g
      | None => calls g
      end.
Proof.
  revert g ob. induction j as [|j IH]; intros g ob Horphan Hob Hat.
  - simpl. split; [exact Horphan|]. destruct (t_next tm); reflexivity.
  - simpl fireN.
    pose proof (Orphan_fire id tm id g Horphan) as Hnext.
    assert (fire id g
            = callNext (t_next tm) (clearObjInterval (t_obj tm) g)) as Hfire.
    { unfold fire. destruct Horphan as (-> & _).
      apply (tick_done _ _ _ _ _ ob Hob Hat). }
    assert (exists ob', heap (fire id g) !! t_obj tm = Some ob' /\
                        getKey (t_key tm) ob' = t_target tm) as (ob' & Hob' & Hat').
    { pose proof (agree_callNext (attr (keyAttr (t_key tm)))
                    ltac:(auto with claw) ltac:(auto with claw)
                    (t_next tm) (clearObjInterval (t_obj tm) g) (t_obj tm)) as Hc.
      pose proof (agree_clearObjInterval (attr (keyAttr (t_key tm)))
                    ltac:(auto with claw) (t_obj tm) g (t_obj tm)) as Hclr.
      rewrite <- Hfire in Hc. rewrite Hclr, Hob in Hc.
      destruct (heap (fire id g) !! t_obj tm) as [ob'|]; [|discriminate].
      exists ob'. split; [reflexivity|].
      simpl in Hc. injection Hc as Hc.
      rewrite getKey_attr, Hc, <- getKey_attr. exact Hat. }
    destruct (IH (fire id g) ob' Hnext Hob' Hat') as [Horph Hcalls].
    split; [exact Horph|]. rewrite Hcalls, Hfire, calls_callNext,
      calls_clearObjInterval.
    destruct (t_next tm) as [cb|]; [|reflexivity].
    rewrite replicate_S_end, <- app_assoc. reflexivity.
Qed.

Lemma Orphan_fireN (n : nat) (id : positive) (tm : Timer) (id' : positive)
    (g : Game) :
  Orphan id tm g -> Orphan id tm (fireN n id' g).
Proof.
  revert g. induction n as [|n IH]; intros g Hg; [exact Hg|].
  simpl. apply IH, Orphan_fire. exact Hg.
Qed.

(** Dropping the handle of a moving object orphans its timer. *)
Lemma Orphan_by_release (g : Game) (o id : positive) (ob : WorldObject) :
  TimersInv g -> heap g !! o = Some ob -> o_interval ob = Some id ->
  exists tm,
    timers g !! id = Some tm /\ t_obj tm = o /\
    Orphan id tm (mutate o (set_interval None) g).
Proof.
  intros (Hdom & Hfresh & Hheld) Hob Hid.
  destruct (Hheld o ob id Hob Hid) as (tm & Htm & Howner).
  exists tm. split; [exact Htm|]. split; [exact Howner|].
  split; [exact Htm|]. split; [apply Hfresh, elem_of_dom; eauto|].
  intros a x Hx Hax.
  destruct (decide (o = a)) as [<- | Hne].
  - rewrite heap_mutate_eq, Hob in Hx. injection Hx as <-. discriminate.
  - rewrite heap_mutate_ne in Hx by exact Hne.
    destruct (Hheld a x id Hx Hax) as (tm' & Htm' & Howner').
    rewrite Htm in Htm'. injection Htm' as <-. congruence.
Qed.

(** The horizontal button is released while the initial animation of the
    mounted machine runs: the joint's handle is dropped, its timer goes on
    to the rest height in nine ticks, and from then on every tick starts
    the rail's leg of the animation again. *)
Lemma orphan_timer_never_stops_witness :
  calls (fireN 3 1 (fireN 9 1 (onHoriBtnUp demoGame)))
  = [InitRail 84; InitRail 84; InitRail 84].
Proof.
  destruct (Orphan_by_release demoGame armJoint 1
              (set_interval (Some 1%positive) (createWorldObject 40 20))
              (TimersInv_reachable _ (reach_mount demoLayout))
              ltac:(vm_compute; reflexivity) ltac:(reflexivity))
    as (tm & Htm & _ & Horphan).
  assert (tm = {| t_obj := armJoint; t_key := KeyY; t_target := 84;
                  t_next := Some (InitRail 84); t_period := 50 |}) as ->
    by (vm_compute in Htm; injection Htm as <-; reflexivity).
  assert (Orphan 1 {| t_obj := armJoint; t_key := KeyY; t_target := 84;
                      t_next := Some (InitRail 84); t_period := 50 |}
            (onHoriBtnUp demoGame)) as Hup by exact Horphan.
  assert (is_Some (heap (fireN 9 1 (onHoriBtnUp demoGame)) !! armJoint))
    as [ob Hob] by (vm_compute; eexists; reflexivity).
  destruct (orphan_timer_never_stops 3 (fireN 9 1 (onHoriBtnUp demoGame)) 1 _ ob
              (Orphan_fireN 9 _ _ _ _ Hup) Hob
              ltac:(vm_compute in Hob; injection Hob as <-; reflexivity))
    as [_ Hcalls].
  rewrite Hcalls. vm_compute. reflexivity.
Defined.

(** [resumeMove] resets the handle without clearing the timer behind it:
    on an object that is moving, the timer of the move in flight stays
    alive with no object holding its handle, next to the timer of the new
    move. *)
Theorem resumeMove_leaves_old_timer (g : Game) (o id : positive)
    (ob : WorldObject) (opts : MoveOpts) :
  reachable g -> heap g !! o = Some ob -> o_interval ob = Some id ->
  exists tm,
    timers g !! id = Some tm /\ t_obj tm = o /\
    Orphan id tm (resumeMove o opts g) /\
    o_interval <$> heap (resumeMove o opts g) !! o = Some (Some (nextTimer g)) /\
    t_obj <$> timers (resumeMove o opts g) !! nextTimer g = Some o.
Proof.
  intros Hreach Hob Hid.
  destruct (TimersInv_reachable g Hreach) as (Hdom & Hfresh & Hheld).
  destruct (Hheld o ob id Hob Hid) as (tm & Htm & Howner).
  assert ((id < nextTimer g)%positive) as Hlt
    by (apply Hfresh, elem_of_dom; eauto).
  exists tm. split; [exact Htm|]. split; [exact Howner|].
  assert (resumeMove o opts g
          = schedule o (set_interval None ob) opts
              (mutate o (set_interval None) g)) as ->.
  { unfold resumeMove, moveObject. rewrite heap_mutate_eq, Hob. reflexivity. }
  unfold schedule. split; [|split].
  - split; [simpl; rewrite lookup_insert_ne by lia; exact Htm|].
    split; [simpl; lia|].
    intros a x Hx Hax.
    destruct (decide (o = a)) as [<- | Hne].
    + rewrite heap_mutate_eq in Hx. simpl in Hx.
      rewrite lookup_alter_eq, Hob in Hx. injection Hx as <-.
      simpl in Hax. injection Hax as Heq. lia.
    + rewrite heap_mutate_ne in Hx by exact Hne. simpl in Hx.
      rewrite lookup_alter_ne in Hx by exact Hne.
      destruct (Hheld a x id Hx Hax) as (tm' & Htm' & Howner').
      rewrite Htm in Htm'. injection Htm' as <-. congruence.
  - rewrite heap_mutate_eq. simpl. rewrite lookup_alter_eq, Hob. reflexivity.
  - simpl. rewrite lookup_insert_eq. reflexivity.
Qed.

(** On the mounted machine the joint is moving under timer 1. *)
Lemma resumeMove_leaves_old_timer_witness :
  exists tm,
    timers demoGame !! 1%positive = Some tm /\
    timers (resumeMove armJoint
              {| moveKey := KeyY; target := None; moveTime := None;
                 next := None |} demoGame) !! 1%positive = Some tm.
Proof.
  destruct (resumeMove_leaves_old_timer demoGame armJoint 1
              (set_interval (Some 1%positive) (createWorldObject 40 20))
              {| moveKey := KeyY; target := None; moveTime := None;
                 next := None |}
              (reach_mount demoLayout) ltac:(vm_compute; reflexivity)
              ltac:(reflexivity))
    as (tm & Htm & _ & (Hlive & _) & _).
  exists tm. split; assumption.
Defined.

(** ** Whole moves *)

Lemma towards_zero (cur tgt : Z) : towards cur tgt 0 = cur.
Proof. unfold towards. destruct (Z.leb_spec cur tgt); lia. Qed.

Lemma towards_step (cur tgt : Z) (j : nat) :
  cur <> tgt ->
  towards (cur + increment cur tgt) tgt j = towards cur tgt (S j).
Proof.
  intros Hne. unfold towards.
  destruct (Z.lt_total cur tgt) as [Hlt | [Heq | Hgt]]; [|contradiction|].
  - rewrite increment_up by exact Hlt.
    destruct (Z.leb_spec cur tgt); [|lia].
    destruct (Z.leb_spec (cur + Z.min 10 (tgt - cur)) tgt); lia.
  - rewrite increment_down by exact Hgt.
    destruct (Z.leb_spec cur tgt); [lia|].
    destruct (Z.leb_spec (cur + - Z.min 10 (cur - tgt)) tgt); lia.
Qed.

Lemma towards_between (cur tgt : Z) (j : nat) :
  Z.min cur tgt <= towards cur tgt j <= Z.max cur tgt.
Proof. unfold towards. destruct (Z.leb_spec cur tgt); lia. Qed.

Lemma ticksNeeded_step (cur tgt : Z) :
  cur <> tgt ->
  ticksNeeded cur tgt = S (ticksNeeded (cur + increment cur tgt) tgt).
Proof.
  intros Hne. unfold ticksNeeded.
  destruct (Z.lt_total cur tgt) as [Hlt | [Heq | Hgt]]; [|contradiction|].
  - rewrite increment_up by exact Hlt.
    destruct (Z.le_gt_cases 10 (tgt - cur)) as [Hfar | Hnear].
    + rewrite Z.min_l by lia.
      replace (Z.abs (tgt - cur) + 9) with (Z.abs (tgt - (cur + 10)) + 9 + 1 * 10)
        by lia.
      rewrite Z.div_add by lia.
      assert (0 <= (Z.abs (tgt - (cur + 10)) + 9) / 10)
        by (apply Z.div_pos; lia).
      lia.
    + rewrite Z.min_r by lia.
      replace (tgt - (cur + (tgt - cur))) with 0 by lia.
      assert ((Z.abs (tgt - cur) + 9) / 10 = 1) as ->.
      { symmetry. apply (Z.div_unique _ 10 1 (Z.abs (tgt - cur) - 1)); lia. }
      reflexivity.
  - rewrite increment_down by exact Hgt.
    destruct (Z.le_gt_cases 10 (cur - tgt)) as [Hfar | Hnear].
    + rewrite Z.min_l by lia.
      replace (Z.abs (tgt - cur) + 9)
        with (Z.abs (tgt - (cur + - (10))) + 9 + 1 * 10) by lia.
      rewrite Z.div_add by lia.
      assert (0 <= (Z.abs (tgt - (cur + - (10))) + 9) / 10)
        by (apply Z.div_pos; lia).
      lia.
    + rewrite Z.min_r by lia.
      replace (tgt - (cur + - (cur - tgt))) with 0 by lia.
      assert ((Z.abs (tgt - cur) + 9) / 10 = 1) as ->.
      { symmetry. apply (Z.div_unique _ 10 1 (Z.abs (tgt - cur) - 1)); lia. }
      reflexivity.
Qed.

Lemma ticksNeeded_same (cur : Z) : ticksNeeded cur cur = 0%nat.
Proof. unfold ticksNeeded. rewrite Z.sub_diag. reflexivity. Qed.

Lemma towards_end (cur tgt : Z) : towards cur tgt (ticksNeeded cur tgt) = tgt.
Proof.
  remember (ticksNeeded cur tgt) as n eqn:Hn.
  revert cur Hn. induction n as [|n IH]; intros cur Hn.
  - rewrite towards_zero.
    destruct (decide (cur = tgt)) as [Heq | Hne]; [exact Heq|].
    rewrite (ticksNeeded_step cur tgt Hne) in Hn. discriminate.
  - destruct (decide (cur = tgt)) as [-> | Hne];
      [rewrite ticksNeeded_same in Hn; discriminate|].
    rewrite <- (towards_step cur tgt n Hne). apply IH.
    rewrite (ticksNeeded_step cur tgt Hne) in Hn. congruence.
Qed.

(** The driver's attribute along the moving ticks of a move. *)
Lemma moving_trajectory (j : nat) (g : Game) (o id : positive) (k : MoveKey)
    (tgt : Z) (nxt : option Callback) (ms : list (option positive)) (cur : Z)
    (c : list Callback) :
  Moving g o id k tgt nxt ms cur c -> occurrences o ms = 0%nat ->
  (j <= ticksNeeded cur tgt)%nat ->
  Moving (fireN j id g) o id k tgt nxt ms (towards cur tgt j) c.
Proof.
  revert g cur. induction j as [|j IH]; intros g cur Hmov Hocc Hle.
  - simpl. rewrite towards_zero. exact Hmov.
  - assert (cur <> tgt) as Hne
      by (intros ->; rewrite ticksNeeded_same in Hle; lia).
    simpl fireN. rewrite <- (towards_step cur tgt j Hne).
    apply IH; [apply moving_fire_step; assumption | exact Hocc|].
    rewrite (ticksNeeded_step cur tgt Hne) in Hle. lia.
Qed.

(** A move started on an object that holds no timer and is not attached to
    itself runs as follows.  For the first [ticksNeeded] ticks the
    attribute goes ten units nearer to the target per tick, never past it,
    and no callback is called; after exactly that many ticks it stands on
    the target; the next tick clears the timer and calls [next] once, and
    every later tick changes nothing. *)
Theorem move_lands_on_target (j m : nat) (g : Game) (o : positive)
    (ob : WorldObject) (opts : MoveOpts) :
  heap g !! o = Some ob -> o_interval ob = None ->
  occurrences o (o_moveWith ob) = 0%nat ->
  let k := moveKey opts in
  let cur := getKey k ob in
  let tgt := targetOf opts ob in
  let n := ticksNeeded cur tgt in
  let started := moveObject o opts g in
  ((j <= n)%nat ->
   getKey k <$> heap (fireN j (nextTimer g) started) !! o
     = Some (towards cur tgt j) /\
   Z.min cur tgt <= towards cur tgt j <= Z.max cur tgt /\
   calls (fireN j (nextTimer g) started) = calls g /\
   is_Some (timers (fireN j (nextTimer g) started) !! nextTimer g)) /\
  getKey k <$> heap (fireN n (nextTimer g) started) !! o = Some tgt /\
  getKey k <$> heap (fireN (n + 1 + m) (nextTimer g) started) !! o = Some tgt /\
  timers (fireN (n + 1 + m) (nextTimer g) started) !! nextTimer g = None /\
  calls (fireN (n + 1 + m) (nextTimer g) started)
    = match next opts with Some cb => cb :: calls g | None => calls g end.
Proof.
  intros Hob Hidle Hocc k cur tgt n started.
  pose proof (moving_start_any g o opts ob Hob Hidle) as Hmov.
  fold k cur tgt started in Hmov.
  pose proof (moving_trajectory n _ _ _ _ _ _ _ _ _ Hmov Hocc (Nat.le_refl _))
    as Hend.
  unfold n in Hend at 2. rewrite towards_end in Hend.
  pose proof (moving_fire_done _ _ _ _ _ _ _ _ Hend) as Hdone.
  assert (fireN (n + 1 + m) (nextTimer g) started
          = fire (nextTimer g) (fireN n (nextTimer g) started)) as Hall.
  { rewrite <- Nat.add_assoc, fireN_add. simpl fireN at 1.
    apply (settled_fireN m _ _ _ _ _ _ Hdone). }
  split; [|split; [|split; [|split]]].
  - intros Hle.
    pose proof (moving_trajectory j _ _ _ _ _ _ _ _ _ Hmov Hocc Hle) as Hj.
    split; [apply (moving_getKey _ _ _ _ _ _ _ _ _ Hj)|].
    split; [apply towards_between|].
    destruct Hj as ((x & tm & _ & _ & _ & _ & Htm & _) & Hc & _).
    split; [exact Hc | eauto].
  - apply (moving_getKey _ _ _ _ _ _ _ _ _ Hend).
  - rewrite Hall. apply (settled_getKey _ _ _ _ _ _ Hdone).
  - rewrite Hall. destruct Hdone as (_ & Hdead & _). exact Hdead.
  - rewrite Hall. destruct Hdone as (_ & _ & Hc & _). exact Hc.
Qed.

(** The rail of the mounted machine, sent from 0 to 36: four moving ticks. *)
Lemma move_lands_on_target_witness :
  o_x <$> heap (fireN 4 2
                  (moveObject vertRail
                     {| moveKey := KeyX; target := Some 36; moveTime := None;
                        next := None |} demoGame)) !! vertRail
  = Some 36.
Proof.
  exact (proj1 (proj2
           (move_lands_on_target 0 0 demoGame vertRail
              (set_moveWith [None; Some armJoint] (createWorldObject 10 100))
              {| moveKey := KeyX; target := Some 36; moveTime := None;
                 next := None |}
              ltac:(vm_compute; reflexivity) ltac:(reflexivity)
              ltac:(vm_compute; reflexivity)))).
Defined.

(** ** Many ticks as one step *)

Lemma set_heap_same (g : Game) : set_heap (heap g) g = g.
Proof. destruct g. reflexivity. Qed.

Lemma propagate_heap_only (k : MoveKey) (d : Z) (ms : list (option positive))
    (g : Game) :
  propagate k d ms g = set_heap (heap (propagate k d ms g)) g.
Proof.
  revert g. induction ms as [|m ms IH]; intros g.
  - simpl. symmetry. apply set_heap_same.
  - rewrite propagate_cons. destruct m as [b|]; [|apply IH].
    rewrite IH at 1. reflexivity.
Qed.

Lemma jump_heap_only (o : positive) (k : MoveKey) (d : Z)
    (ms : list (option positive)) (g : Game) :
  jump o k d ms g = set_heap (heap (jump o k d ms g)) g.
Proof. unfold jump. rewrite propagate_heap_only at 1. reflexivity. Qed.

Lemma heap_jump (o : positive) (k : MoveKey) (d : Z)
    (ms : list (option positive)) (g : Game) (a : positive) :
  heap (jump o k d ms g) !! a
  = Nat.iter (occurrences a ms) (addKey (passengerKey k) d)
    <$> (if decide (o = a) then addKey k d <$> heap g !! a else heap g !! a).
Proof.
  unfold jump. rewrite heap_propagate.
  destruct (decide (o = a)) as [<- | Hne].
  - rewrite heap_mutate_eq. reflexivity.
  - rewrite heap_mutate_ne by exact Hne. reflexivity.
Qed.

Lemma addKey_zero (k : MoveKey) (x : WorldObject) : addKey k 0 x = x.
Proof.
  destruct x, k; unfold addKey, set_x, set_y, set_h; simpl; f_equal; lia.
Qed.

Lemma addKey_addKey (k : MoveKey) (d1 d2 : Z) (x : WorldObject) :
  addKey k d1 (addKey k d2 x) = addKey k (d2 + d1) x.
Proof.
  destruct k; unfold addKey, set_x, set_y, set_h; simpl; f_equal; lia.
Qed.

Lemma iter_addKey (n : nat) (k : MoveKey) (d : Z) (x : WorldObject) :
  Nat.iter n (addKey k d) x = addKey k (Z.of_nat n * d) x.
Proof.
  induction n as [|n IH].
  - simpl. symmetry. apply addKey_zero.
  - rewrite Nat.iter_succ, IH, addKey_addKey. f_equal. lia.
Qed.

Lemma jump_zero (o : positive) (k : MoveKey) (ms : list (option positive))
    (g : Game) :
  jump o k 0 ms g = g.
Proof.
  transitivity (set_heap (heap g) g); [|apply set_heap_same].
  rewrite jump_heap_only. f_equal.
  apply map_eq. intros a. rewrite heap_jump.
  destruct (decide (o = a)) as [<- | Hne];
    destruct (heap g !! _) as [x|]; simpl; try reflexivity;
    rewrite iter_addKey, ?addKey_zero; f_equal;
    replace (Z.of_nat (occurrences _ ms) * 0) with 0 by lia;
    apply addKey_zero.
Qed.

(** Two steps of a driver that is not attached to itself add up. *)
Lemma jump_jump (o : positive) (k : MoveKey) (d1 d2 : Z)
    (ms : list (option positive)) (g : Game) :
  occurrences o ms = 0%nat ->
  jump o k d1 ms (jump o k d2 ms g) = jump o k (d2 + d1) ms g.
Proof.
  intros Hocc.
  rewrite (jump_heap_only o k d1), (jump_heap_only o k (d2 + d1)).
  rewrite (jump_heap_only o k d2 ms g) at 2.
  change (set_heap (heap (jump o k d1 ms (jump o k d2 ms g)))
            (set_heap (heap (jump o k d2 ms g)) g))
    with (set_heap (heap (jump o k d1 ms (jump o k d2 ms g))) g).
  f_equal. apply map_eq. intros a. rewrite !heap_jump.
  destruct (decide (o = a)) as [<- | Hne].
  - rewrite Hocc. simpl.
    destruct (heap g !! o) as [x|]; simpl; [|reflexivity].
    rewrite addKey_addKey. reflexivity.
  - destruct (heap g !! a) as [x|]; simpl; [|reflexivity].
    rewrite !iter_addKey, addKey_addKey. do 2 f_equal. lia.
Qed.

(** The moving ticks of a move, taken together, are one step by the
    distance covered. *)
Lemma moving_exact (j : nat) (g : Game) (o id : positive) (k : MoveKey)
    (tgt : Z) (nxt : option Callback) (ms : list (option positive)) (cur : Z)
    (c : list Callback) :
  Moving g o id k tgt nxt ms cur c -> occurrences o ms = 0%nat ->
  (j <= ticksNeeded cur tgt)%nat ->
  fireN j id g = jump o k (towards cur tgt j - cur) ms g.
Proof.
  revert g cur. induction j as [|j IH]; intros g cur Hmov Hocc Hle.
  - simpl. rewrite towards_zero, Z.sub_diag, jump_zero. reflexivity.
  - assert (cur <> tgt) as Hne
      by (intros ->; rewrite ticksNeeded_same in Hle; lia).
    pose proof (moving_fire_step _ _ _ _ _ _ _ _ _ Hmov Hocc Hne) as Hstep.
    simpl fireN.
    rewrite (IH _ _ Hstep Hocc)
      by (rewrite (ticksNeeded_step cur tgt Hne) in Hle; lia).
    rewrite (towards_step cur tgt j Hne).
    assert (fire id g = jump o k (increment cur tgt) ms g) as ->.
    { destruct Hmov as ((ob & tm & Hob & Hcur & _ & Hms & Htm & Ho & Hk & Ht & _) & _).
      unfold fire. rewrite Htm, Ho, Hk, Ht.
      rewrite (tick_moves g o k tgt _ ob Hob) by congruence.
      rewrite Hcur, Hms. reflexivity. }
    rewrite jump_jump by exact Hocc. f_equal. lia.
Qed.

Lemma attr_jump (o : positive) (k : MoveKey) (d : Z)
    (ms : list (option positive)) (g : Game) (a : positive) (q : Attr) :
  attr q <$> heap (jump o k d ms g) !! a
  = (fun x => attr q x + tickDelta o k d ms a q) <$> heap g !! a.
Proof.
  rewrite heap_jump. unfold tickDelta.
  destruct (decide (o = a)) as [<- | Hoa].
  - destruct (heap g !! o) as [x|]; simpl; [|reflexivity]. f_equal.
    rewrite attr_iter_addKey, attr_addKey.
    destruct (decide (o = o /\ q = keyAttr k)) as [[_ Hq] | Hn];
      destruct (decide (q = keyAttr k)); try tauto;
      destruct (decide (q = keyAttr (passengerKey k))); lia.
  - destruct (heap g !! a) as [x|]; simpl; [|reflexivity]. f_equal.
    rewrite attr_iter_addKey.
    destruct (decide (a = o /\ q = keyAttr k)) as [[Hao _] | _];
      [congruence|].
    destruct (decide (q = keyAttr (passengerKey k))); lia.
Qed.

(** The store after a move in flight has run to its end, and after any
    number of further ticks. *)
Lemma moving_effect (m : nat) (g : Game) (o id : positive) (k : MoveKey)
    (tgt : Z) (nxt : option Callback) (ms : list (option positive)) (cur : Z)
    (c : list Callback) (a : positive) (q : Attr) :
  Moving g o id k tgt nxt ms cur c -> occurrences o ms = 0%nat ->
  attr q <$> heap (fireN (ticksNeeded cur tgt + m) id g) !! a
  = (fun x => attr q x + tickDelta o k (tgt - cur) ms a q) <$> heap g !! a.
Proof.
  intros Hmov Hocc.
  assert (attr q <$> heap (fireN (ticksNeeded cur tgt) id g) !! a
          = (fun x => attr q x + tickDelta o k (tgt - cur) ms a q)
            <$> heap g !! a) as Hmoved.
  { rewrite (moving_exact _ _ _ _ _ _ _ _ _ _ Hmov Hocc (Nat.le_refl _)).
    rewrite towards_end, attr_jump. reflexivity. }
  destruct m as [|m]; [rewrite Nat.add_0_r; exact Hmoved|].
  pose proof (moving_trajectory _ _ _ _ _ _ _ _ _ _ Hmov Hocc (Nat.le_refl _))
    as Hend.
  rewrite towards_end in Hend.
  pose proof (moving_fire_done _ _ _ _ _ _ _ _ Hend) as Hdone.
  rewrite fireN_add. simpl fireN at 1.
  rewrite (settled_fireN m _ _ _ _ _ _ Hdone).
  destruct Hend as ((x & tm & Hx & Hcur & _ & _ & Htm & Ho & Hk & Ht & _) & _).
  unfold fire. rewrite Htm, Ho, Hk, Ht.
  rewrite (tick_done _ o k tgt _ x Hx Hcur).
  pose proof (agree_callNext (attr q) ltac:(auto with claw) ltac:(auto with claw)
                (t_next tm)
                (clearObjInterval o (fireN (ticksNeeded cur tgt) id g)) a)
    as Hcall.
  pose proof (agree_clearObjInterval (attr q) ltac:(auto with claw) o
                (fireN (ticksNeeded cur tgt) id g) a) as Hclear.
  rewrite Hcall, Hclear. exact Hmoved.
Qed.



(** ** Release and bound *)

(** When the rail stands at the target of the move the horizontal press
    started, the tick that completes the move leaves the game exactly as a
    release of the button does; only the trace of callbacks tells the two
    apart. *)
Theorem bound_reached_is_release (g : Game) (id : positive) (tm : Timer)
    (rail : WorldObject) :
  timers g !! id = Some tm -> t_obj tm = vertRail ->
  t_next tm = Some StopHoriBtnAndActivateVertBtn ->
  heap g !! vertRail = Some rail -> getKey (t_key tm) rail = t_target tm ->
  set_calls (calls g) (fire id g) = onHoriBtnUp g /\
  calls (fire id g) = StopHoriBtnAndActivateVertBtn :: calls g.
Proof.
  intros Htm Hobj Hnext Hrail Hat.
  assert (fire id g
          = callNext (Some StopHoriBtnAndActivateVertBtn)
              (clearObjInterval vertRail g)) as Hfire.
  { unfold fire. rewrite Htm, Hobj, Hnext.
    apply (tick_done _ _ _ _ _ rail Hrail Hat). }
  rewrite Hfire. split.
  - unfold onHoriBtnUp. simpl.
    rewrite <- (calls_clearObjInterval vertRail g). reflexivity.
  - rewrite calls_callNext, calls_clearObjInterval. reflexivity.
Qed.

(** The rail of the mounted machine, pressed and driven to the far bound
    at 224 in 23 ticks. *)
Lemma bound_reached_is_release_witness :
  set_calls (calls (fireN 23 2 (onHoriBtnDown demoGame)))
    (fire 2 (fireN 23 2 (onHoriBtnDown demoGame)))
  = onHoriBtnUp (fireN 23 2 (onHoriBtnDown demoGame)).
Proof.
  assert (is_Some (heap (fireN 23 2 (onHoriBtnDown demoGame)) !! vertRail))
    as [rail Hrail] by (vm_compute; eexists; reflexivity).
  exact (proj1 (bound_reached_is_release
                  (fireN 23 2 (onHoriBtnDown demoGame)) 2
                  {| t_obj := vertRail; t_key := KeyX; t_target := 224;
                     t_next := Some StopHoriBtnAndActivateVertBtn;
                     t_period := 100 |} rail
                  ltac:(vm_compute; reflexivity) ltac:(reflexivity)
                  ltac:(reflexivity) Hrail
                  ltac:(vm_compute in Hrail; injection Hrail as <-;
                        reflexivity))).
Defined.

(** ** A miss *)

Lemma keeps_numbers_interval (v : option positive) :
  keeps numbers (set_interval v).
Proof. intros ob. reflexivity. Qed.

Lemma keeps_numbers_default (v : Pose) : keeps numbers (set_default v).
Proof. intros ob. reflexivity. Qed.

#[local] Hint Resolve keeps_numbers_interval keeps_numbers_default : claw.

Lemma getClosestToy_miss (g : Game) :
  (forall t ob joint,
     t ∈ toyEls g -> heap g !! t = Some ob -> heap g !! armJoint = Some joint ->
     doOverlap ob (clawOf g joint) = false) ->
  getClosestToy g = g.
Proof.
  intros Hmiss. unfold getClosestToy.
  destruct (heap g !! armJoint) as [joint|] eqn:Hjoint; [|reflexivity].
  simpl.
  assert (overlappedToys g (clawOf g joint) = []) as ->; [|reflexivity].
  apply elem_of_nil_inv. intros [t ob] Hin.
  apply elem_of_overlappedToys in Hin as (Ht & Hob & Hov).
  rewrite (Hmiss t ob joint Ht Hob eq_refl) in Hov. discriminate.
Qed.

Lemma dropToyTimeout_no_target (g : Game) :
  targetToy g = None ->
  dropToyTimeout g
  = activateHoriBtn
      (set_posted (TURN_COMPLETE :: posted g)
         (set_turns true (subDouble (remainingTurns g) 1)
            (removeClass "open" arm g))).
Proof.
  intros Hnone. unfold dropToyTimeout. cbv zeta.
  match goal with
  | |- context [activateHoriBtn ?x] =>
    assert (targetToy (activateHoriBtn x) = None) as ->
      by (apply (closed_activateHoriBtn (fun y => targetToy y = None));
          closed_by_frame)
  end.
  reflexivity.
Qed.

(** A cycle in which no toy lies under the claw and none was targeted
    before.  The release of the vertical button targets nothing, the grab
    only marks the arm as missed, the drop only opens the claw; no object
    is moved and no attached list is written, the collection arrow is left
    alone, yet the end of the drop spends a turn (the count being a whole
    number a double can take one from, above -2^53 and up to 2^53) and
    posts TURN_COMPLETE like any other. *)
Theorem miss_spends_a_turn (g : Game) (deg : Z) :
  targetToy g = None -> - 2 ^ 53 < remainingTurns g <= 2 ^ 53 ->
  (forall t ob joint,
     t ∈ toyEls g -> heap g !! t = Some ob -> heap g !! armJoint = Some joint ->
     doOverlap ob (clawOf g joint) = false) ->
  let released := onVertBtnUp g in
  let grabbed := grabToy deg released in
  let dropped := dropToy grabbed in
  let ended := dropToyTimeout dropped in
  targetToy released = None /\
  grabbed = addClass "missed" arm released /\
  dropped = addClass "open" arm grabbed /\
  agree numbers g ended /\ agree o_moveWith g ended /\
  timers dropped = timers released /\
  remainingTurns ended = remainingTurns g - 1 /\
  posted ended = TURN_COMPLETE :: posted g /\
  targetToy ended = None /\
  collectionArrow ended = collectionArrow g.
Proof.
  intros Htarget Hsafe Hmiss released grabbed dropped ended.
  assert (forall t ob joint,
            t ∈ toyEls (clearObjInterval armJoint g) ->
            heap (clearObjInterval armJoint g) !! t = Some ob ->
            heap (clearObjInterval armJoint g) !! armJoint = Some joint ->
            doOverlap ob (clawOf (clearObjInterval armJoint g) joint) = false)
    as Hmiss'.
  { intros t ob joint Ht Hob Hjoint.
    destruct (clearObjInterval_cases armJoint g) as [Heq | [id Heq]];
      rewrite Heq in Ht, Hob, Hjoint |- *;
      [apply (Hmiss t ob joint Ht Hob Hjoint)|].
    simpl in Ht, Hob, Hjoint.
    rewrite lookup_alter_eq in Hjoint.
    destruct (heap g !! armJoint) as [j0|] eqn:Hj0; [|discriminate].
    injection Hjoint as <-.
    destruct (decide (armJoint = t)) as [<- | Hne].
    - rewrite lookup_alter_eq, Hj0 in Hob. injection Hob as <-.
      apply (Hmiss armJoint j0 j0 Ht Hj0 eq_refl).
    - rewrite lookup_alter_ne in Hob by exact Hne.
      apply (Hmiss t ob j0 Ht Hob eq_refl). }
  assert (released
          = set_buttons (horiBtn (clearObjInterval armJoint g))
              (deactivateBtn (vertBtn (clearObjInterval armJoint g)))
              (clearObjInterval armJoint g)) as Hreleased.
  { unfold released, onVertBtnUp. cbv zeta.
    apply getClosestToy_miss. exact Hmiss'. }
  assert (targetToy released = None) as Hnone.
  { rewrite Hreleased. simpl.
    destruct (clearObjInterval_cases armJoint g) as [-> | [id ->]];
      exact Htarget. }
  assert (grabbed = addClass "missed" arm released) as Hgrabbed
    by (unfold grabbed, grabToy; rewrite Hnone; reflexivity).
  assert (dropped = addClass "open" arm grabbed) as Hdropped.
  { unfold dropped, dropToy. cbv zeta.
    change (targetToy (addClass "open" arm grabbed)) with (targetToy grabbed).
    rewrite Hgrabbed. change (targetToy (addClass "missed" arm released))
      with (targetToy released). rewrite Hnone. reflexivity. }
  assert (targetToy dropped = None) as Hnone3
    by (rewrite Hdropped, Hgrabbed; exact Hnone).
  pose proof (dropToyTimeout_no_target dropped Hnone3) as Hended.
  fold ended in Hended.
  assert (targetToy ended = None /\
          remainingTurns ended = remainingTurns g - 1 /\
          posted ended = TURN_COMPLETE :: posted g /\
          collectionArrow ended = collectionArrow g)
    as (Hnone4 & Hturns4 & Hposted4 & Harrow4).
  { rewrite Hended, <- (subDouble_safe (remainingTurns g) Hsafe).
    apply (closed_activateHoriBtn
             (fun x => targetToy x = None /\
                       remainingTurns x = subDouble (remainingTurns g) 1 /\
                       posted x = TURN_COMPLETE :: posted g /\
                       collectionArrow x = collectionArrow g));
      closed_by_frame.
    rewrite Hdropped, Hgrabbed, Hreleased. simpl.
    destruct (clearObjInterval_cases armJoint g) as [-> | [id ->]];
      simpl; auto. }
  split; [exact Hnone|]. split; [exact Hgrabbed|]. split; [exact Hdropped|].
  split; [|split; [|split; [|split; [|split; [|split]]]]].
  - rewrite Hended, Hdropped, Hgrabbed, Hreleased. repeat peel_moveWith.
  - rewrite Hended, Hdropped, Hgrabbed, Hreleased. repeat peel_moveWith.
  - rewrite Hdropped, Hgrabbed. reflexivity.
  - exact Hturns4.
  - exact Hposted4.
  - exact Hnone4.
  - exact Harrow4.
Qed.

(** The demo machine with a bear out of the claw's reach: the claw's
    point is (7, 207), the bear covers x from 200 to 250. *)
Lemma miss_spends_a_turn_witness :
  remainingTurns
    (dropToyTimeout (dropToy (grabToy 30 (onVertBtnUp demoFarToy)))) = -1.
Proof.
  refine (proj1 (proj2 (proj2 (proj2 (proj2 (proj2 (proj2
           (miss_spends_a_turn demoFarToy 30 ltac:(reflexivity)
              ltac:(split; vm_compute; [reflexivity | discriminate]) _)))))))).
  intros t ob joint Ht Hob Hjoint.
  replace (toyEls demoFarToy) with [demoToy] in Ht by (vm_compute; reflexivity).
  apply list_elem_of_singleton in Ht as ->.
  vm_compute in Hob. vm_compute in Hjoint.
  injection Hob as <-. injection Hjoint as <-.
  vm_compute. reflexivity.
Defined.

(** ** The toy in the claw and the toy let go *)

Lemma AttachInv_reachable (g : Game) : reachable g -> AttachInv g.
Proof.
  intros Hreach. induction Hreach as [L | e g _ IH];
    [apply AttachInv_mount | apply AttachInv_step; exact IH].
Qed.

Lemma fireN_keeps_moveWith (n : nat) (id : positive) (g : Game) :
  agree o_moveWith g (fireN n id g).
Proof.
  revert g. induction n as [|n IH]; intros g; [apply agree_refl|].
  simpl. eapply agree_trans; [apply fire_keeps_moveWith | apply IH].
Qed.

Lemma Moving_setPassenger (v : option positive) (g : Game) (o id : positive)
    (k : MoveKey) (tgt : Z) (nxt : option Callback)
    (ms : list (option positive)) (cur : Z) (c : list Callback) :
  o <> vertRail -> o <> armJoint -> o <> arm ->
  Moving g o id k tgt nxt ms cur c ->
  Moving (setPassenger v g) o id k tgt nxt ms cur c.
Proof.
  intros H1 H2 H3 ((ob & tm & Hob & Hrest) & Hc & Hlt).
  split; [|split; [exact Hc | exact Hlt]].
  exists ob, tm. rewrite setPassenger_other by assumption.
  split; [exact Hob | exact Hrest].
Qed.

Lemma numbers_attr (x : WorldObject) :
  numbers x = [attr AttrX x; attr AttrY x; attr AttrZ x; attr AttrW x;
               attr AttrH x; attr AttrAngle x].
Proof. reflexivity. Qed.

Lemma occurrences_one (a : positive) (ms : list (option positive)) :
  Some a ∉ ms -> occurrences a (Some a :: ms) = 1%nat.
Proof.
  intros Hnot. rewrite occurrences_cons, (occurrences_zero a ms Hnot).
  destruct (decide (Some a = Some a)); [reflexivity | contradiction].
Qed.

(** A toy that is let go while it holds no timer falls at ten units per
    tick and comes to rest with its lower edge exactly 30 units above the
    bottom of the machine, at paint depth 3 and otherwise as it was; by
    then it has left all three attached lists, and the timer of its fall
    is cleared. *)
Theorem dropped_toy_comes_to_rest (m : nat) (g : Game) (toy : positive)
    (tb : WorldObject) :
  reachable g -> targetToy g = Some toy ->
  heap g !! toy = Some tb -> o_interval tb = None ->
  let floor := machineHeight g - o_h tb - 30 in
  let landed :=
    fireN (ticksNeeded (o_y tb) floor + (1 + m)) (nextTimer g) (dropToy g) in
  numbers <$> heap landed !! toy
    = Some [o_x tb; floor; 3; o_w tb; o_h tb; o_angle tb] /\
  o_moveWith <$> heap landed !! vertRail = Some [None; Some armJoint] /\
  o_moveWith <$> heap landed !! armJoint = Some [None] /\
  o_moveWith <$> heap landed !! arm = Some [None] /\
  timers landed !! nextTimer g = None.
Proof.
  intros Hreach Htarget Htb Hidle floor landed.
  pose proof (AttachInv_reachable g Hreach) as Hinv.
  destruct (RegistryInv_reachable g Hreach) as (_ & Hreg & _ & Htar).
  destruct (Hreg toy (Htar toy Htarget)) as [_ Hnot].
  assert (toy <> vertRail /\ toy <> armJoint /\ toy <> arm) as (N1 & N2 & N3).
  { unfold chain in Hnot. repeat split; intros ->; apply Hnot;
      [left | right; left | right; right; left]. }
  assert (o_moveWith tb = []) as Hbare
    by (destruct Hinv as (_ & _ & _ & Hrest); apply (Hrest toy tb); assumption).
  set (opts := {| moveKey := KeyY; target := Some floor; moveTime := Some 50;
                  next := None |}).
  set (g2 := mutate toy (set_z 3) (addClass "open" arm g)).
  assert (heap g2 !! toy = Some (set_z 3 tb)) as Htoy2.
  { unfold g2, addClass. rewrite heap_mutate_eq, heap_mutate_ne by congruence.
    rewrite Htb. reflexivity. }
  assert (dropToy g = setPassenger None (moveObject toy opts g2)) as Hdrop.
  { unfold dropToy. cbv zeta.
    change (targetToy (addClass "open" arm g)) with (targetToy g).
    rewrite Htarget. unfold addClass at 1.
    rewrite heap_mutate_ne by congruence. rewrite Htb. reflexivity. }
  pose proof (moving_start_any g2 toy opts (set_z 3 tb) Htoy2 Hidle) as Hmov.
  apply (Moving_setPassenger None) in Hmov; try assumption.
  rewrite <- Hdrop in Hmov.
  change (nextTimer g2) with (nextTimer g) in Hmov.
  change (targetOf opts (set_z 3 tb)) with floor in Hmov.
  change (getKey (moveKey opts) (set_z 3 tb)) with (o_y tb) in Hmov.
  change (o_moveWith (set_z 3 tb)) with (o_moveWith tb) in Hmov.
  change (moveKey opts) with KeyY in Hmov. change (calls g2) with (calls g) in Hmov.
  rewrite Hbare in Hmov.
  assert (occurrences toy [] = 0%nat) as Hocc by reflexivity.
  (* the numbers of the toy *)
  assert (forall q,
            attr q <$> heap landed !! toy
            = Some (attr q (set_z 3 tb)
                    + if decide (q = AttrY) then floor - o_y tb else 0))
    as Hattr.
  { intros q. unfold landed.
    rewrite (moving_effect (1 + m) _ _ _ _ _ _ _ _ _ toy q Hmov Hocc).
    assert (heap (dropToy g) !! toy
            = Some (set_interval (Some (nextTimer g)) (set_z 3 tb))) as ->.
    { rewrite Hdrop, setPassenger_other by assumption.
      unfold moveObject. rewrite Htoy2.
      change (o_interval (set_z 3 tb)) with (o_interval tb). rewrite Hidle.
      unfold schedule. rewrite heap_mutate_eq.
      change (heap (set_timers _ _ _ g2)) with (heap g2). rewrite Htoy2.
      reflexivity. }
    simpl. f_equal. unfold tickDelta.
    destruct q; simpl; repeat case_decide; 
      first [lia | exfalso; intuition congruence]. }
  split.
  { pose proof (Hattr AttrX) as Hx. pose proof (Hattr AttrY) as Hy.
    pose proof (Hattr AttrZ) as Hz. pose proof (Hattr AttrW) as Hw.
    pose proof (Hattr AttrH) as Hh. pose proof (Hattr AttrAngle) as Ha.
    destruct (heap landed !! toy) as [x|]; [|discriminate].
    simpl in *. rewrite numbers_attr. simpl.
    injection Hx as Hx. injection Hy as Hy. injection Hz as Hz.
    injection Hw as Hw. injection Hh as Hh. injection Ha as Ha.
    rewrite Hx, Hy, Hz, Hw, Hh, Ha. repeat f_equal; lia. }
  (* the attached lists *)
  assert (AttachInv (moveObject toy opts g2)) as Hinv3.
  { apply (AttachInv_agree g); [|exact Hinv].
    unfold g2. repeat peel_moveWith. }
  destruct (AttachInv_setPassenger None _ Hinv3) as (_ & Hr & Hj & Ha).
  rewrite <- Hdrop in Hr, Hj, Ha.
  pose proof (fireN_keeps_moveWith
                (ticksNeeded (o_y tb) floor + (1 + m)) (nextTimer g) (dropToy g))
    as Hkeep.
  fold landed in Hkeep.
  split; [rewrite Hkeep; exact Hr|].
  split; [rewrite Hkeep; exact Hj|].
  split; [rewrite Hkeep; exact Ha|].
  pose proof (moving_trajectory _ _ _ _ _ _ _ _ _ _ Hmov Hocc (Nat.le_refl _))
    as Hend.
  rewrite towards_end in Hend.
  pose proof (moving_fire_done _ _ _ _ _ _ _ _ Hend) as Hdone.
  unfold landed. rewrite fireN_add. simpl fireN at 1.
  rewrite (settled_fireN m _ _ _ _ _ _ Hdone).
  destruct Hdone as (_ & Hdead & _). exact Hdead.
Qed.

Lemma demoGrabbed_reachable : reachable demoGrabbed.
Proof. exact (reach_step (Grab 45) demoTargeted demoTargeted_reachable). Qed.

(** The grabbed bear of the demo machine, let go at height 200, is at rest
    at 320 = 400 - 50 - 30 after its 12 ticks and the one that ends them. *)
Lemma dropped_toy_comes_to_rest_witness :
  numbers <$> heap (fireN 13 2 (dropToy demoGrabbed)) !! demoToy
  = Some [0; 320; 3; 50; 50; 45].
Proof.
  pose proof (dropped_toy_comes_to_rest 0 demoGrabbed demoToy
                (default (createWorldObject 0 0) (heap demoGrabbed !! demoToy))
                demoGrabbed_reachable
                ltac:(vm_compute; reflexivity) ltac:(vm_compute; reflexivity)
                ltac:(vm_compute; reflexivity)) as Hrest.
  refine (eq_trans (proj1 Hrest) _). vm_compute. reflexivity.
Defined.

(** ** The initial animation *)

(** The first callback of the mount effect is the call
    [resumeMove (vertRail, ..)] it stands for. *)
Lemma runCallback_InitRail (restY : Z) (g : Game) :
  runCallback (InitRail restY) g = resumeMove vertRail (initRailOpts restY) g.
Proof.
  unfold runCallback, resumeMove, moveObject. cbv zeta.
  destruct (heap g !! vertRail) as [ob|] eqn:Hob.
  - rewrite heap_mutate_eq, Hob. reflexivity.
  - rewrite heap_mutate_eq, Hob. reflexivity.
Qed.

(** The tick that finds the attribute on its target. *)
Lemma moving_fire_done_eq (g : Game) (o id : positive) (k : MoveKey) (tgt : Z)
    (nxt : option Callback) (ms : list (option positive)) (c : list Callback) :
  Moving g o id k tgt nxt ms tgt c ->
  fire id g = callNext nxt (clearObjInterval o g).
Proof.
  intros [(ob & tm & Hob & Hcur & Hid & Hms & Htm & Ho & Hk & Ht & Hn) _].
  unfold fire. rewrite Htm, Ho, Hk, Ht, Hn.
  apply (tick_done g o k tgt nxt ob Hob Hcur).
Qed.

(** A whole move and the ticks after it, as one update of the store. *)
Lemma moving_whole (m : nat) (g : Game) (o id : positive) (k : MoveKey)
    (tgt : Z) (nxt : option Callback) (ms : list (option positive)) (cur : Z)
    (c : list Callback) :
  Moving g o id k tgt nxt ms cur c -> occurrences o ms = 0%nat ->
  fireN (ticksNeeded cur tgt + (1 + m)) id g
  = callNext nxt (clearObjInterval o (jump o k (tgt - cur) ms g)).
Proof.
  intros Hmov Hocc.
  pose proof (moving_trajectory _ _ _ _ _ _ _ _ _ _ Hmov Hocc (Nat.le_refl _))
    as Hend.
  rewrite towards_end in Hend.
  rewrite fireN_add. simpl fireN at 1.
  rewrite (settled_fireN m _ _ _ _ _ _ (moving_fire_done _ _ _ _ _ _ _ _ Hend)).
  rewrite (moving_fire_done_eq _ _ _ _ _ _ _ _ Hend).
  rewrite (moving_exact _ _ _ _ _ _ _ _ _ _ Hmov Hocc (Nat.le_refl _)).
  rewrite towards_end. reflexivity.
Qed.

(** The last callback of the mount effect, and the guard it ends on. *)
Lemma callNext_InitDone (restY : Z) (g : Game) :
  callNext (Some (InitDone restY)) g
  = activateHoriBtn
      (mutate vertRail (assignDefault (Some (pt_x MACHINE_BUFFER)) None)
         (mutate armJoint
            (assignDefault (Some (pt_x MACHINE_BUFFER)) (Some restY))
            (set_calls (InitDone restY :: calls g) g))).
Proof. reflexivity. Qed.

Lemma activateHoriBtn_turns (g : Game) (t : Z) :
  remainingTurns g = t ->
  activateHoriBtn g
  = if t <=? 0 then g
    else fold_left (fun acc c => clearObjInterval c acc)
           [vertRail; armJoint; arm]
           (set_buttons (activateBtn (horiBtn g)) (vertBtn g)
              (set_turns false t g)).
Proof. intros <-. reflexivity. Qed.

Lemma Moving_onMessage (t : Z) (g : Game) (o id : positive) (k : MoveKey)
    (tgt : Z) (nxt : option Callback) (ms : list (option positive)) (cur : Z)
    (c : list Callback) :
  Moving g o id k tgt nxt ms cur c -> Moving (onMessage t g) o id k tgt nxt ms cur c.
Proof. intros Hmov. exact Hmov. Qed.

(** The first leg: the mount effect leaves the joint on its way to the
    rest height. *)
Lemma mount_joint_moving (L : Layout) :
  Moving (mount L) armJoint 1 KeyY (machineTop_height L - pt_y MACHINE_BUFFER)
    (Some (InitRail (machineTop_height L - pt_y MACHINE_BUFFER))) [] 0 [].
Proof.
  exact (moving_start_any (created L) armJoint
           {| moveKey := KeyY;
              target := Some (machineTop_height L - pt_y MACHINE_BUFFER);
              moveTime := Some 50;
              next := Some (InitRail (machineTop_height L - pt_y MACHINE_BUFFER)) |}
           (createWorldObject (armJoint_w L) (armJoint_h L))
           ltac:(vm_compute; reflexivity) eq_refl).
Qed.

(** The second leg: when the joint's move has ended, its callback has put
    the rail on its way to x = 36. *)
Lemma mount_rail_moving (L : Layout) (t restY : Z) :
  Moving
    (callNext (Some (InitRail restY))
       (clearObjInterval armJoint
          (jump armJoint KeyY restY [] (onMessage t (mount L)))))
    vertRail 2 KeyX 36 (Some (InitDone restY)) [None; Some armJoint] 0
    [InitRail restY].
Proof.
  change (callNext (Some (InitRail restY)) ?g)
    with (runCallback (InitRail restY) (set_calls (InitRail restY :: calls g) g)).
  rewrite runCallback_InitRail. unfold resumeMove.
  match goal with
  | |- Moving (moveObject vertRail ?opts ?G) _ _ _ _ _ _ _ _ =>
      pose proof (moving_start_any G vertRail opts
                    (set_moveWith [None; Some armJoint]
                       (createWorldObject (vertRail_w L) (vertRail_h L)))
                    ltac:(vm_compute; reflexivity) eq_refl) as Hmov;
      replace (nextTimer G) with 2%positive in Hmov
        by (vm_compute; reflexivity);
      replace (calls G) with [InitRail restY] in Hmov
        by (vm_compute; reflexivity)
  end.
  exact Hmov.
Qed.

(** The initial animation, whatever the layout and whatever turn count
    came in before it started to run: once the joint's timer has ticked to
    its end and then the rail's, the rail and the joint stand at x = 36,
    the joint at its rest height, both have these as their defaults, no
    timer is left, the two callbacks have run once each in order, and the
    horizontal button is unlocked exactly when the turn count is positive. *)
Theorem initial_animation_parks_the_claw (m : nat) (L : Layout) (t : Z) :
  let restY := machineTop_height L - pt_y MACHINE_BUFFER in
  let risen := fireN (ticksNeeded 0 restY + 1) 1 (onMessage t (mount L)) in
  let ready := fireN (5 + m) 2 risen in
  numbers <$> heap ready !! vertRail
    = Some [36; 0; 0; vertRail_w L; vertRail_h L; 0] /\
  numbers <$> heap ready !! armJoint
    = Some [36; restY; 0; armJoint_w L; armJoint_h L; 0] /\
  o_default <$> heap ready !! vertRail
    = Some {| d_x := 36; d_y := 0; d_w := vertRail_w L; d_h := vertRail_h L |} /\
  o_default <$> heap ready !! armJoint
    = Some {| d_x := 36; d_y := restY;
              d_w := armJoint_w L; d_h := armJoint_h L |} /\
  timers ready = ∅ /\
  calls ready = [InitDone restY; InitRail restY] /\
  b_locked (horiBtn ready) = (t <=? 0) /\
  b_locked (vertBtn ready) = true.
Proof.
  intros restY risen ready.
  pose proof (Moving_onMessage t _ _ _ _ _ _ _ _ _ (mount_joint_moving L))
    as Hjoint.
  fold restY in Hjoint.
  assert (risen
          = callNext (Some (InitRail restY))
              (clearObjInterval armJoint
                 (jump armJoint KeyY restY [] (onMessage t (mount L)))))
    as Hrisen.
  { unfold risen.
    change (ticksNeeded 0 restY + 1)%nat
      with (ticksNeeded 0 restY + (1 + 0))%nat.
    rewrite (moving_whole 0 _ _ _ _ _ _ _ _ _ Hjoint eq_refl).
    rewrite Z.sub_0_r. reflexivity. }
  pose proof (mount_rail_moving L t restY) as Hrail.
  rewrite <- Hrisen in Hrail.
  assert (ready
          = callNext (Some (InitDone restY))
              (clearObjInterval vertRail
                 (jump vertRail KeyX 36 [None; Some armJoint] risen)))
    as Hready.
  { unfold ready.
    change (5 + m)%nat with (ticksNeeded 0 36 + (1 + m))%nat.
    rewrite (moving_whole m _ _ _ _ _ _ _ _ _ Hrail eq_refl). reflexivity. }
  rewrite Hready, Hrisen. clearbody restY. clear.
  rewrite callNext_InitDone.
  rewrite (activateHoriBtn_turns _ t) by (vm_compute; reflexivity).
  destruct (t <=? 0); split_all; vm_compute; reflexivity.
Qed.

(** ** Unlocking the horizontal button *)

Lemma heap_clearObjInterval (o a : positive) (g : Game) :
  heap (clearObjInterval o g) !! a
  = if decide (a = o) then set_interval None <$> heap g !! a else heap g !! a.
Proof.
  unfold clearObjInterval.
  destruct (heap g !! o) as [ob|] eqn:Hob.
  - destruct (o_interval ob) as [id|] eqn:Hid.
    + destruct (decide (a = o)) as [-> | Hne].
      * rewrite heap_mutate_eq. reflexivity.
      * rewrite heap_mutate_ne by congruence. reflexivity.
    + destruct (decide (a = o)) as [-> | Hne]; [|reflexivity].
      rewrite Hob. simpl. rewrite (set_interval_idle ob Hid). reflexivity.
  - destruct (decide (a = o)) as [-> | Hne]; [|reflexivity].
    rewrite Hob. reflexivity.
Qed.

Lemma timer_of_cleared (o id : positive) (g : Game) (ob : WorldObject) :
  heap g !! o = Some ob -> o_interval ob = Some id ->
  timers (clearObjInterval o g) !! id = None.
Proof.
  intros Hob Hid. rewrite (clearObjInterval_busy g o id ob Hob Hid).
  simpl. apply lookup_delete_eq.
Qed.

(** With a turn left, [activateHoriBtn] stops the claw: whichever of the
    rail, the joint and the arm is in the middle of a move loses its handle
    and its timer, and nothing else about the part changes; the horizontal
    button is active and unlocked, and the turn counts as not yet used. *)
Theorem activation_stops_the_claw (g : Game) (part : positive)
    (ob : WorldObject) :
  0 < remainingTurns g -> part ∈ chain -> heap g !! part = Some ob ->
  heap (activateHoriBtn g) !! part = Some (set_interval None ob) /\
  (forall id, o_interval ob = Some id ->
              timers (activateHoriBtn g) !! id = None) /\
  horiBtn (activateHoriBtn g) = {| b_active := true; b_locked := false |} /\
  vertBtn (activateHoriBtn g) = vertBtn g /\
  turnUsed (activateHoriBtn g) = false /\
  remainingTurns (activateHoriBtn g) = remainingTurns g.
Proof.
  intros Hturns Hpart Hob. unfold activateHoriBtn.
  destruct (Z.leb_spec (remainingTurns g) 0) as [Hle | _]; [lia|].
  cbv zeta. simpl fold_left.
  set (g2 := set_buttons _ _ _).
  assert (heap g2 = heap g) as Hheap by reflexivity.
  split; [|split].
  - rewrite !heap_clearObjInterval, Hheap, Hob.
    unfold chain in Hpart.
    apply elem_of_cons in Hpart as [-> | Hpart];
      [|apply elem_of_cons in Hpart as [-> | Hpart];
        [|apply list_elem_of_singleton in Hpart as ->]];
      repeat case_decide; try discriminate; try contradiction; reflexivity.
  - intros id Hid. unfold chain in Hpart.
    apply elem_of_cons in Hpart as [-> | Hpart];
      [|apply elem_of_cons in Hpart as [-> | Hpart];
        [|apply list_elem_of_singleton in Hpart as ->]].
    + do 2 apply timers_clearObjInterval_None.
      apply (timer_of_cleared vertRail id g2 ob); [rewrite Hheap|]; assumption.
    + apply timers_clearObjInterval_None.
      apply (timer_of_cleared armJoint id _ ob); [|exact Hid].
      rewrite heap_clearObjInterval, Hheap.
      destruct (decide (armJoint = vertRail)); [discriminate | exact Hob].
    + apply (timer_of_cleared arm id _ ob); [|exact Hid].
      rewrite !heap_clearObjInterval, Hheap.
      repeat case_decide; try discriminate. exact Hob.
  - assert (forall P : Game -> Prop,
              (forall o x, P x -> P (clearObjInterval o x)) ->
              P g2 ->
              P (clearObjInterval arm
                   (clearObjInterval armJoint (clearObjInterval vertRail g2))))
      as Hthrough by (intros P Hstep Hbase; do 3 apply Hstep; exact Hbase).
    assert (forall (T : Type) (prj : Game -> T),
              (forall o f x, prj (mutate o f x) = prj x) ->
              (forall tm nt iv x, prj (set_timers tm nt iv x) = prj x) ->
              forall o x, prj (clearObjInterval o x) = prj x) as Hframe.
    { intros T prj Hm Ht o x.
      destruct (clearObjInterval_cases o x) as [-> | [id ->]];
        [reflexivity | rewrite Hm, Ht; reflexivity]. }
    split_all.
    + apply (Hthrough (fun x => horiBtn x = _)); [|reflexivity].
      intros o x <-. apply (Hframe _ horiBtn); reflexivity.
    + apply (Hthrough (fun x => vertBtn x = _)); [|reflexivity].
      intros o x <-. apply (Hframe _ vertBtn); reflexivity.
    + apply (Hthrough (fun x => turnUsed x = _)); [|reflexivity].
      intros o x <-. apply (Hframe _ turnUsed); reflexivity.
    + apply (Hthrough (fun x => remainingTurns x = _)); [|reflexivity].
      intros o x <-. apply (Hframe _ remainingTurns); reflexivity.
Qed.

(** The mounted demo machine once a turn has come in: the joint is on its
    way down, and activation takes its timer away. *)
Lemma activation_stops_the_claw_witness :
  timers (activateHoriBtn (onMessage 1 demoGame)) !! 1%positive = None.
Proof.
  refine (proj1 (proj2
            (activation_stops_the_claw (onMessage 1 demoGame) armJoint
               (default (createWorldObject 0 0)
                  (heap (onMessage 1 demoGame) !! armJoint))
               ltac:(vm_compute; reflexivity)
               ltac:(right; left)
               ltac:(vm_compute; reflexivity)))
            1%positive ltac:(vm_compute; reflexivity)).
Defined.
